(** * go-equivalence: a shallow embedding of [IsEquivalent] and its helpers

    The development follows the comparator of the repository source: the
    numeric comparison rules, the keyed lookup used for maps, the
    dereference walker with its duplicate finders, and the entry point
    that turns every fault into [false].

    Machine integers are [Z] with their wrap-around written out, floating
    point values are [spec_float] at the binary64 format (a [float32]
    is a binary64 value that is exactly representable at binary32, as
    [reflect.Value.Float] returns it), strings are [string], and the object
    graph lives in a heap indexed by addresses so that shared and cyclic
    structures can be expressed. *)

From Stdlib Require Import ZArith String Ascii List Bool Lia.
From Stdlib Require Import Floats.SpecFloat.
From stdpp Require Import base gmap list strings.

Local Open Scope Z_scope.

(** ** Machine integers *)

Module Int.

Definition wrap_unsigned (w z : Z) : Z := z mod 2 ^ w.

Definition wrap_signed (w z : Z) : Z :=
  (z + 2 ^ (w - 1)) mod 2 ^ w - 2 ^ (w - 1).

Definition MaxInt64 : Z := 2 ^ 63 - 1.
Definition MinInt64 : Z := - 2 ^ 63.
Definition MaxUint64 : Z := 2 ^ 64 - 1.

(** Conversions [int64(x)], [int32(x)], ... between integer types keep
    the low bits. The platform [int] and [uint] are 64 bits wide. *)
Definition int64 (z : Z) : Z := wrap_signed 64 z.
Definition int (z : Z) : Z := wrap_signed 64 z.
Definition int32 (z : Z) : Z := wrap_signed 32 z.
Definition int16 (z : Z) : Z := wrap_signed 16 z.
Definition int8 (z : Z) : Z := wrap_signed 8 z.
Definition uint64 (z : Z) : Z := wrap_unsigned 64 z.
Definition uint (z : Z) : Z := wrap_unsigned 64 z.
Definition uint32 (z : Z) : Z := wrap_unsigned 32 z.
Definition uint16 (z : Z) : Z := wrap_unsigned 16 z.
Definition uint8 (z : Z) : Z := wrap_unsigned 8 z.

End Int.

(** ** Floating point *)

Module Float.

Definition prec64 : Z := 53.
Definition emax64 : Z := 1024.
Definition prec32 : Z := 24.
Definition emax32 : Z := 128.

Definition NaN : spec_float := S754_nan.

Definition IsNaN (f : spec_float) : bool :=
  match f with S754_nan => true | _ => false end.

(** [a == b], [a < b], [a <= b] on float64. *)
Definition eqb (a b : spec_float) : bool := SFeqb a b.
Definition ltb (a b : spec_float) : bool := SFltb a b.
Definition leb (a b : spec_float) : bool := SFleb a b.

Definition Abs (a : spec_float) : spec_float := SFabs a.
Definition mul (a b : spec_float) : spec_float := SFmul prec64 emax64 a b.
Definition sub (a b : spec_float) : spec_float := SFsub prec64 emax64 a b.
Definition div (a b : spec_float) : spec_float := SFdiv prec64 emax64 a b.

(** [float64(z)] for an integer: round to nearest, ties to even. *)
Definition of_Z (z : Z) : spec_float := binary_normalize prec64 emax64 z 0 false.

(** The integer part of a finite float (truncation toward zero). *)
Definition trunc (f : spec_float) : option Z :=
  match f with
  | S754_zero _ => Some 0
  | S754_finite s m e => Some (cond_Zopp s (Z.shiftl (Zpos m) e))
  | _ => None
  end.

(** [int64(f)]. The Go specification leaves the result open when the
    value does not fit; 0x8000000000000000 is what amd64 produces. *)
Definition to_int64 (f : spec_float) : Z :=
  match trunc f with
  | Some z => if (Int.MinInt64 <=? z) && (z <=? Int.MaxInt64) then z else Int.MinInt64
  | None => Int.MinInt64
  end.

(** [uint64(f)], as compiled for amd64: below 2^63 the signed conversion
    reinterpreted, otherwise the signed conversion of [f - 2^63] with
    the top bit set. *)
Definition to_uint64 (f : spec_float) : Z :=
  if ltb f (of_Z (2 ^ 63)) then Int.uint64 (to_int64 f)
  else Z.lor (Int.uint64 (to_int64 (sub f (of_Z (2 ^ 63))))) (2 ^ 63).

(** [float32(f)] followed by the exact widening back to float64, which is
    how a float32 is held once it is read through [reflect]. *)
Definition to_float32 (f : spec_float) : spec_float :=
  match f with
  | S754_finite s m e =>
      match binary_normalize prec32 emax32 (cond_Zopp s (Zpos m)) e s with
      | S754_finite s' m' e' => binary_normalize prec64 emax64 (cond_Zopp s' (Zpos m')) e' s'
      | r => r
      end
  | _ => f
  end.

End Float.

(** ** Decimal rendering ([strconv] and [math/big]) *)

Module Strconv.

Definition digit_char (d : Z) : ascii := ascii_of_nat (48 + Z.to_nat d).

Fixpoint digits_acc (fuel : nat) (n : Z) (acc : string) : string :=
  match fuel with
  | O => acc
  | S fuel' =>
      let acc' := String (digit_char (n mod 10)) acc in
      if n / 10 =? 0 then acc' else digits_acc fuel' (n / 10) acc'
  end.

(** The decimal digits of a natural number, most significant first. *)
Definition digits (n : Z) : string :=
  digits_acc (S (Z.to_nat (Z.log2 n))) n EmptyString.

(** [strconv.FormatInt(z, 10)] and [strconv.FormatUint(z, 10)]; also
    [big.Int.String]. *)
Definition FormatInt (z : Z) : string :=
  if z <? 0 then String "-" (digits (- z)) else digits z.
Definition FormatUint (z : Z) : string := digits z.

Fixpoint zeros (n : nat) : string :=
  match n with O => EmptyString | S n' => String "0" (zeros n') end.

Fixpoint take (n : nat) (s : string) : string :=
  match n, s with
  | S n', String c s' => String c (take n' s')
  | _, _ => EmptyString
  end.

Fixpoint drop (n : nat) (s : string) : string :=
  match n, s with
  | S n', String _ s' => drop n' s'
  | _, _ => s
  end.

(** A decimal as the formatting routines see it: the digit string [d]
    (no trailing zeros, empty for zero) and the position [dp] of the
    decimal point, the value being 0.d * 10^dp. *)
Record decimal := { d_digits : string; d_dp : Z }.

Definition nd (d : decimal) : Z := Z.of_nat (String.length (d_digits d)).

(** [%e]: d.ddde+dd with [prec] digits after the point. *)
Definition fmtE (neg : bool) (d : decimal) (prec : Z) : string :=
  let sign := if neg then "-"%string else EmptyString in
  let first := match d_digits d with String c _ => String c EmptyString | EmptyString => "0"%string end in
  let more :=
    if 0 <? prec then
      let m := Z.min (nd d) (prec + 1) in
      let shown := take (Z.to_nat (m - 1)) (drop 1 (d_digits d)) in
      ("." ++ shown ++ zeros (Z.to_nat (prec - (Z.max m 1 - 1))))%string
    else EmptyString in
  let exp := if nd d =? 0 then 0 else d_dp d - 1 in
  let esign := if exp <? 0 then "-"%string else "+"%string in
  let aexp := Z.abs exp in
  let edigits := if aexp <? 10 then String "0" (digits aexp) else digits aexp in
  (sign ++ first ++ more ++ "e" ++ esign ++ edigits)%string.

(** [%f]: the integer part padded with zeros, then [prec] fraction digits. *)
Definition fmtF (neg : bool) (d : decimal) (prec : Z) : string :=
  let sign := if neg then "-"%string else EmptyString in
  let ipart :=
    if 0 <? d_dp d then
      let m := Z.min (nd d) (d_dp d) in
      (take (Z.to_nat m) (d_digits d) ++ zeros (Z.to_nat (d_dp d - m)))%string
    else "0"%string in
  let fpart :=
    if 0 <? prec then
      let lead := Z.to_nat (Z.min prec (Z.max 0 (- d_dp d))) in
      let from := Z.to_nat (Z.max 0 (d_dp d)) in
      let avail := take (Z.to_nat prec - lead) (drop from (d_digits d)) in
      ("." ++ zeros lead ++ avail
           ++ zeros (Z.to_nat prec - lead - String.length avail))%string
    else EmptyString in
  (sign ++ ipart ++ fpart)%string.

(** The ['g'] layout shared by [strconv.FormatFloat] and
    [big.Float.Text]: [%e] when the exponent is below -4 or not below
    the precision (6 when the shortest digits were asked for). *)
Definition formatDigits_g (shortest neg : bool) (d : decimal) (prec : Z) : string :=
  let eprec := if (nd d <? prec) && (d_dp d <=? nd d) then nd d else prec in
  let eprec := if shortest then 6 else eprec in
  let exp := d_dp d - 1 in
  if (exp <? -4) || (eprec <=? exp) then
    fmtE neg d (Z.min prec (nd d) - 1)
  else
    let prec := if d_dp d <? prec then nd d else prec in
    fmtF neg d (Z.max (prec - d_dp d) 0).

(** *** Digit generation, in exact rational arithmetic *)

Fixpoint strip_zeros (fuel : nat) (c k : Z) : Z * Z :=
  match fuel with
  | O => (c, k)
  | S fuel' => if (c mod 10 =? 0) && negb (c =? 0) then strip_zeros fuel' (c / 10) (k + 1) else (c, k)
  end.

(** The decimal for the integer [c] times 10^k, [c > 0]. *)
Definition mk_decimal (c k : Z) : decimal :=
  let '(c', k') := strip_zeros (S (Z.to_nat (Z.log2 c))) c k in
  let s := digits c' in
  {| d_digits := s; d_dp := Z.of_nat (String.length s) + k' |}.

Definition zero_decimal : decimal := {| d_digits := EmptyString; d_dp := 0 |}.

Fixpoint scale_up (fuel : nat) (num den k : Z) : Z :=
  match fuel with
  | O => k
  | S fuel' => if den <=? num * 10 ^ k then k else scale_up fuel' num den (k + 1)
  end.

(** The [dp] with 10^(dp-1) <= num/den < 10^dp, for num/den > 0. *)
Definition decimal_point (num den : Z) : Z :=
  if den <=? num then Z.of_nat (String.length (digits (num / den)))
  else 1 - scale_up (S (Z.to_nat (Z.log2 den))) num den 1.

(** num/den divided by 10^k, again as a fraction. *)
Definition scaled (num den k : Z) : Z * Z :=
  if 0 <=? k then (num, den * 10 ^ k) else (num * 10 ^ (- k), den).

(** Rounding of num/den > 0 to [n] significant digits, ties to even
    ([decimal.round] of math/big). *)
Definition round_digits (num den n : Z) : decimal :=
  let k := decimal_point num den - n in
  let '(n', d') := scaled num den k in
  let c := n' / d' in
  let r := n' mod d' in
  let up := (d' <? 2 * r) || ((2 * r =? d') && Z.odd c) in
  mk_decimal (if up then c + 1 else c) k.

(** One step of the search for the shortest digits: with [n] digits,
    is the truncation or its successor inside the rounding interval
    [lo, hi] (closed when [incl]) of the float? *)
Definition shortest_at (num lo hi den : Z) (incl : bool) (n : Z) : option decimal :=
  let k := decimal_point num den - n in
  let '(x', d') := scaled num den k in
  let lo' := fst (scaled lo den k) in
  let hi' := fst (scaled hi den k) in
  let c := x' / d' in
  let inside v := if incl then (lo' <=? v * d') && (v * d' <=? hi')
                  else (lo' <? v * d') && (v * d' <? hi') in
  let okdown := inside c in
  let okup := inside (c + 1) in
  let r := x' mod d' in
  let nearest_up := (d' <? 2 * r) || ((2 * r =? d') && Z.odd c) in
  match okdown, okup with
  | true, true => Some (mk_decimal (if nearest_up then c + 1 else c) k)
  | true, false => Some (mk_decimal c k)
  | false, true => Some (mk_decimal (c + 1) k)
  | false, false => None
  end.

Fixpoint shortest_from (fuel : nat) (num lo hi den : Z) (incl : bool) (n : Z) : decimal :=
  match fuel with
  | O => round_digits num den n
  | S fuel' =>
      match shortest_at num lo hi den incl n with
      | Some d => d
      | None => shortest_from fuel' num lo hi den incl (n + 1)
      end
  end.

(** The fewest digits that read back as the float64 with mantissa [m]
    and exponent [e] (value m * 2^e), nearest to it among those. *)
Definition shortest64 (m : positive) (e : Z) : decimal :=
  let mult := if 0 <=? e - 2 then 2 ^ (e - 2) else 1 in
  let den := if 0 <=? e - 2 then 1 else 2 ^ (2 - e) in
  let boundary := (Zpos m =? 2 ^ 52) && (-1074 <? e) in
  let num := 4 * Zpos m * mult in
  let lo := (4 * Zpos m - (if boundary then 1 else 2)) * mult in
  let hi := (4 * Zpos m + 2) * mult in
  shortest_from 17 num lo hi den (Z.even (Zpos m)) 1.

(** [strconv.FormatFloat(v, 'g', -1, 64)]. *)
Definition FormatFloat_g (v : spec_float) : string :=
  match v with
  | S754_nan => "NaN"%string
  | S754_infinity s => if s then "-Inf"%string else "+Inf"%string
  | S754_zero s => formatDigits_g true s zero_decimal 0
  | S754_finite s m e =>
      let d := shortest64 m e in
      formatDigits_g true s d (nd d)
  end.

(** [x.Text('g', prec)] of a [big.Float] with value [x]. *)
Definition BigFloat_Text_g (x : spec_float) (prec : Z) : string :=
  let prec := if prec =? 0 then 1 else prec in
  match x with
  | S754_nan => "NaN"%string
  | S754_infinity s => if s then "-Inf"%string else "+Inf"%string
  | S754_zero s => formatDigits_g false s zero_decimal prec
  | S754_finite s m e =>
      let d := if 0 <=? e then round_digits (Zpos m * 2 ^ e) 1 prec
               else round_digits (Zpos m) (2 ^ (- e)) prec in
      formatDigits_g false s d prec
  end.

End Strconv.

(** ** Outcomes

    A call either returns, or raises a fault (a Go panic, which unwinds to
    the [recover] of the entry point). Two more outcomes belong to the
    embedding: [Stuck], when an access leaves what the embedding describes
    (a dangling address, the storage address of a variable), and
    [Timeout], when the fuel given to a recursive function ran out. *)

Inductive outcome (A : Type) : Type :=
| Done (x : A)
| Fault
| Stuck
| Timeout.
Arguments Done {A} x.
Arguments Fault {A}.
Arguments Stuck {A}.
Arguments Timeout {A}.

Definition bind {A B : Type} (m : outcome A) (k : A -> outcome B) : outcome B :=
  match m with
  | Done x => k x
  | Fault => Fault
  | Stuck => Stuck
  | Timeout => Timeout
  end.

Notation "'let*' x ':=' m 'in' k" := (bind m (fun x => k))
  (at level 10, x pattern, m at level 200, k at level 200).

(** ** Values as [reflect] presents them *)

Module reflect.

Inductive Kind :=
| Invalid | Bool
| Int | Int8 | Int16 | Int32 | Int64
| Uint | Uint8 | Uint16 | Uint32 | Uint64 | Uintptr
| Float32 | Float64 | Complex64 | Complex128
| Array | Chan | Func | Interface | Map | Ptr | Slice | String | Struct
| UnsafePointer.

Inductive ChanDir := RecvDir | SendDir | BothDir.

End reflect.

Inductive int_kind := KInt | KInt8 | KInt16 | KInt32 | KInt64.
Inductive uint_kind := KUint | KUint8 | KUint16 | KUint32 | KUint64.
Inductive float_kind := KFloat32 | KFloat64.
Inductive complex_kind := KComplex64 | KComplex128.

(** Type descriptors, compared by identity in the source
    ([a.Type() == b.Type()]). [TNamed] is a defined type that is not an
    interface type, known by its name: a predeclared type, one of the two
    big numbers, or a type that the program defines. [TInterface] is
    [interface{}]; [TIface] is an interface type with methods, such as
    [error] (which types implement it is not part of the embedding). The
    other descriptors are the unnamed composite types. *)
Inductive rtype :=
| TNamed (name : string)
| TInterface
| TPtr (elem : rtype)
| TSlice (elem : rtype)
| TArray (len : Z) (elem : rtype)
| TMap (key elem : rtype)
| TChan (dir : reflect.ChanDir) (elem : rtype)
| TIface (name : string).

Definition bigIntType : rtype := TNamed "big.Int".
Definition bigFloatType : rtype := TNamed "big.Float".

(** A value handle. References ([VPtr], [VSlice], [VMap], [VChan],
    [VFunc]) carry the address of what they refer to, 0 for nil; the
    referents are in the heap. [VInterface] is a slot of interface type
    (an element, field or pointee declared [interface{}]) around its
    dynamic value, [VInvalid] inside it for a nil interface. [VBigInt] and
    [VBigFloat] are the structs [big.Int] and [big.Float], held by the
    number they denote and, for the float, its precision in bits. *)
#[warnings="-register-all"]
Inductive value :=
| VInvalid
| VBool (b : bool)
| VInt (k : int_kind) (n : Z)
| VUint (k : uint_kind) (n : Z)
| VUintptr (n : Z)
| VFloat (k : float_kind) (f : spec_float)
| VComplex (k : complex_kind) (re im : spec_float)
| VString (t : rtype) (s : string)
| VArray (t : rtype) (elems : list value)
| VSlice (t : rtype) (data : Z)
| VMap (t : rtype) (ref : Z)
| VPtr (t : rtype) (ref : Z)
| VInterface (dyn : value)
| VStruct (t : rtype) (fields : list value)
| VBigInt (z : Z)
| VBigFloat (prec : Z) (x : spec_float)
| VChan (t : rtype) (ref : Z) (queued : nat)
| VFunc (t : rtype) (ref : Z)
| VUnsafePointer (p : Z).

(** What an address holds: the variable a pointer points to, the backing
    array of a slice, or the entries of a map in the order the iterator
    yields them. *)
Inductive cell :=
| CVal (v : value)
| CArr (elems : list value)
| CMap (entries : list (value * value)).

Abbreviation heap := (gmap Z cell).

#[global] Instance int_kind_eq_dec : EqDecision int_kind.
Proof. solve_decision. Defined.
#[global] Instance uint_kind_eq_dec : EqDecision uint_kind.
Proof. solve_decision. Defined.
#[global] Instance float_kind_eq_dec : EqDecision float_kind.
Proof. solve_decision. Defined.
#[global] Instance complex_kind_eq_dec : EqDecision complex_kind.
Proof. solve_decision. Defined.
#[global] Instance ChanDir_eq_dec : EqDecision reflect.ChanDir.
Proof. solve_decision. Defined.
#[global] Instance Kind_eq_dec : EqDecision reflect.Kind.
Proof. solve_decision. Defined.
#[global] Instance rtype_eq_dec : EqDecision rtype.
Proof. solve_decision. Defined.

Module Value.

Definition Kind (v : value) : reflect.Kind :=
  match v with
  | VInvalid => reflect.Invalid
  | VBool _ => reflect.Bool
  | VInt KInt _ => reflect.Int
  | VInt KInt8 _ => reflect.Int8
  | VInt KInt16 _ => reflect.Int16
  | VInt KInt32 _ => reflect.Int32
  | VInt KInt64 _ => reflect.Int64
  | VUint KUint _ => reflect.Uint
  | VUint KUint8 _ => reflect.Uint8
  | VUint KUint16 _ => reflect.Uint16
  | VUint KUint32 _ => reflect.Uint32
  | VUint KUint64 _ => reflect.Uint64
  | VUintptr _ => reflect.Uintptr
  | VFloat KFloat32 _ => reflect.Float32
  | VFloat KFloat64 _ => reflect.Float64
  | VComplex KComplex64 _ _ => reflect.Complex64
  | VComplex KComplex128 _ _ => reflect.Complex128
  | VString _ _ => reflect.String
  | VArray _ _ => reflect.Array
  | VSlice _ _ => reflect.Slice
  | VMap _ _ => reflect.Map
  | VPtr _ _ => reflect.Ptr
  | VInterface _ => reflect.Interface
  | VStruct _ _ | VBigInt _ | VBigFloat _ _ => reflect.Struct
  | VChan _ _ _ => reflect.Chan
  | VFunc _ _ => reflect.Func
  | VUnsafePointer _ => reflect.UnsafePointer
  end.

Definition IsValid (v : value) : bool :=
  match v with VInvalid => false | _ => true end.

(** [v.Type()]; it faults on the zero Value. *)
Definition TypeOf (v : value) : outcome rtype :=
  match v with
  | VInvalid => Fault
  | VBool _ => Done (TNamed "bool")
  | VInt KInt _ => Done (TNamed "int")
  | VInt KInt8 _ => Done (TNamed "int8")
  | VInt KInt16 _ => Done (TNamed "int16")
  | VInt KInt32 _ => Done (TNamed "int32")
  | VInt KInt64 _ => Done (TNamed "int64")
  | VUint KUint _ => Done (TNamed "uint")
  | VUint KUint8 _ => Done (TNamed "uint8")
  | VUint KUint16 _ => Done (TNamed "uint16")
  | VUint KUint32 _ => Done (TNamed "uint32")
  | VUint KUint64 _ => Done (TNamed "uint64")
  | VUintptr _ => Done (TNamed "uintptr")
  | VFloat KFloat32 _ => Done (TNamed "float32")
  | VFloat KFloat64 _ => Done (TNamed "float64")
  | VComplex KComplex64 _ _ => Done (TNamed "complex64")
  | VComplex KComplex128 _ _ => Done (TNamed "complex128")
  | VString t _ | VArray t _ | VSlice t _ | VMap t _ | VPtr t _
  | VStruct t _ | VChan t _ _ | VFunc t _ => Done t
  | VInterface _ => Done TInterface
  | VBigInt _ => Done bigIntType
  | VBigFloat _ _ => Done bigFloatType
  | VUnsafePointer _ => Done (TNamed "unsafe.Pointer")
  end.

(** [t.Kind()], where the descriptor alone tells it; of a defined type
    the descriptor holds the name only. *)
Definition Type_Kind (t : rtype) : option reflect.Kind :=
  match t with
  | TNamed _ => None
  | TInterface | TIface _ => Some reflect.Interface
  | TPtr _ => Some reflect.Ptr
  | TSlice _ => Some reflect.Slice
  | TArray _ _ => Some reflect.Array
  | TMap _ _ => Some reflect.Map
  | TChan _ _ => Some reflect.Chan
  end.

(** The defined types whose values this embedding builds without a
    descriptor of their own ([TypeOf] names them): the predeclared types
    and the two big numbers. None of them has a pointer, slice, array,
    map or channel type underneath. *)
Definition basic_names : list string :=
  ["bool"; "int"; "int8"; "int16"; "int32"; "int64";
   "uint"; "uint8"; "uint16"; "uint32"; "uint64"; "uintptr";
   "float32"; "float64"; "complex64"; "complex128"; "string";
   "unsafe.Pointer"; "big.Int"; "big.Float"]%string.

(** [t.Elem()] and [t.ChanDir()] of a type descriptor. *)
Definition Type_Elem (t : rtype) : outcome rtype :=
  match t with
  | TPtr e | TSlice e | TArray _ e | TMap _ e | TChan _ e => Done e
  | _ => Fault
  end.

Definition Type_ChanDir (t : rtype) : outcome reflect.ChanDir :=
  match t with
  | TChan d _ => Done d
  | _ => Fault
  end.

(** The typed accessors fault on a value of another kind. *)
Definition Bool (v : value) : outcome bool :=
  match v with VBool b => Done b | _ => Fault end.

Definition Int (v : value) : outcome Z :=
  match v with VInt _ n => Done n | _ => Fault end.

Definition Uint (v : value) : outcome Z :=
  match v with VUint _ n | VUintptr n => Done n | _ => Fault end.

Definition Float (v : value) : outcome spec_float :=
  match v with VFloat _ f => Done f | _ => Fault end.

Definition Complex (v : value) : outcome (spec_float * spec_float) :=
  match v with VComplex _ re im => Done (re, im) | _ => Fault end.

(** [v.String()] does not fault: for a value that is not a string it
    yields a description in angle brackets. *)
Definition String (v : value) : string :=
  match v with
  | VString _ s => s
  | VInvalid => "<invalid Value>"
  | _ => "<Value>"
  end.

(** [v.Pointer()]: the address held by a reference; every other kind,
    [Uintptr] included, faults. The addresses of channels and functions
    are the ones recorded in the value. (Recent versions of [reflect]
    give a string the address of its bytes; the comparator never asks
    for it before another accessor has faulted.) *)
Definition Pointer (v : value) : outcome Z :=
  match v with
  | VPtr _ p | VSlice _ p | VMap _ p | VChan _ p _ | VFunc _ p
  | VUnsafePointer p => Done p
  | _ => Fault
  end.

(** [v.UnsafeAddr()]: the address of the variable holding [v]. It
    faults unless [v] is addressable, which depends on how [v] was
    reached: an operand of the entry point, a map entry and the content
    of an interface slot are not, what a pointer or a slice leads to is.
    The handles record neither that nor the addresses of variables, and
    the call is left open: no property below is stated about a run that
    reaches it. *)
Definition UnsafeAddr (v : value) : outcome Z := Stuck.

(** [v.Elem()]: the pointee of a pointer (the zero Value for nil) or the
    dynamic value of an interface. *)
Definition Elem (h : heap) (v : value) : outcome value :=
  match v with
  | VPtr _ p =>
      if p =? 0 then Done VInvalid
      else match h !! p with
           | Some (CVal x) => Done x
           | _ => Stuck
           end
  | VInterface d => Done d
  | _ => Fault
  end.

Definition backing (h : heap) (p : Z) : outcome (list value) :=
  if p =? 0 then Done []
  else match h !! p with
       | Some (CArr xs) => Done xs
       | _ => Stuck
       end.

Definition entries (h : heap) (p : Z) : outcome (list (value * value)) :=
  if p =? 0 then Done []
  else match h !! p with
       | Some (CMap es) => Done es
       | _ => Stuck
       end.

Definition byte_of (c : ascii) : value := VUint KUint8 (Z.of_nat (nat_of_ascii c)).

Definition Len (h : heap) (v : value) : outcome Z :=
  match v with
  | VArray _ xs => Done (Z.of_nat (length xs))
  | VSlice _ p => let* xs := backing h p in Done (Z.of_nat (length xs))
  | VMap _ p => let* es := entries h p in Done (Z.of_nat (length es))
  | VString _ s => Done (Z.of_nat (String.length s))
  | VChan _ _ n => Done (Z.of_nat n)
  | _ => Fault
  end.

Definition at_index {A} (xs : list A) (i : Z) : outcome A :=
  if i <? 0 then Fault
  else match xs !! Z.to_nat i with
       | Some x => Done x
       | None => Fault
       end.

Definition Index (h : heap) (v : value) (i : Z) : outcome value :=
  match v with
  | VArray _ xs => at_index xs i
  | VSlice _ p => let* xs := backing h p in at_index xs i
  | VString _ s => at_index (byte_of <$> list_ascii_of_string s) i
  | _ => Fault
  end.

(** [NumField] and [Field]. The representation fields of the two big
    number structs are not part of the embedding. *)
Definition NumField (v : value) : outcome Z :=
  match v with
  | VStruct _ fs => Done (Z.of_nat (length fs))
  | VBigInt _ => Done 2
  | VBigFloat _ _ => Done 7
  | _ => Fault
  end.

Definition Field (v : value) (i : Z) : outcome value :=
  match v with
  | VStruct _ fs => at_index fs i
  | VBigInt _ | VBigFloat _ _ => Stuck
  | _ => Fault
  end.

(** Equality of map keys ([==] on the key type; on interfaces the
    dynamic types must agree as well). *)
Fixpoint key_eqb (x y : value) : bool :=
  match x, y with
  | VInvalid, VInvalid => true
  | VBool a, VBool b => Bool.eqb a b
  | VInt k a, VInt k' b => bool_decide (k = k') && (a =? b)
  | VUint k a, VUint k' b => bool_decide (k = k') && (a =? b)
  | VUintptr a, VUintptr b => a =? b
  | VFloat k a, VFloat k' b => bool_decide (k = k') && Float.eqb a b
  | VComplex k ar ai, VComplex k' br bi =>
      bool_decide (k = k') && Float.eqb ar br && Float.eqb ai bi
  | VString t a, VString t' b => bool_decide (t = t') && String.eqb a b
  | VPtr t p, VPtr t' q => bool_decide (t = t') && (p =? q)
  | VChan t p _, VChan t' q _ => bool_decide (t = t') && (p =? q)
  | VUnsafePointer p, VUnsafePointer q => p =? q
  | VInterface a, VInterface b => key_eqb a b
  | VArray t xs, VArray t' ys =>
      bool_decide (t = t') &&
      (fix all2 (xs ys : list value) : bool :=
         match xs, ys with
         | [], [] => true
         | x :: xs', y :: ys' => key_eqb x y && all2 xs' ys'
         | _, _ => false
         end) xs ys
  | VStruct t xs, VStruct t' ys =>
      bool_decide (t = t') &&
      (fix all2 (xs ys : list value) : bool :=
         match xs, ys with
         | [], [] => true
         | x :: xs', y :: ys' => key_eqb x y && all2 xs' ys'
         | _, _ => false
         end) xs ys
  | _, _ => false
  end.

(** Slices, maps, functions and the structs that contain them cannot
    be hashed; using one as a key faults at run time. *)
Fixpoint hashable (v : value) : bool :=
  match v with
  | VInvalid | VSlice _ _ | VMap _ _ | VFunc _ _ | VBigInt _ | VBigFloat _ _ => false
  | VInterface VInvalid => true
  | VInterface d => hashable d
  | VArray _ xs | VStruct _ xs =>
      (fix all (xs : list value) : bool :=
         match xs with
         | [] => true
         | x :: xs' => hashable x && all xs'
         end) xs
  | _ => true
  end.

Definition unbox (v : value) : value :=
  match v with VInterface d => d | _ => v end.

Fixpoint lookup_key (key : value) (es : list (value * value)) : value :=
  match es with
  | [] => VInvalid
  | (k, v) :: es' => if key_eqb (unbox k) key then v else lookup_key key es'
  end.

(** [key.assignTo(dst)] for a key [v] of a type [t] other than [dst],
    [dst] not being [interface{}]: the rules [directlyAssignable] and
    [implements] of [reflect]. Two defined types are never assignable to
    each other, nor are two composite types of different descriptors; a
    bidirectional channel is assignable to a directional channel type of
    the same element type. A defined type and an unnamed type of the same
    kind are assignable when the type underneath the defined one is the
    other, and a type is assignable to an interface type with methods
    when it implements it: the embedding records neither, and leaves
    these cases open. *)
Definition assignTo (dst : rtype) (v : value) (t : rtype) : outcome value :=
  match dst, t with
  | TInterface, _ => Done v
  | TIface _, _ => Stuck
  | TNamed n, (TPtr _ | TSlice _ | TArray _ _ | TMap _ _ | TChan _ _) =>
      if bool_decide (n ∈ basic_names) then Fault else Stuck
  | TNamed _, _ => Fault
  | TChan _ e, TChan reflect.BothDir e' =>
      if bool_decide (e = e') then
        match v with
        | VChan _ p n => Done (VChan dst p n)
        | _ => Stuck
        end
      else Fault
  | (TPtr _ | TSlice _ | TArray _ _ | TMap _ _ | TChan _ _), TNamed _ =>
      if bool_decide (Type_Kind dst = Some (Kind v)) then Stuck else Fault
  | _, _ => Fault
  end.

(** [m.MapIndex(key)]: the key must be assignable to the key type of
    the map (the same type, any type for an [interface{}] key, or as
    [assignTo] has it); a key that cannot be hashed faults; the zero
    Value is returned when the key is absent. *)
Definition MapIndex (h : heap) (m key : value) : outcome value :=
  match m with
  | VMap (TMap kt _) p =>
      match TypeOf key with
      | Done t =>
          if bool_decide (kt = TInterface) || bool_decide (kt = t) then
            if hashable key then let* es := entries h p in Done (lookup_key key es)
            else Fault
          else
            let* key' := assignTo kt key t in
            if hashable key' then let* es := entries h p in Done (lookup_key key' es)
            else Fault
      | _ => Fault
      end
  | VMap _ _ => Stuck
  | _ => Fault
  end.

(** Modelled from the spec: [mapRange], the helper of this package that
    wraps the map iterator ("iterate [a]'s entries"); it is defined
    outside the two files of the comparators, and the older comparator
    calls [a.MapRange()] at the same place. *)
Definition mapRange (h : heap) (m : value) : outcome (list (value * value)) :=
  match m with
  | VMap _ p => entries h p
  | _ => Fault
  end.

End Value.

(** ** The numeric comparison rules *)

Definition bitsToDecimalDigitsTable : list Z := [0; 1; 1; 1; 1; 2; 2; 2; 3; 3].

Definition bitsToDecimalDigits (bitCount : Z) : Z :=
  Z.quot bitCount 10 * 3 + default 0 (bitsToDecimalDigitsTable !! Z.to_nat (Z.rem bitCount 10)).

Definition bigFloatToString (prec : Z) (v : spec_float) : string :=
  Strconv.BigFloat_Text_g v (bitsToDecimalDigits prec).

Definition floatToString (v : spec_float) : string :=
  Strconv.FormatFloat_g v.

(** [fmt.Sprintf("%v", v)] for a [reflect.Value] [v], which is how
    [numericToString] renders a value that is not a number: the walk of
    [printValue] in the package [fmt]. It prints the elements of arrays,
    slices, maps and structs and what an interface slot holds, each one
    level deeper, and keeps no record of what it has printed: on a slice,
    map or interface slot that contains itself it never returns. A
    pointer is followed at depth 0 only, and only to an array, slice,
    struct or map; elsewhere [fmtPointer] prints its address. The types
    of the embedding carry no methods, so that [handleMethods] finds a
    [Formatter] in the pointers to the two big numbers only.

    The text is spelled out where the embedding determines it; [elided]
    stands for a text that it does not determine (an address, the digits
    of a float32 or of a complex number, the representation of a big
    number), and the entries of a map come in the order of the iterator,
    where [fmt] sorts them by key. *)
Module fmt.

Definition elided : string := "?".

Fixpoint join (parts : list string) : string :=
  match parts with
  | [] => EmptyString
  | [s] => s
  | s :: rest => s ++ " " ++ join rest
  end.

(** [getField]: a field that is a non-nil interface is printed as what
    it holds. *)
Definition getField (v : value) : value :=
  match v with
  | VInterface VInvalid => v
  | VInterface d => d
  | _ => v
  end.

Definition fmtPointer (p : Z) : string :=
  if p =? 0 then "<nil>"%string else elided.

(** The elements of a sequence, and the entries of a map, printed in
    turn. *)
Fixpoint each (print : value → outcome string) (xs : list value) : outcome (list string) :=
  match xs with
  | [] => Done []
  | x :: xs' =>
      let* s := print x in
      let* ss := each print xs' in
      Done (s :: ss)
  end.

Fixpoint entries (print : value → outcome string) (es : list (value * value))
  : outcome (list string) :=
  match es with
  | [] => Done []
  | (k, x) :: es' =>
      let* sk := print k in
      let* sx := print x in
      let* ss := entries print es' in
      Done ((sk ++ ":" ++ sx)%string :: ss)
  end.

Fixpoint printValue (h : heap) (fuel : nat) (depth : nat) (v : value) : outcome string :=
  match fuel with
  | O => Timeout
  | S fuel' =>
      let print := printValue h fuel' (S depth) in
      match v with
      | VInvalid =>
          Done (match depth with O => "<invalid reflect.Value>" | S _ => "<nil>" end)%string
      | VBool b => Done (if b then "true" else "false")%string
      | VInt _ n => Done (Strconv.FormatInt n)
      | VUint _ n | VUintptr n => Done (Strconv.FormatUint n)
      | VFloat KFloat64 f => Done (Strconv.FormatFloat_g f)
      | VFloat KFloat32 _ | VComplex _ _ _ => Done elided
      | VString _ s => Done s
      | VMap _ p =>
          let* es := Value.entries h p in
          let* ss := entries print es in
          Done ("map[" ++ join ss ++ "]")%string
      | VStruct _ fs =>
          let* ss := each print (getField <$> fs) in
          Done ("{" ++ join ss ++ "}")%string
      | VBigInt _ | VBigFloat _ _ => Done elided
      | VInterface d =>
          if Value.IsValid d then print d else Done "<nil>"%string
      | VArray _ xs =>
          let* ss := each print xs in
          Done ("[" ++ join ss ++ "]")%string
      | VSlice _ p =>
          let* xs := Value.backing h p in
          let* ss := each print xs in
          Done ("[" ++ join ss ++ "]")%string
      | VPtr t p =>
          if p =? 0 then Done "<nil>"%string
          else if bool_decide (t = TPtr bigIntType) then
            let* a := Value.Elem h v in
            match a with
            | VBigInt z => Done (Strconv.FormatInt z)
            | _ => Stuck
            end
          else if bool_decide (t = TPtr bigFloatType) then Done elided
          else
            match depth with
            | O =>
                let* a := Value.Elem h v in
                match Value.Kind a with
                | reflect.Array | reflect.Slice | reflect.Struct | reflect.Map =>
                    let* s := print a in
                    Done ("&" ++ s)%string
                | _ => Done elided
                end
            | S _ => Done elided
            end
      | VChan _ p _ | VFunc _ p | VUnsafePointer p => Done (fmtPointer p)
      end
  end.

End fmt.

Definition Sprint_v (h : heap) (fuel : nat) (v : value) : outcome string :=
  fmt.printValue h fuel 0 v.

Definition numericToString (h : heap) (fuel : nat) (v : value) : outcome string :=
  match v with
  | VInt _ n => Done (Strconv.FormatInt n)
  | VUint _ n => Done (Strconv.FormatUint n)
  | VFloat _ f => Done (floatToString f)
  | VBigInt val => Done (Strconv.FormatInt val)
  | VBigFloat prec val => Done (bigFloatToString prec val)
  | _ =>
      let* s := Sprint_v h fuel v in
      Done ("NOT NUMERIC: " ++ s)%string
  end.

Definition isEquivalentToBigFloat (h : heap) (fuel : nat) (prec : Z) (a : spec_float)
    (b : value) : outcome bool :=
  let* s := numericToString h fuel b in
  Done (String.eqb (bigFloatToString prec a) s).

Definition isEquivalentToBigInt (h : heap) (fuel : nat) (a : Z) (b : value) : outcome bool :=
  let* s := numericToString h fuel b in
  Done (String.eqb (Strconv.FormatInt a) s).

Definition isEquivalentToInt (a : Z) (b : value) : bool :=
  match b with
  | VInt _ ib => ib =? a
  | VUint _ ub =>
      if negb (Z.land ub 0x1000000000000000 =? 0) then false
      else a =? Int.int64 ub
  | VFloat _ fb => (a =? Float.to_int64 fb) && Float.eqb (Float.of_Z a) fb
  | VBigInt bi => String.eqb (Strconv.FormatInt a) (Strconv.FormatInt bi)
  | VBigFloat prec bf => String.eqb (Strconv.FormatInt a) (bigFloatToString prec bf)
  | _ => false
  end.

Definition isEquivalentToUint (a : Z) (b : value) : bool :=
  match b with
  | VInt _ ib =>
      if ib <? 0 then false
      else a =? Int.uint64 ib
  | VUint _ ub => a =? ub
  | VFloat _ fb =>
      if Float.ltb fb (Float.of_Z 0) then false
      else (a =? Float.to_uint64 fb) && Float.eqb (Float.of_Z a) fb
  | VBigInt bi => String.eqb (Strconv.FormatUint a) (Strconv.FormatInt bi)
  | VBigFloat prec bf => String.eqb (Strconv.FormatUint a) (bigFloatToString prec bf)
  | _ => false
  end.

Definition isEquivalentToFloat (a : spec_float) (b : value) : bool :=
  match b with
  | VInt _ ib => Float.eqb a (Float.of_Z ib) && (Float.to_int64 a =? ib)
  | VUint _ ub => Float.eqb a (Float.of_Z ub) && (Float.to_uint64 a =? ub)
  | VFloat _ fb =>
      if Float.IsNaN a && Float.IsNaN fb then true
      else Float.eqb a fb
  | VBigInt bi => String.eqb (floatToString a) (Strconv.FormatInt bi)
  | VBigFloat prec bf => String.eqb (floatToString a) (bigFloatToString prec bf)
  | _ => false
  end.

(** ** The keyed lookup *)

Section Lookup.

Variable h : heap.

(** [if cond { if v := probe; v.IsValid() { return v } }; rest] *)
Definition probing (cond : bool) (probe rest : outcome value) : outcome value :=
  if cond then
    let* v := probe in
    if Value.IsValid v then Done v else rest
  else rest.

Definition getIntKeyedMapValue (aMap : value) (aKey : Z) : outcome value :=
  let* initialResult := Value.MapIndex h aMap (VInt KInt64 aKey) in
  if Value.IsValid initialResult then Done initialResult else
  let asInt := Int.int aKey in
  probing (Int.int64 asInt =? aKey) (Value.MapIndex h aMap (VInt KInt asInt)) (
  let asInt32 := Int.int32 aKey in
  probing (Int.int64 asInt32 =? aKey) (Value.MapIndex h aMap (VInt KInt32 asInt32)) (
  let asInt16 := Int.int16 aKey in
  probing (Int.int64 asInt16 =? aKey) (Value.MapIndex h aMap (VInt KInt16 asInt16)) (
  let asInt8 := Int.int8 aKey in
  probing (Int.int64 asInt8 =? aKey) (Value.MapIndex h aMap (VInt KInt8 asInt8)) (
  Done initialResult)))).

Definition getUintKeyedMapValue (aMap : value) (aKey : Z) : outcome value :=
  let* initialResult := Value.MapIndex h aMap (VUint KUint64 aKey) in
  if Value.IsValid initialResult then Done initialResult else
  let asUint := Int.uint aKey in
  probing (Int.uint64 asUint =? aKey) (Value.MapIndex h aMap (VUint KUint asUint)) (
  let asUint32 := Int.uint32 aKey in
  probing (Int.uint64 asUint32 =? aKey) (Value.MapIndex h aMap (VUint KUint32 asUint32)) (
  let asUint16 := Int.uint16 aKey in
  probing (Int.uint64 asUint16 =? aKey) (Value.MapIndex h aMap (VUint KUint16 asUint16)) (
  let asUint8 := Int.uint8 aKey in
  probing (Int.uint64 asUint8 =? aKey) (Value.MapIndex h aMap (VUint KUint8 asUint8)) (
  Done initialResult)))).

Definition getFloatKeyedMapValue (aMap : value) (aKey : spec_float) : outcome value :=
  let* initialResult := Value.MapIndex h aMap (VFloat KFloat64 aKey) in
  if Value.IsValid initialResult then Done initialResult else
  let asFloat32 := Float.to_float32 aKey in
  probing (Float.eqb asFloat32 aKey) (Value.MapIndex h aMap (VFloat KFloat32 asFloat32)) (
  Done initialResult).

Definition getMapValue (aMap aKey : value) : outcome value :=
  let* aKey := match Value.Kind aKey with
               | reflect.Interface => Value.Elem h aKey
               | _ => Done aKey
               end in
  let* initialResult := Value.MapIndex h aMap aKey in
  if Value.IsValid initialResult then Done initialResult else
  match aKey with
  | VInt _ asInt =>
      probing true (getIntKeyedMapValue aMap asInt) (
      probing (0 <=? asInt) (getUintKeyedMapValue aMap (Int.uint64 asInt)) (
      getFloatKeyedMapValue aMap (Float.of_Z asInt)))
  | VUint _ asUint =>
      probing true (getUintKeyedMapValue aMap asUint) (
      probing (asUint <=? Int.MaxInt64) (getIntKeyedMapValue aMap (Int.int64 asUint)) (
      getFloatKeyedMapValue aMap (Float.of_Z asUint)))
  | VFloat _ asFloat =>
      let asInt := Float.to_int64 asFloat in
      probing (Float.eqb (Float.of_Z asInt) asFloat) (getIntKeyedMapValue aMap asInt) (
      let asUint := Float.to_uint64 asFloat in
      probing (Float.eqb (Float.of_Z asUint) asFloat) (getUintKeyedMapValue aMap asUint) (
      Done initialResult))
  | _ => Done initialResult
  end.

End Lookup.

(** ** The duplicate finders *)

(** Modelled from the spec: the identity-tracking primitive of the
    package [go-duplicates], which is not part of this repository:
    [register(identity) -> wasAlreadyPresent], scoped per call and per
    side. The identity of a reference is the address it holds. *)
Definition RegisterPointer (finder : gset Z) (v : value) : outcome (bool * gset Z) :=
  let* p := Value.Pointer v in
  Done (bool_decide (p ∈ finder), {[p]} ∪ finder).

Record comparator := { aFinder : gset Z; bFinder : gset Z }.

Definition newComparator : comparator := {| aFinder := ∅; bFinder := ∅ |}.

(** ** The comparator *)

Section Comparator.

Variable h : heap.

Fixpoint drillDown (fuel : nat) (finder : gset Z) (v : value)
  : outcome (value * bool * gset Z) :=
  match fuel with
  | O => Timeout
  | S fuel' =>
      match Value.Kind v with
      | reflect.Ptr =>
          let* (hasDuplicate, finder) := RegisterPointer finder v in
          if hasDuplicate then Done (v, true, finder)
          else let* v := Value.Elem h v in drillDown fuel' finder v
      | reflect.Interface =>
          let* v := Value.Elem h v in drillDown fuel' finder v
      | _ => Done (v, false, finder)
      end
  end.

(** The recursive calls of the helpers go through [recur], which the
    main function instantiates with itself at a smaller fuel. *)
Definition equivalence := value → value → comparator → outcome (bool * comparator).

(** [for ... { if !areObjectsEquivalent(...) { return false } }; return true] *)
Fixpoint forEach {X} (body : X → comparator → outcome (bool * comparator))
    (xs : list X) (c : comparator) : outcome (bool * comparator) :=
  match xs with
  | [] => Done (true, c)
  | x :: xs' =>
      let* (ok, c) := body x c in
      if ok then forEach body xs' c else Done (false, c)
  end.

Definition areArraysOrSlicesEquivalent (recur : equivalence) (a b : value)
    (c : comparator) : outcome (bool * comparator) :=
  let* la := Value.Len h a in
  let* lb := Value.Len h b in
  if negb (la =? lb) then Done (false, c) else
  forEach (fun i c =>
             let* ai := Value.Index h a i in
             let* bi := Value.Index h b i in
             recur ai bi c)
          (seqZ 0 la) c.

Definition areMapsEquivalent (recur : equivalence) (a b : value)
    (c : comparator) : outcome (bool * comparator) :=
  let* la := Value.Len h a in
  let* lb := Value.Len h b in
  if negb (la =? lb) then Done (false, c) else
  let* iter := Value.mapRange h a in
  forEach (fun (kv : value * value) c =>
             let k := kv.1 in
             let av := kv.2 in
             let* bv := getMapValue h b k in
             recur av bv c)
          iter c.

(** The fuel is for the printing that [numericToString] may start.
    [a.Interface()] faults on a Value reached through an unexported field
    of a struct. The handles do not record how a Value was reached: the
    two big cases, here and in the numeric rules, are those of a big
    number that [Interface()] hands out (an operand of the entry point,
    or what pointers, interface slots, elements, map entries and exported
    fields lead to from one). *)
Definition areStructsEquivalent (fuel : nat) (recur : equivalence) (a b : value)
    (c : comparator) : outcome (bool * comparator) :=
  match a with
  | VBigInt x =>
      let* r := isEquivalentToBigInt h fuel x b in
      Done (r, c)
  | VBigFloat prec x =>
      let* r := isEquivalentToBigFloat h fuel prec x b in
      Done (r, c)
  | _ =>
      let* na := Value.NumField a in
      let* nb := Value.NumField b in
      if negb (na =? nb) then Done (false, c) else
      forEach (fun i c =>
                 let* ai := Value.Field a i in
                 let* bi := Value.Field b i in
                 recur ai bi c)
              (seqZ 0 na) c
  end.

Fixpoint areObjectsEquivalent (fuel : nat) (a b : value) (c : comparator)
  : outcome (bool * comparator) :=
  match fuel with
  | O => Timeout
  | S fuel' =>
      let* (a, aHasDuplicate, fa) := drillDown fuel (aFinder c) a in
      let* (b, bHasDuplicate, fb) := drillDown fuel (bFinder c) b in
      let c := {| aFinder := fa; bFinder := fb |} in
      if aHasDuplicate || bHasDuplicate then Done (true, c) else
      if negb (Value.IsValid a) || negb (Value.IsValid b) then
        Done (negb (Value.IsValid a) && negb (Value.IsValid b), c)
      else
      match Value.Kind a with
      | reflect.Bool =>
          let* x := Value.Bool a in let* y := Value.Bool b in Done (Bool.eqb x y, c)
      | reflect.Int | reflect.Int8 | reflect.Int16 | reflect.Int32 | reflect.Int64 =>
          let* x := Value.Int a in Done (isEquivalentToInt x b, c)
      | reflect.Uint | reflect.Uint8 | reflect.Uint16 | reflect.Uint32 | reflect.Uint64 =>
          let* x := Value.Uint a in Done (isEquivalentToUint x b, c)
      | reflect.Float32 | reflect.Float64 =>
          let* x := Value.Float a in Done (isEquivalentToFloat x b, c)
      | reflect.Complex64 | reflect.Complex128 =>
          let* x := Value.Complex a in let* y := Value.Complex b in
          Done (Float.eqb x.1 y.1 && Float.eqb x.2 y.2, c)
      | reflect.String =>
          let* ta := Value.TypeOf a in let* tb := Value.TypeOf b in
          Done (bool_decide (ta = tb) && String.eqb (Value.String a) (Value.String b), c)
      | reflect.Array =>
          areArraysOrSlicesEquivalent (areObjectsEquivalent fuel') a b c
      | reflect.Slice =>
          let* (hasDuplicate, fa) := RegisterPointer (aFinder c) a in
          let c := {| aFinder := fa; bFinder := bFinder c |} in
          if hasDuplicate then Done (true, c)
          else areArraysOrSlicesEquivalent (areObjectsEquivalent fuel') a b c
      | reflect.Map =>
          let* (hasDuplicate, fa) := RegisterPointer (aFinder c) a in
          let c := {| aFinder := fa; bFinder := bFinder c |} in
          if hasDuplicate then Done (true, c)
          else areMapsEquivalent (areObjectsEquivalent fuel') a b c
      | reflect.Struct =>
          areStructsEquivalent fuel (areObjectsEquivalent fuel') a b c
      | reflect.Uintptr =>
          let* pa := Value.Pointer a in let* pb := Value.Pointer b in Done (pa =? pb, c)
      | reflect.UnsafePointer =>
          let* pa := Value.UnsafeAddr a in let* pb := Value.UnsafeAddr b in Done (pa =? pb, c)
      | reflect.Chan =>
          let* ta := Value.TypeOf a in let* tb := Value.TypeOf b in
          if bool_decide (ta = tb) then
            let* ea := Value.Type_Elem ta in let* eb := Value.Type_Elem tb in
            if bool_decide (ea = eb) then
              let* da := Value.Type_ChanDir ta in let* db := Value.Type_ChanDir tb in
              Done (bool_decide (da = db), c)
            else Done (false, c)
          else Done (false, c)
      | reflect.Func =>
          let* ta := Value.TypeOf a in let* tb := Value.TypeOf b in
          Done (bool_decide (ta = tb), c)
      | _ => Done (false, c)
      end
  end.

End Comparator.

(** ** The entry point

    The operands are the dynamic values of the two [interface{}]
    arguments, [VInvalid] for a nil interface (which is what
    [reflect.ValueOf] makes of it). The deferred [recover] turns a fault
    into [false]; [None] is left for a run the embedding could not
    finish. *)
Definition IsEquivalent (fuel : nat) (h : heap) (a b : value) : option bool :=
  if negb (Value.IsValid a) && negb (Value.IsValid b) then Some true
  else
    match areObjectsEquivalent h fuel a b newComparator with
    | Done (isEquivalent, _) => Some isEquivalent
    | Fault => Some false
    | Stuck | Timeout => None
    end.

(** ** The older comparator ([equivalence.go])

    It has no duplicate finders: both operands are unwrapped in step, and
    numbers are compared after an exact conversion of the right operand to
    the kind of the left one; two floats may also differ by a relative
    tolerance. *)

Module Legacy.

(** [var floatToleranceFactor = 0.0000000001], the float64 nearest to
  that decimal. *)
Definition floatToleranceFactor : spec_float :=
S754_finite false 0x1B7CDFD9D7BDBB (-86).

Definition asInt (v : value) : Z * bool :=
match v with
| VInt _ n => (n, true)
| VUint _ uintValue =>
    if uintValue <=? Int.MaxInt64 then (Int.int64 uintValue, true) else (0, false)
| VFloat _ floatValue =>
    let intValue := Float.to_int64 floatValue in
    if Float.eqb (Float.of_Z intValue) floatValue then (intValue, true) else (0, false)
| _ => (0, false)
end.

Definition asUint (v : value) : Z * bool :=
match v with
| VInt _ intValue =>
    if 0 <=? intValue then (Int.uint64 intValue, true) else (0, false)
| VUint _ n => (n, true)
| VFloat _ floatValue =>
    let uintValue := Float.to_uint64 floatValue in
    if Float.eqb (Float.of_Z uintValue) floatValue then (uintValue, true) else (0, false)
| _ => (0, false)
end.

Definition asFloat (v : value) : spec_float * bool :=
match v with
| VInt _ intValue =>
    let floatValue := Float.of_Z intValue in
    if Float.to_int64 floatValue =? intValue then (floatValue, true)
    else (Float.of_Z 0, false)
| VUint _ uintValue =>
    let floatValue := Float.of_Z uintValue in
    if Float.to_uint64 floatValue =? uintValue then (floatValue, true)
    else (Float.of_Z 0, false)
| VFloat _ f => (f, true)
| _ => (Float.of_Z 0, false)
end.

Definition equivalence := value → value → outcome bool.

Fixpoint forEach {X} (body : X → outcome bool) (xs : list X) : outcome bool :=
match xs with
| [] => Done true
| x :: xs' =>
    let* ok := body x in
    if ok then forEach body xs' else Done false
end.

Definition areArraysOrSlicesEquivalent (h : heap) (recur : equivalence) (a b : value)
: outcome bool :=
let* la := Value.Len h a in
let* lb := Value.Len h b in
if negb (la =? lb) then Done false else
forEach (fun i =>
           let* ai := Value.Index h a i in
           let* bi := Value.Index h b i in
           recur ai bi)
        (seqZ 0 la).

Definition areMapsEquivalent (h : heap) (recur : equivalence) (a b : value)
: outcome bool :=
let* la := Value.Len h a in
let* lb := Value.Len h b in
if negb (la =? lb) then Done false else
let* iter := Value.mapRange h a in
forEach (fun (kv : value * value) =>
           let k := kv.1 in
           let av := kv.2 in
           let* bv := getMapValue h b k in
           recur av bv)
        iter.

Definition areStructsEquivalent (recur : equivalence) (a b : value) : outcome bool :=
let* na := Value.NumField a in
let* nb := Value.NumField b in
if negb (na =? nb) then Done false else
forEach (fun i =>
           let* ai := Value.Field a i in
           let* bi := Value.Field b i in
           recur ai bi)
        (seqZ 0 na).

Fixpoint areObjectsEquivalent (fuel : nat) (h : heap) (a b : value) : outcome bool :=
match fuel with
| O => Timeout
| S fuel' =>
    if negb (Value.IsValid a) && negb (Value.IsValid b) then Done true else
    match Value.Kind a with
    | reflect.Interface | reflect.Ptr =>
        let* ea := Value.Elem h a in
        let* eb := Value.Elem h b in
        areObjectsEquivalent fuel' h ea eb
    | reflect.Bool =>
        let* x := Value.Bool a in let* y := Value.Bool b in Done (Bool.eqb x y)
    | reflect.Int | reflect.Int8 | reflect.Int16 | reflect.Int32 | reflect.Int64 =>
        let (bValue, ok) := asInt b in
        if ok then let* x := Value.Int a in Done (x =? bValue) else Done false
    | reflect.Uint | reflect.Uint8 | reflect.Uint16 | reflect.Uint32 | reflect.Uint64 =>
        let (bValue, ok) := asUint b in
        if ok then let* x := Value.Uint a in Done (x =? bValue) else Done false
    | reflect.Float32 | reflect.Float64 =>
        let (bValue, ok) := asFloat b in
        let* aValue := Value.Float a in
        if negb ok then Done false
        else if Float.IsNaN aValue && Float.IsNaN bValue then Done true
        else if Float.eqb aValue bValue then Done true
        else
          let tolerance := Float.Abs (Float.mul aValue floatToleranceFactor) in
          Done (Float.leb (Float.Abs (Float.sub aValue bValue)) tolerance)
    | reflect.Complex64 | reflect.Complex128 =>
        let* x := Value.Complex a in let* y := Value.Complex b in
        Done (Float.eqb x.1 y.1 && Float.eqb x.2 y.2)
    | reflect.String =>
        let* ta := Value.TypeOf a in let* tb := Value.TypeOf b in
        Done (bool_decide (ta = tb) && String.eqb (Value.String a) (Value.String b))
    | reflect.Array | reflect.Slice =>
        areArraysOrSlicesEquivalent h (areObjectsEquivalent fuel' h) a b
    | reflect.Map =>
        areMapsEquivalent h (areObjectsEquivalent fuel' h) a b
    | reflect.Struct =>
        areStructsEquivalent (areObjectsEquivalent fuel' h) a b
    | reflect.Uintptr =>
        let* pa := Value.Pointer a in let* pb := Value.Pointer b in Done (pa =? pb)
    | reflect.UnsafePointer =>
        let* pa := Value.UnsafeAddr a in let* pb := Value.UnsafeAddr b in Done (pa =? pb)
    | reflect.Chan =>
        let* ta := Value.TypeOf a in let* tb := Value.TypeOf b in
        if bool_decide (ta = tb) then
          let* ea := Value.Type_Elem ta in let* eb := Value.Type_Elem tb in
          if bool_decide (ea = eb) then
            let* da := Value.Type_ChanDir ta in let* db := Value.Type_ChanDir tb in
            Done (bool_decide (da = db))
          else Done false
        else Done false
    | reflect.Func =>
        let* ta := Value.TypeOf a in let* tb := Value.TypeOf b in
        Done (bool_decide (ta = tb))
    | _ => Done false
    end
end.

Fixpoint drillDown (fuel : nat) (h : heap) (v : value) : outcome value :=
match fuel with
| O => Timeout
| S fuel' =>
    match Value.Kind v with
    | reflect.Ptr | reflect.Interface =>
        let* v := Value.Elem h v in drillDown fuel' h v
    | _ => Done v
    end
end.

Definition IsEquivalent (fuel : nat) (h : heap) (a b : value) : option bool :=
if negb (Value.IsValid a) && negb (Value.IsValid b) then Some true
else
  match (let* da := drillDown fuel h a in
         let* db := drillDown fuel h b in
         areObjectsEquivalent fuel h da db) with
  | Done isEquivalent => Some isEquivalent
  | Fault => Some false
  | Stuck | Timeout => None
  end.

End Legacy.

(** ** Predicates used in the statements *)

(** [settled r r']: once a run has a result, a longer run has the same. *)
Definition settled {A} (r r' : outcome A) : Prop := r ≠ Timeout → r' = r.

(** A value that is neither a pointer nor an interface slot. *)
Definition concrete (v : value) : bool :=
  match v with
  | VPtr _ _ | VInterface _ => false
  | _ => true
  end.

(** [a] drills down to [a'] at the start of a call: the walk through
    pointers and interface slots ends on [a'] without a duplicate. *)
Definition drills_to (h : heap) (fuel : nat) (a a' : value) : Prop :=
  ∃ finder, drillDown h fuel ∅ a = Done (a', false, finder).

(** An empty array, an empty or nil slice, an empty or nil map, whatever
    its declared type. *)
Definition empty_container (h : heap) (v : value) : Prop :=
  match v with
  | VArray _ xs => xs = []
  | VSlice _ p => Value.backing h p = Done []
  | VMap _ p => Value.entries h p = Done []
  | _ => False
  end.

(** The string does not begin with the letter N. *)
Definition head_not_N (s : string) : Prop := ∀ r, s ≠ String "N" r.

(** The string does not begin like the label of [numericToString]. *)
Definition plain (s : string) : Prop := ∀ r, s ≠ String "N" (String "O" r).

(** Empty, or beginning with something other than N. *)
Definition head_ok (s : string) : Prop :=
  match s with
  | EmptyString => True
  | String c _ => c ≠ "N"%char
  end.

Definition is_complex (v : value) : Prop :=
  match v with VComplex _ _ _ => True | _ => False end.

(** The numbers that are not complex: native signed, unsigned and
    floating values, and the two arbitrary-precision structs. *)
Definition noncomplex_numeric (v : value) : Prop :=
  match v with
  | VInt _ _ | VUint _ _ | VFloat _ _ | VBigInt _ | VBigFloat _ _ => True
  | _ => False
  end.

Definition native_number (v : value) : Prop :=
  match v with VInt _ _ | VUint _ _ | VFloat _ _ => True | _ => False end.

Definition int_of (v : value) : option Z :=
  match v with VInt _ n | VUint _ n => Some n | _ => None end.

(** A native integer whose number fits its kind. *)
Definition native_integer (v : value) : Prop :=
  match v with
  | VInt KInt64 n | VInt KInt n => Int.int64 n = n
  | VInt KInt32 n => Int.int32 n = n
  | VInt KInt16 n => Int.int16 n = n
  | VInt KInt8 n => Int.int8 n = n
  | VUint KUint64 n | VUint KUint n => Int.uint64 n = n
  | VUint KUint32 n => Int.uint32 n = n
  | VUint KUint16 n => Int.uint16 n = n
  | VUint KUint8 n => Int.uint8 n = n
  | _ => False
  end.

(** ** The keyed lookup as a list of probes *)

Definition only_if (cond : bool) (key : value) : list value :=
  if cond then [key] else [].

(** The keys tried by [getIntKeyedMapValue], [getUintKeyedMapValue] and
    [getFloatKeyedMapValue], in order. *)
Definition signed_probes (n : Z) : list value :=
  [VInt KInt64 n]
  ++ only_if (Int.int64 (Int.int n) =? n) (VInt KInt (Int.int n))
  ++ only_if (Int.int64 (Int.int32 n) =? n) (VInt KInt32 (Int.int32 n))
  ++ only_if (Int.int64 (Int.int16 n) =? n) (VInt KInt16 (Int.int16 n))
  ++ only_if (Int.int64 (Int.int8 n) =? n) (VInt KInt8 (Int.int8 n)).

Definition unsigned_probes (n : Z) : list value :=
  [VUint KUint64 n]
  ++ only_if (Int.uint64 (Int.uint n) =? n) (VUint KUint (Int.uint n))
  ++ only_if (Int.uint64 (Int.uint32 n) =? n) (VUint KUint32 (Int.uint32 n))
  ++ only_if (Int.uint64 (Int.uint16 n) =? n) (VUint KUint16 (Int.uint16 n))
  ++ only_if (Int.uint64 (Int.uint8 n) =? n) (VUint KUint8 (Int.uint8 n)).

Definition float_probes (f : spec_float) : list value :=
  [VFloat KFloat64 f]
  ++ only_if (Float.eqb (Float.to_float32 f) f) (VFloat KFloat32 (Float.to_float32 f)).

(** The keys tried by [getMapValue] after the exact lookup of the key
    itself: for a signed key the signed encodings, then the unsigned ones
    if it is not negative, then the floats; for an unsigned key the
    unsigned encodings first, then the signed ones if it fits, then the
    floats; for a float the signed and the unsigned encodings of its
    integer part when it is integral, and no float at all. *)
Definition probes (k : value) : list value :=
  match k with
  | VInt _ n =>
      signed_probes n
      ++ (if 0 <=? n then unsigned_probes (Int.uint64 n) else [])
      ++ float_probes (Float.of_Z n)
  | VUint _ n =>
      unsigned_probes n
      ++ (if n <=? Int.MaxInt64 then signed_probes (Int.int64 n) else [])
      ++ float_probes (Float.of_Z n)
  | VFloat _ f =>
      (if Float.eqb (Float.of_Z (Float.to_int64 f)) f
       then signed_probes (Float.to_int64 f) else [])
      ++ (if Float.eqb (Float.of_Z (Float.to_uint64 f)) f
          then unsigned_probes (Float.to_uint64 f) else [])
  | _ => []
  end.

(** The integer encodings among the probes of an integer key. *)
Definition integer_probes (k : value) : list value :=
  match k with
  | VInt _ n => signed_probes n ++ (if 0 <=? n then unsigned_probes (Int.uint64 n) else [])
  | VUint _ n => unsigned_probes n ++ (if n <=? Int.MaxInt64 then signed_probes (Int.int64 n) else [])
  | _ => []
  end.

(** The value of the first key of the list that the entries hold. *)
Fixpoint first_hit (es : list (value * value)) (keys : list value) : value :=
  match keys with
  | [] => VInvalid
  | k :: keys' =>
      let v := Value.lookup_key k es in
      if Value.IsValid v then v else first_hit es keys'
  end.

(** The resolver as the specification words it: the exact lookup, then
    the key re-encoded as signed integers of 64, platform, 32, 16 and 8
    bits, then as unsigned integers of the same widths, then at the
    narrowed floating width, each only when the re-encoding keeps the
    value of the key; the first hit is returned. *)
Definition spec_signed (n : Z) : list value :=
  only_if (Int.int64 n =? n) (VInt KInt64 n)
  ++ only_if (Int.int n =? n) (VInt KInt n)
  ++ only_if (Int.int32 n =? n) (VInt KInt32 n)
  ++ only_if (Int.int16 n =? n) (VInt KInt16 n)
  ++ only_if (Int.int8 n =? n) (VInt KInt8 n).

Definition spec_unsigned (n : Z) : list value :=
  only_if (Int.uint64 n =? n) (VUint KUint64 n)
  ++ only_if (Int.uint n =? n) (VUint KUint n)
  ++ only_if (Int.uint32 n =? n) (VUint KUint32 n)
  ++ only_if (Int.uint16 n =? n) (VUint KUint16 n)
  ++ only_if (Int.uint8 n =? n) (VUint KUint8 n).

Definition spec_narrowed (f : spec_float) : list value :=
  only_if (Float.eqb (Float.to_float32 f) f) (VFloat KFloat32 (Float.to_float32 f)).

Definition integral (f : spec_float) : option Z :=
  match Float.trunc f with
  | Some z => if Float.eqb (Float.of_Z z) f then Some z else None
  | None => None
  end.

Definition spec_probes (k : value) : list value :=
  match k with
  | VInt _ n | VUint _ n =>
      spec_signed n ++ spec_unsigned n
      ++ (if integral (Float.of_Z n) is Some z
          then if z =? n then spec_narrowed (Float.of_Z n) else [] else [])
  | VFloat _ f =>
      (if integral f is Some z then spec_signed z ++ spec_unsigned z else [])
      ++ spec_narrowed f
  | _ => []
  end.

Definition getMapValue_spec (es : list (value * value)) (k : value) : value :=
  first_hit es (Value.unbox k :: spec_probes (Value.unbox k)).

(** ** The measure of a comparison *)

(** The size of a value as it is held in place: interface slots, arrays
    and structs contain their parts, every other value counts for one. *)
Fixpoint size_of (v : value) : nat :=
  match v with
  | VInterface d => S (size_of d)
  | VArray _ xs | VStruct _ xs =>
      S ((fix sum (xs : list value) : nat :=
            match xs with
            | [] => O
            | x :: xs' => (size_of x + sum xs')%nat
            end) xs)
  | _ => 1%nat
  end.

Definition sizes (xs : list value) : nat := list_sum (size_of <$> xs).

(** The largest value a cell holds. *)
Definition cell_size (c : cell) : nat :=
  match c with
  | CVal v => size_of v
  | CArr xs => max_list (size_of <$> xs)
  | CMap es => max_list (size_of <$> es.*2)
  end.

Definition heap_bound (h : heap) : nat :=
  S (max_list (cell_size <$> (map_to_list h).*2)).

(** The addresses of the heap that a finder has not registered. *)
Definition unvisited (h : heap) (finder : gset Z) : nat := size (dom h ∖ finder).

(** The potential of a walk: the size of the value in hand, and a full
    cell for every address not yet registered. *)
Definition potential (h : heap) (v : value) (finder : gset Z) : nat :=
  (size_of v + unvisited h finder * heap_bound h)%nat.

(** A lookup that has ended, with a result of size [M] at most. *)
Definition bounded (M : nat) (r : outcome value) : Prop :=
  match r with
  | Done v => (size_of v ≤ M)%nat
  | Timeout => False
  | _ => True
  end.

(** The fuel that is enough for a comparison on a heap. *)
Definition enough_fuel (h : heap) (a b : value) : nat :=
  S (potential h a ∅ + Nat.max (size_of b) (heap_bound h) + size (dom h) * heap_bound h).

(** The values a cell hands to a comparison: the pointee, the elements
    of the backing array, the values of the entries. *)
Definition cell_values (c : cell) : list value :=
  match c with
  | CVal v => [v]
  | CArr xs => xs
  | CMap es => es.*2
  end.

(** No big number in a value as it is held in place. *)
Fixpoint big_free (v : value) : bool :=
  match v with
  | VBigInt _ | VBigFloat _ _ => false
  | VInterface d => big_free d
  | VArray _ xs | VStruct _ xs =>
      (fix all (xs : list value) : bool :=
         match xs with
         | [] => true
         | x :: xs' => big_free x && all xs'
         end) xs
  | _ => true
  end.

Definition big_free_heap (h : heap) : bool :=
  forallb (fun c => forallb big_free (cell_values c)) (map_to_list h).*2.

(** [fmt] prints [v], met as an element (at depth 1), within [P]
    levels. *)
Definition prints (h : heap) (P : nat) (v : value) : bool :=
  match fmt.printValue h P 1 v with
  | Done _ => true
  | _ => false
  end.

Definition printable_heap (h : heap) (P : nat) : bool :=
  forallb (fun c => forallb (prints h P) (cell_values c)) (map_to_list h).*2.

(** A comparison in which [numericToString] starts no printing that
    does not return: the left side holds no big number, or every value
    of the right side prints within [P] levels. *)
Definition print_safe (h : heap) (P : nat) (a b : value) : Prop :=
  (big_free_heap h = true ∧ big_free a = true)
  ∨ (printable_heap h P = true ∧ prints h P b = true).

(** ** Predicates of the further properties *)

(** A float that is not below zero: a zero, a finite number or an
    infinity with the sign bit clear, or NaN. *)
Definition not_negative (f : spec_float) : Prop :=
  match f with
  | S754_zero _ => True
  | S754_infinity s | S754_finite s _ _ => s = false
  | S754_nan => True
  end.

(** The elements [Len] and [Index] give access to: those of an array,
    of the backing array of a slice, or the bytes of a string. *)
Definition elements (h : heap) (v : value) : option (list value) :=
  match v with
  | VArray _ xs => Some xs
  | VSlice _ p => match Value.backing h p with Done xs => Some xs | _ => None end
  | VString _ s => Some (Value.byte_of <$> list_ascii_of_string s)
  | _ => None
  end.

(** The values compared in one step, without a walk and without the
    finders: booleans, native numbers, complex numbers, strings and the
    two big numbers. *)
Definition scalar (v : value) : bool :=
  match v with
  | VBool _ | VInt _ _ | VUint _ _ | VFloat _ _ | VComplex _ _ _ | VString _ _
  | VBigInt _ | VBigFloat _ _ => true
  | _ => false
  end.

(** The answer of the entry point for two scalars. *)
Definition equivalent_pair (x y : value) : bool :=
  match IsEquivalent 1 ∅ x y with
  | Some true => true
  | _ => false
  end.

(** [f] holds of the two lists position by position. *)
Fixpoint all_pairs (f : value → value → bool) (xs ys : list value) : bool :=
  match xs, ys with
  | [], [] => true
  | x :: xs', y :: ys' => f x y && all_pairs f xs' ys'
  | _, _ => false
  end.

(** A property of what a lookup returns, when it returns. *)
Definition yields (P : value → Prop) (r : outcome value) : Prop :=
  match r with
  | Done v => P v
  | _ => True
  end.

(** The zero Value, or a value stored in the map [m]. *)
Definition stored_or_zero (h : heap) (m v : value) : Prop :=
  v = VInvalid
  ∨ ∃ t p es key, m = VMap t p ∧ Value.entries h p = Done es ∧ (key, v) ∈ es.

(** The two finders at the end of a call hold what they held at its
    start. *)
Definition grown (c c' : comparator) : Prop :=
  aFinder c ⊆ aFinder c' ∧ bFinder c ⊆ bFinder c'.

(** The outcome [r] with the comparator [c] in place of its own. *)
Definition with_comparator (c : comparator) (r : outcome (bool * comparator))
  : outcome (bool * comparator) :=
  match r with
  | Done (b, _) => Done (b, c)
  | Fault => Fault
  | Stuck => Stuck
  | Timeout => Timeout
  end.

(** A key as a Go map holds it: equal to itself (no NaN inside),
    hashable, and of the key type of the map. *)
Definition key_ok (kt : rtype) (k : value) : bool :=
  Value.key_eqb (Value.unbox k) (Value.unbox k)
  && Value.hashable (Value.unbox k)
  && match Value.TypeOf (Value.unbox k) with
     | Done t => bool_decide (kt = TInterface) || bool_decide (kt = t)
     | _ => false
     end.

(** The entries of a Go map: keys as above, no key twice, and a valid
    Value under each. *)
Fixpoint keys_ok (kt : rtype) (es : list (value * value)) : bool :=
  match es with
  | [] => true
  | (k, v) :: es' =>
      key_ok kt k && Value.IsValid v
      && forallb (fun kv : value * value =>
                    negb (Value.key_eqb (Value.unbox k) (Value.unbox kv.1))) es'
      && keys_ok kt es'
  end.

(** A value of the object graph [h] that the embedding covers in full:
    every reference is nil or leads to a cell of its shape, maps are as
    Go builds them, and there is no [uintptr], no [unsafe.Pointer], no
    complex number with a NaN part and no big number. A [VStruct] is a
    struct of a type other than the two big numbers. With no big number
    in the graph [Interface()] is never called, so that it does not
    matter which fields of a struct are exported. *)
Fixpoint sound_value (h : heap) (v : value) : bool :=
  match v with
  | VInvalid | VBool _ | VInt _ _ | VUint _ _ | VFloat _ _ | VString _ _
  | VFunc _ _ => true
  | VComplex _ re im => negb (Float.IsNaN re) && negb (Float.IsNaN im)
  | VChan (TChan _ _) _ _ => true
  | VInterface d => sound_value h d
  | VArray _ xs =>
      (fix all (xs : list value) : bool :=
         match xs with
         | [] => true
         | x :: xs' => sound_value h x && all xs'
         end) xs
  | VStruct t xs =>
      negb (bool_decide (t = bigIntType)) && negb (bool_decide (t = bigFloatType))
      && (fix all (xs : list value) : bool :=
            match xs with
            | [] => true
            | x :: xs' => sound_value h x && all xs'
            end) xs
  | VPtr _ p => (p =? 0) || match h !! p with Some (CVal _) => true | _ => false end
  | VSlice _ p => (p =? 0) || match h !! p with Some (CArr _) => true | _ => false end
  | VMap (TMap kt _) p =>
      (p =? 0) || match h !! p with Some (CMap es) => keys_ok kt es | _ => false end
  | _ => false
  end.

Definition sound_cell (h : heap) (c : cell) : bool :=
  match c with
  | CVal v => sound_value h v
  | CArr xs => forallb (sound_value h) xs
  | CMap es => forallb (fun kv : value * value => sound_value h kv.2) es
  end.

Definition sound_heap (h : heap) : bool :=
  forallb (sound_cell h) (map_to_list h).*2.

(** A run that has not answered [false]: it gave [true], or it is out
    of fuel. *)
Definition holds_or_runs (r : outcome (bool * comparator)) : Prop :=
  r = Timeout ∨ ∃ c, r = Done (true, c).

(** The key [key] of a map stands for the number [n]: it is an integer
    holding [n], or a float equal to the conversion of [n]. *)
Definition key_of_number (n : Z) (key : value) : Prop :=
  int_of (Value.unbox key) = Some n
  ∨ ∃ kf f, Value.unbox key = VFloat kf f ∧ Float.eqb f (Float.of_Z n) = true.

(** [areBigFloatsEquivalent], a helper that the comparator does not
    call. The two type assertions [.(big.Float)] fault on a value of
    another type. *)
Definition areBigFloatsEquivalent (a b : value) : outcome bool :=
  match a, b with
  | VBigFloat pa xa, VBigFloat pb xb =>
      Done (String.eqb (bigFloatToString pa xa) (bigFloatToString pb xb))
  | _, _ => Fault
  end.

(** ** Sample object graphs *)

(** [big.NewInt(z)] and a float64 literal, as the entry point receives
    them: a pointer to the [big.Int], and the float itself. *)
Definition big_heap (z : Z) : heap := <[1 := CVal (VBigInt z)]> ∅.
Definition big_pointer : value := VPtr (TPtr bigIntType) 1.

(** Two one-element sequences of [interface{}] built apart, each holding
    itself ([a[0] = a], [b[0] = b]). *)
Definition self_heap : heap :=
  <[1 := CArr [VInterface (VSlice (TSlice TInterface) 1)]]>
    (<[2 := CArr [VInterface (VSlice (TSlice TInterface) 2)]]> ∅).
Definition self_a : value := VSlice (TSlice TInterface) 1.
Definition self_b : value := VSlice (TSlice TInterface) 2.

(** [big.NewInt(1)] beside the two self-containing sequences. *)
Definition big_self_heap : heap := <[3 := CVal (VBigInt 1)]> self_heap.
Definition big_one : value := VPtr (TPtr bigIntType) 3.

(** Two sequences of sequences of integers: [a] is [{{1}, {2}}] with
    two separate elements, [b] is [{s, s}] with the one slice [s = {1}]
    in both places. *)
Definition shared_heap : heap :=
  <[10 := CArr [VSlice (TSlice (TNamed "int")) 11; VSlice (TSlice (TNamed "int")) 12]]>
    (<[11 := CArr [VInt KInt 1]]>
       (<[12 := CArr [VInt KInt 2]]>
          (<[20 := CArr [VSlice (TSlice (TNamed "int")) 21; VSlice (TSlice (TNamed "int")) 21]]>
             (<[21 := CArr [VInt KInt 1]]> ∅)))).
Definition shared_a : value := VSlice (TSlice (TSlice (TNamed "int"))) 10.
Definition shared_b : value := VSlice (TSlice (TSlice (TNamed "int"))) 20.

(** A map [map[interface{}]interface{}] holding the number one under
    two keys, [int64(1)] and [uint64(1)]. *)
Definition two_ones : list (value * value) :=
  [(VInterface (VInt KInt64 1), VInterface (VString (TNamed "string") "signed"));
   (VInterface (VUint KUint64 1), VInterface (VString (TNamed "string") "unsigned"))].
Definition two_ones_heap : heap := <[1 := CMap two_ones]> ∅.
Definition two_ones_map : value := VMap (TMap TInterface TInterface) 1.

(** The integer 2^53 + 1, which no float64 holds, as a key; a map
    [map[interface{}]interface{}] whose one key is that integer, and one
    whose one key is [float64(2^53)]. *)
Definition lossy_key : value := VInt KInt64 (2 ^ 53 + 1).
Definition lossy_entries : list (value * value) :=
  [(VInterface (VFloat KFloat64 (Float.of_Z (2 ^ 53))),
    VInterface (VString (TNamed "string") "float"))].
Definition lossy_heap : heap :=
  <[1 := CMap lossy_entries]>
    (<[2 := CMap [(VInterface lossy_key, VInterface (VString (TNamed "string") "float"))]]> ∅).
Definition lossy_map : value := VMap (TMap TInterface TInterface) 1.
Definition lossy_keys : value := VMap (TMap TInterface TInterface) 2.

(** The number 1.5 as a float64 key, and a map
    [map[interface{}]interface{}] whose one key is [float32(1.5)]. *)
Definition three_halves : spec_float := Float.div (Float.of_Z 3) (Float.of_Z 2).
Definition narrow_entries : list (value * value) :=
  [(VInterface (VFloat KFloat32 (Float.to_float32 three_halves)),
    VInterface (VString (TNamed "string") "narrow"))].
Definition narrow_heap : heap := <[1 := CMap narrow_entries]> ∅.
Definition narrow_map : value := VMap (TMap TInterface TInterface) 1.

(** [var x interface{}; x = &x]: a pointer to an interface slot that
    holds the pointer itself. *)
Definition own_heap : heap := <[1 := CVal (VInterface (VPtr (TPtr TInterface) 1))]> ∅.
Definition own_pointer : value := VPtr (TPtr TInterface) 1.

(** The float64 numbers 1 and 1 + 2^-52. *)
Definition one : spec_float := Float.of_Z 1.
Definition one_plus_ulp : spec_float := S754_finite false (2 ^ 52 + 1) (-52).

(** The operands of the test suite of the repository
    ([equivalence_test.go]): the structs [MyStruct] and [ComplexStruct]
    of [TestComplex], with a map keyed by [int] on one side and by [int8]
    on the other, and the slices, maps, pointers and big numbers of the
    other tests. *)
Definition tstring : rtype := TNamed "string".
Definition MyStruct : rtype := TNamed "equivalence.MyStruct".
Definition ComplexStruct : rtype := TNamed "equivalence.ComplexStruct".
Definition str (s : string) : value := VString tstring s.
Definition float_3_8 : spec_float := Float.div (Float.of_Z 38) (Float.of_Z 10).
Definition float_1454e97 : spec_float := Float.of_Z (1454 * 10 ^ 97).
Definition float_10000000_1234 : spec_float :=
  Float.div (Float.of_Z 100000001234) (Float.of_Z 10000).

Definition test_heap : heap :=
  <[1 := CMap [(VInterface (VInt KInt 1), VInterface (str "a"))]]>
  (<[2 := CVal (VStruct MyStruct [VInt KInt 100; str "test"])]>
  (<[3 := CVal (VStruct ComplexStruct
                  [VMap (TMap TInterface TInterface) 1;
                   VStruct MyStruct [VInt KInt 1; str "a"];
                   VPtr (TPtr MyStruct) 2])]>
  (<[4 := CMap [(VInterface (VInt KInt8 1), VInterface (str "a"))]]>
  (<[5 := CVal (VStruct MyStruct [VInt KInt 100; str "test"])]>
  (<[6 := CVal (VInterface VInvalid)]>
  (<[7 := CArr [VUint KUint8 1; VUint KUint8 2; VUint KUint8 3]]>
  (<[8 := CArr [VUint KUint8 1; VUint KUint8 2; VUint KUint8 5]]>
  (<[9 := CArr [VInterface (VInt KInt 1); VInterface (str "blah");
                VInterface (VFloat KFloat64 float_3_8)]]>
  (<[10 := CArr [VInterface (VInt KInt 2); VInterface (str "blah");
                 VInterface (VFloat KFloat64 float_3_8)]]>
  (<[11 := CMap [(str "a", VInt KInt 1)]]>
  (<[12 := CMap [(str "a", VInt KInt 2)]]>
  (<[13 := CVal (VInt KInt 1)]>
  (<[14 := CVal (VBigInt 5)]>
  (<[15 := CVal (VBigFloat 53 float_1454e97)]>
  (<[16 := CVal (VBigFloat 53 float_10000000_1234)]>
  (<[17 := CVal (VBigInt 10000000)]>
  (<[18 := CVal (VBigFloat 53 (Float.of_Z 10000000))]>
  (<[19 := CVal (VBigInt (-70))]>
  (<[20 := CVal (VBigFloat 53 (Float.of_Z (-70)))]> ∅))))))))))))))))))).

Definition test_a : value := VPtr (TPtr ComplexStruct) 3.
Definition test_b : value :=
  VStruct ComplexStruct
    [VMap (TMap TInterface TInterface) 4;
     VStruct MyStruct [VInt KInt 1; str "a"];
     VPtr (TPtr MyStruct) 5].
Definition bytes_t : rtype := TSlice (TNamed "uint8").
Definition anys_t : rtype := TSlice TInterface.
Definition counts_t : rtype := TMap tstring (TNamed "int").
Definition ints3_t : rtype := TArray 3 (TNamed "int").

(** * Properties *)

(** ** Signed against unsigned *)

(** The guard of [isEquivalentToInt] on an unsigned operand tests the
    mask 0x1000000000000000, which is bit 60. *)
Lemma mask_is_bit60 : 0x1000000000000000 = 2 ^ 60.
Proof. reflexivity. Qed.

Lemma land_bit60 (ub : Z) :
  (Z.land ub 0x1000000000000000 =? 0) = negb (Z.testbit ub 60).
Proof.
  rewrite mask_is_bit60.
  destruct (Z.testbit ub 60) eqn:Hbit; simpl.
  - apply Z.eqb_neq. intros Hz.
    assert (Ht : Z.testbit (Z.land ub (2 ^ 60)) 60 = true).
    { rewrite Z.land_spec, Hbit, Z.pow2_bits_true by lia. reflexivity. }
    rewrite Hz, Z.bits_0 in Ht. discriminate.
  - apply Z.eqb_eq. apply Z.bits_inj'. intros n Hn.
    rewrite Z.land_spec, Z.bits_0.
    destruct (Z.eq_dec n 60) as [->|Hne].
    + rewrite Hbit. reflexivity.
    + rewrite (Z.pow2_bits_false 60 n) by lia. apply andb_false_r.
Qed.

(** What the source computes for a signed [a] and an unsigned [b]: the
    operand is rejected when its bit 60 is set, and otherwise compared
    after reinterpretation as a signed 64-bit integer. *)
Lemma isEquivalentToInt_unsigned (a : Z) (k : uint_kind) (ub : Z) :
  isEquivalentToInt a (VUint k ub) = negb (Z.testbit ub 60) && (a =? Int.int64 ub).
Proof.
  unfold isEquivalentToInt. rewrite land_bit60, negb_involutive.
  destruct (Z.testbit ub 60); reflexivity.
Qed.

(** C1, evaluated on the source: the equal pair int64(2^60), uint64(2^60)
    is rejected although 2^60 is below the largest signed integer, and
    uint64(2^63), which exceeds it, is accepted against the smallest signed
    integer; the entry point returns the same answers. With the operands
    exchanged, and in the older comparator, which tests the bound
    [uintValue <= math.MaxInt64], the equal pair is equivalent. *)
Theorem isEquivalentToInt_rejects_bit60 :
  isEquivalentToInt (2 ^ 60) (VUint KUint64 (2 ^ 60)) = false
  ∧ isEquivalentToInt Int.MinInt64 (VUint KUint64 (2 ^ 63)) = true
  ∧ IsEquivalent 1 ∅ (VInt KInt64 (2 ^ 60)) (VUint KUint64 (2 ^ 60)) = Some false
  ∧ IsEquivalent 1 ∅ (VInt KInt64 Int.MinInt64) (VUint KUint64 (2 ^ 63)) = Some true
  ∧ IsEquivalent 1 ∅ (VUint KUint64 (2 ^ 60)) (VInt KInt64 (2 ^ 60)) = Some true
  ∧ Legacy.IsEquivalent 1 ∅ (VInt KInt64 (2 ^ 60)) (VUint KUint64 (2 ^ 60)) = Some true
  ∧ Legacy.IsEquivalent 1 ∅ (VInt KInt64 Int.MinInt64) (VUint KUint64 (2 ^ 63)) = Some false.
Proof. repeat split; vm_compute; reflexivity. Qed.

(** ** More fuel never changes a result *)

Section Fuel.

Variable h : heap.

Lemma settled_refl {A} (r : outcome A) : settled r r.
Proof. intros _. reflexivity. Qed.

Lemma settled_bind {A B} (m m' : outcome A) (k k' : A → outcome B) :
  settled m m' → (∀ x, settled (k x) (k' x)) → settled (bind m k) (bind m' k').
Proof.
  intros Hm Hk Hr. destruct m as [x| | |]; simpl in *; try congruence.
  - rewrite Hm by discriminate. simpl. apply Hk, Hr.
  - rewrite Hm by discriminate. reflexivity.
  - rewrite Hm by discriminate. reflexivity.
Qed.

Lemma settled_bind_same {A B} (m : outcome A) (k k' : A → outcome B) :
  (∀ x, settled (k x) (k' x)) → settled (bind m k) (bind m k').
Proof. intros Hk. apply settled_bind; [apply settled_refl | exact Hk]. Qed.

Lemma drillDown_fuel (n : nat) (finder : gset Z) (v : value) :
  settled (drillDown h n finder v) (drillDown h (S n) finder v).
Proof.
  revert finder v. induction n as [|n IH]; intros finder v.
  - intros Hr. simpl in Hr. congruence.
  - change (drillDown h (S (S n)) finder v) with
      (match Value.Kind v with
       | reflect.Ptr =>
           let* (hasDuplicate, finder) := RegisterPointer finder v in
           if hasDuplicate then Done (v, true, finder)
           else let* v := Value.Elem h v in drillDown h (S n) finder v
       | reflect.Interface =>
           let* v := Value.Elem h v in drillDown h (S n) finder v
       | _ => Done (v, false, finder)
       end).
    change (drillDown h (S n) finder v) with
      (match Value.Kind v with
       | reflect.Ptr =>
           let* (hasDuplicate, finder) := RegisterPointer finder v in
           if hasDuplicate then Done (v, true, finder)
           else let* v := Value.Elem h v in drillDown h n finder v
       | reflect.Interface =>
           let* v := Value.Elem h v in drillDown h n finder v
       | _ => Done (v, false, finder)
       end) at 1.
    destruct (Value.Kind v); try apply settled_refl.
    + apply settled_bind_same. intros x. apply IH.
    + apply settled_bind_same. intros [dup f']. destruct dup.
      * apply settled_refl.
      * apply settled_bind_same. intros x. apply IH.
Qed.

Lemma forEach_fuel {X} (body body' : X → comparator → outcome (bool * comparator))
    (xs : list X) :
  (∀ x c, settled (body x c) (body' x c)) →
  ∀ c, settled (forEach body xs c) (forEach body' xs c).
Proof.
  intros Hb. induction xs as [|x xs IH]; intros c; simpl.
  - apply settled_refl.
  - apply settled_bind; [apply Hb|]. intros [ok c']. destruct ok.
    + apply IH.
    + apply settled_refl.
Qed.

Lemma areArraysOrSlicesEquivalent_fuel (recur recur' : equivalence) :
  (∀ a b c, settled (recur a b c) (recur' a b c)) →
  ∀ a b c, settled (areArraysOrSlicesEquivalent h recur a b c)
                   (areArraysOrSlicesEquivalent h recur' a b c).
Proof.
  intros Hr a b c. unfold areArraysOrSlicesEquivalent.
  apply settled_bind_same. intros la. apply settled_bind_same. intros lb.
  destruct (negb (la =? lb)); [apply settled_refl|].
  apply forEach_fuel. intros i c'.
  apply settled_bind_same. intros ai. apply settled_bind_same. intros bi. apply Hr.
Qed.

Lemma areMapsEquivalent_fuel (recur recur' : equivalence) :
  (∀ a b c, settled (recur a b c) (recur' a b c)) →
  ∀ a b c, settled (areMapsEquivalent h recur a b c)
                   (areMapsEquivalent h recur' a b c).
Proof.
  intros Hr a b c. unfold areMapsEquivalent.
  apply settled_bind_same. intros la. apply settled_bind_same. intros lb.
  destruct (negb (la =? lb)); [apply settled_refl|].
  apply settled_bind_same. intros iter.
  apply forEach_fuel. intros kv c'.
  apply settled_bind_same. intros bv. apply Hr.
Qed.

Lemma each_fuel (print print' : value → outcome string) (xs : list value) :
  (∀ x, settled (print x) (print' x)) →
  settled (fmt.each print xs) (fmt.each print' xs).
Proof.
  intros Hp. induction xs as [|x xs IH]; simpl; [apply settled_refl|].
  apply settled_bind; [apply Hp|]. intros s.
  apply settled_bind; [exact IH|]. intros ss. apply settled_refl.
Qed.

Lemma entries_fuel (print print' : value → outcome string) (es : list (value * value)) :
  (∀ x, settled (print x) (print' x)) →
  settled (fmt.entries print es) (fmt.entries print' es).
Proof.
  intros Hp. induction es as [|[k x] es IH]; simpl; [apply settled_refl|].
  apply settled_bind; [apply Hp|]. intros sk.
  apply settled_bind; [apply Hp|]. intros sx.
  apply settled_bind; [exact IH|]. intros ss. apply settled_refl.
Qed.

Lemma printValue_unfold (n depth : nat) (v : value) :
  fmt.printValue h (S n) depth v =
    let print := fmt.printValue h n (S depth) in
    match v with
    | VInvalid =>
        Done (match depth with O => "<invalid reflect.Value>" | S _ => "<nil>" end)%string
    | VBool b => Done (if b then "true" else "false")%string
    | VInt _ n => Done (Strconv.FormatInt n)
    | VUint _ n | VUintptr n => Done (Strconv.FormatUint n)
    | VFloat KFloat64 f => Done (Strconv.FormatFloat_g f)
    | VFloat KFloat32 _ | VComplex _ _ _ => Done fmt.elided
    | VString _ s => Done s
    | VMap _ p =>
        let* es := Value.entries h p in
        let* ss := fmt.entries print es in
        Done ("map[" ++ fmt.join ss ++ "]")%string
    | VStruct _ fs =>
        let* ss := fmt.each print (fmt.getField <$> fs) in
        Done ("{" ++ fmt.join ss ++ "}")%string
    | VBigInt _ | VBigFloat _ _ => Done fmt.elided
    | VInterface d =>
        if Value.IsValid d then print d else Done "<nil>"%string
    | VArray _ xs =>
        let* ss := fmt.each print xs in
        Done ("[" ++ fmt.join ss ++ "]")%string
    | VSlice _ p =>
        let* xs := Value.backing h p in
        let* ss := fmt.each print xs in
        Done ("[" ++ fmt.join ss ++ "]")%string
    | VPtr t p =>
        if p =? 0 then Done "<nil>"%string
        else if bool_decide (t = TPtr bigIntType) then
          let* a := Value.Elem h v in
          match a with
          | VBigInt z => Done (Strconv.FormatInt z)
          | _ => Stuck
          end
        else if bool_decide (t = TPtr bigFloatType) then Done fmt.elided
        else
          match depth with
          | O =>
              let* a := Value.Elem h v in
              match Value.Kind a with
              | reflect.Array | reflect.Slice | reflect.Struct | reflect.Map =>
                  let* s := print a in
                  Done ("&" ++ s)%string
              | _ => Done fmt.elided
              end
          | S _ => Done fmt.elided
          end
    | VChan _ p _ | VFunc _ p | VUnsafePointer p => Done (fmt.fmtPointer p)
    end.
Proof. reflexivity. Qed.

Lemma printValue_fuel (n : nat) :
  ∀ depth v, settled (fmt.printValue h n depth v) (fmt.printValue h (S n) depth v).
Proof.
  induction n as [|n IH]; intros depth v.
  - intros Hr. simpl in Hr. congruence.
  - rewrite (printValue_unfold (S n)), (printValue_unfold n). cbv zeta.
    destruct v as [| |k z|k z| |k f|k re im| |t xs|t p|t p|t p|d|t fs| | | | |];
      try apply settled_refl.
    all: try (apply settled_bind; [apply each_fuel; intros x; apply IH|];
              intros ss; apply settled_refl).
    all: try (apply settled_bind_same; intros xs;
              apply settled_bind;
                [first [apply each_fuel | apply entries_fuel]; intros x; apply IH|];
              intros ss; apply settled_refl).
    + destruct (p =? 0); [apply settled_refl|].
      destruct (bool_decide _); [apply settled_refl|].
      destruct (bool_decide _); [apply settled_refl|].
      destruct depth; [|apply settled_refl].
      apply settled_bind_same. intros a.
      destruct (Value.Kind a); try apply settled_refl;
        (apply settled_bind; [apply IH|]; intros s; apply settled_refl).
    + destruct (Value.IsValid d); [apply IH|apply settled_refl].
Qed.

Lemma printValue_more_fuel (n m depth : nat) (v : value) r :
  fmt.printValue h n depth v = r → r ≠ Timeout → (n ≤ m)%nat →
  fmt.printValue h m depth v = r.
Proof.
  intros Hr Hs Hle. induction Hle as [|m Hle IH]; [exact Hr|].
  rewrite <- IH. apply printValue_fuel. rewrite IH. exact Hs.
Qed.

Lemma numericToString_fuel (n : nat) (v : value) :
  settled (numericToString h n v) (numericToString h (S n) v).
Proof.
  unfold numericToString, Sprint_v.
  destruct v; try apply settled_refl;
    (apply settled_bind; [apply printValue_fuel|]; intros text; apply settled_refl).
Qed.

Lemma areStructsEquivalent_fuel (n : nat) (recur recur' : equivalence) :
  (∀ a b c, settled (recur a b c) (recur' a b c)) →
  ∀ a b c, settled (areStructsEquivalent h n recur a b c)
                   (areStructsEquivalent h (S n) recur' a b c).
Proof.
  intros Hr a b c. unfold areStructsEquivalent.
  destruct a;
    try (apply settled_bind_same; intros na; apply settled_bind_same; intros nb;
         destruct (negb (na =? nb)); [apply settled_refl|];
         apply forEach_fuel; intros i c';
         apply settled_bind_same; intros ai; apply settled_bind_same; intros bi; apply Hr).
  - unfold isEquivalentToBigInt.
    apply settled_bind; [|intros r; apply settled_refl].
    apply settled_bind; [apply numericToString_fuel|]. intros text. apply settled_refl.
  - unfold isEquivalentToBigFloat.
    apply settled_bind; [|intros r; apply settled_refl].
    apply settled_bind; [apply numericToString_fuel|]. intros text. apply settled_refl.
Qed.

Lemma areObjectsEquivalent_unfold (n : nat) (a b : value) (c : comparator) :
  areObjectsEquivalent h (S n) a b c =
    let* (a, aHasDuplicate, fa) := drillDown h (S n) (aFinder c) a in
    let* (b, bHasDuplicate, fb) := drillDown h (S n) (bFinder c) b in
    let c := {| aFinder := fa; bFinder := fb |} in
    if aHasDuplicate || bHasDuplicate then Done (true, c) else
    if negb (Value.IsValid a) || negb (Value.IsValid b) then
      Done (negb (Value.IsValid a) && negb (Value.IsValid b), c)
    else
    match Value.Kind a with
    | reflect.Bool =>
        let* x := Value.Bool a in let* y := Value.Bool b in Done (Bool.eqb x y, c)
    | reflect.Int | reflect.Int8 | reflect.Int16 | reflect.Int32 | reflect.Int64 =>
        let* x := Value.Int a in Done (isEquivalentToInt x b, c)
    | reflect.Uint | reflect.Uint8 | reflect.Uint16 | reflect.Uint32 | reflect.Uint64 =>
        let* x := Value.Uint a in Done (isEquivalentToUint x b, c)
    | reflect.Float32 | reflect.Float64 =>
        let* x := Value.Float a in Done (isEquivalentToFloat x b, c)
    | reflect.Complex64 | reflect.Complex128 =>
        let* x := Value.Complex a in let* y := Value.Complex b in
        Done (Float.eqb x.1 y.1 && Float.eqb x.2 y.2, c)
    | reflect.String =>
        let* ta := Value.TypeOf a in let* tb := Value.TypeOf b in
        Done (bool_decide (ta = tb) && String.eqb (Value.String a) (Value.String b), c)
    | reflect.Array =>
        areArraysOrSlicesEquivalent h (areObjectsEquivalent h n) a b c
    | reflect.Slice =>
        let* (hasDuplicate, fa) := RegisterPointer (aFinder c) a in
        let c := {| aFinder := fa; bFinder := bFinder c |} in
        if hasDuplicate then Done (true, c)
        else areArraysOrSlicesEquivalent h (areObjectsEquivalent h n) a b c
    | reflect.Map =>
        let* (hasDuplicate, fa) := RegisterPointer (aFinder c) a in
        let c := {| aFinder := fa; bFinder := bFinder c |} in
        if hasDuplicate then Done (true, c)
        else areMapsEquivalent h (areObjectsEquivalent h n) a b c
    | reflect.Struct =>
        areStructsEquivalent h (S n) (areObjectsEquivalent h n) a b c
    | reflect.Uintptr =>
        let* pa := Value.Pointer a in let* pb := Value.Pointer b in Done (pa =? pb, c)
    | reflect.UnsafePointer =>
        let* pa := Value.UnsafeAddr a in let* pb := Value.UnsafeAddr b in Done (pa =? pb, c)
    | reflect.Chan =>
        let* ta := Value.TypeOf a in let* tb := Value.TypeOf b in
        if bool_decide (ta = tb) then
          let* ea := Value.Type_Elem ta in let* eb := Value.Type_Elem tb in
          if bool_decide (ea = eb) then
            let* da := Value.Type_ChanDir ta in let* db := Value.Type_ChanDir tb in
            Done (bool_decide (da = db), c)
          else Done (false, c)
        else Done (false, c)
    | reflect.Func =>
        let* ta := Value.TypeOf a in let* tb := Value.TypeOf b in
        Done (bool_decide (ta = tb), c)
    | _ => Done (false, c)
    end.
Proof. reflexivity. Qed.

Lemma areObjectsEquivalent_fuel (n : nat) :
  ∀ a b c, settled (areObjectsEquivalent h n a b c) (areObjectsEquivalent h (S n) a b c).
Proof.
  induction n as [|n IH]; intros a b c.
  - intros Hr. simpl in Hr. congruence.
  - rewrite (areObjectsEquivalent_unfold (S n)), (areObjectsEquivalent_unfold n).
    apply settled_bind; [apply drillDown_fuel|]. intros [[a' da] fa].
    apply settled_bind; [apply drillDown_fuel|]. intros [[b' db] fb].
    cbv zeta.
    destruct (da || db); [apply settled_refl|].
    destruct (negb (Value.IsValid a') || negb (Value.IsValid b')); [apply settled_refl|].
    destruct (Value.Kind a'); try apply settled_refl.
    + apply areArraysOrSlicesEquivalent_fuel, IH.
    + apply settled_bind_same. intros [dup f']. cbv zeta.
      destruct dup; [apply settled_refl|]. apply areMapsEquivalent_fuel, IH.
    + apply settled_bind_same. intros [dup f']. cbv zeta.
      destruct dup; [apply settled_refl|]. apply areArraysOrSlicesEquivalent_fuel, IH.
    + apply areStructsEquivalent_fuel, IH.
Qed.

Lemma areObjectsEquivalent_more_fuel (n m : nat) (a b : value) (c : comparator) r :
  areObjectsEquivalent h n a b c = r → r ≠ Timeout → (n ≤ m)%nat →
  areObjectsEquivalent h m a b c = r.
Proof.
  intros Hr Hs Hle. induction Hle as [|m Hle IH]; [exact Hr|].
  rewrite <- IH. apply areObjectsEquivalent_fuel. rewrite IH. exact Hs.
Qed.

End Fuel.

Lemma IsEquivalent_more_fuel (n m : nat) (h : heap) (a b : value) (r : bool) :
  IsEquivalent n h a b = Some r → (n ≤ m)%nat → IsEquivalent m h a b = Some r.
Proof.
  unfold IsEquivalent. intros Hr Hle.
  destruct (negb (Value.IsValid a) && negb (Value.IsValid b)); [exact Hr|].
  destruct (areObjectsEquivalent h n a b newComparator) as [[r' c']| | |] eqn:Hn;
    try discriminate.
  - rewrite (areObjectsEquivalent_more_fuel h n m a b newComparator _ Hn); [exact Hr|discriminate|exact Hle].
  - rewrite (areObjectsEquivalent_more_fuel h n m a b newComparator _ Hn); [exact Hr|discriminate|exact Hle].
Qed.

(** ** The dereference walker *)

Lemma drillDown_concrete (h : heap) (n : nat) (finder : gset Z) (v : value) :
  concrete v = true → drillDown h (S n) finder v = Done (v, false, finder).
Proof. destruct v as [| | k | k | | k | k | | | | | | | | | | | |]; try destruct k; simpl; congruence. Qed.

Lemma drillDown_pointer (h : heap) (n : nat) (finder : gset Z) (t : rtype) (p : Z) :
  drillDown h (S n) finder (VPtr t p) =
    if bool_decide (p ∈ finder) then Done (VPtr t p, true, {[p]} ∪ finder)
    else let* v := Value.Elem h (VPtr t p) in drillDown h n ({[p]} ∪ finder) v.
Proof. simpl. destruct (bool_decide (p ∈ finder)); reflexivity. Qed.

Lemma drillDown_interface (h : heap) (n : nat) (finder : gset Z) (d : value) :
  drillDown h (S n) finder (VInterface d) = drillDown h n finder d.
Proof. reflexivity. Qed.


(** The walker never faults, and what it returns with the flag down is
    never a pointer or an interface slot; with the flag up it is a
    pointer, hence valid. *)
Lemma drillDown_no_fault (h : heap) (n : nat) (finder : gset Z) (v : value) :
  drillDown h n finder v ≠ Fault.
Proof.
  revert finder v. induction n as [|n IH]; intros finder v; [discriminate|].
  destruct v as [| | k | k | | k | k | | | | | | | | | | | |]; try destruct k; try discriminate.
  - rewrite drillDown_pointer. destruct (bool_decide _); [discriminate|].
    unfold Value.Elem. destruct (ref =? 0); [apply IH|].
    destruct (h !! ref) as [[x|xs|es]|]; simpl; try discriminate. apply IH.
  - rewrite drillDown_interface. apply IH.
Qed.

Lemma drillDown_result (h : heap) (n : nat) (finder : gset Z) (v v' : value)
    (dup : bool) (finder' : gset Z) :
  drillDown h n finder v = Done (v', dup, finder') →
  if dup then Value.Kind v' = reflect.Ptr else concrete v' = true.
Proof.
  revert finder v. induction n as [|n IH]; intros finder v; [discriminate|].
  destruct (concrete v) eqn:Hc.
  - rewrite drillDown_concrete by exact Hc. intros [= <- <- <-]. exact Hc.
  - destruct v; try discriminate.
    + rewrite drillDown_pointer. destruct (bool_decide _).
      * intros [= <- <- <-]. reflexivity.
      * destruct (Value.Elem h (VPtr t ref)) as [x| | |]; simpl; try discriminate. apply IH.
    + rewrite drillDown_interface. apply IH.
Qed.

Lemma drillDown_invalid_unflagged (h : heap) (n : nat) (finder : gset Z) (v v' : value)
    (dup : bool) (finder' : gset Z) :
  drillDown h n finder v = Done (v', dup, finder') → Value.IsValid v' = false → dup = false.
Proof.
  intros Hd Hv. apply drillDown_result in Hd. destruct dup; [|reflexivity].
  destruct v'; simpl in *; discriminate.
Qed.

(** A value that is already concrete drills down to itself. *)
Lemma drills_to_concrete (h : heap) (n : nat) (v : value) :
  concrete v = true → drills_to h (S n) v v.
Proof. intros Hc. exists ∅. apply drillDown_concrete, Hc. Qed.

Lemma drills_to_valid (h : heap) (n : nat) (a a' : value) :
  drills_to h n a a' → Value.IsValid a' = true → Value.IsValid a = true.
Proof.
  intros [f Hd] Hv. destruct a; try reflexivity.
  destruct n; [discriminate|]. simpl in Hd. injection Hd as <- _. discriminate.
Qed.

(** The comparison of two operands is the comparison of what they drill
    down to, with the finders the two walks leave. *)
Lemma areObjectsEquivalent_drilled (h : heap) (n : nat) (a b a' b' : value)
    (c : comparator) (fa fb : gset Z) :
  drillDown h (S n) (aFinder c) a = Done (a', false, fa) →
  drillDown h (S n) (bFinder c) b = Done (b', false, fb) →
  areObjectsEquivalent h (S n) a b c
  = areObjectsEquivalent h (S n) a' b' {| aFinder := fa; bFinder := fb |}.
Proof.
  intros Ha Hb.
  pose proof (drillDown_result _ _ _ _ _ _ _ Ha) as Hca.
  pose proof (drillDown_result _ _ _ _ _ _ _ Hb) as Hcb.
  rewrite !areObjectsEquivalent_unfold, Ha. cbn [bind]. rewrite Hb. cbn [bind].
  cbn [aFinder bFinder].
  rewrite (drillDown_concrete h n fa a' Hca). cbn [bind].
  rewrite (drillDown_concrete h n fb b' Hcb). cbn [bind].
  reflexivity.
Qed.

Lemma lookup_key_elem (key : value) (es : list (value * value)) :
  Value.lookup_key key es = VInvalid ∨ ∃ k, (k, Value.lookup_key key es) ∈ es.
Proof.
  induction es as [|[k v] es IH]; [left; reflexivity|]. simpl.
  destruct (Value.key_eqb (Value.unbox k) key).
  - right. exists k. left.
  - destruct IH as [IH|[k' IH]]; [left; exact IH|right; exists k'; right; exact IH].
Qed.

Lemma forallb_elem {A} (f : A → bool) (xs : list A) (x : A) :
  forallb f xs = true → x ∈ xs → f x = true.
Proof.
  intros Hall Hx. rewrite forallb_forall in Hall. apply Hall.
  apply list_elem_of_In. exact Hx.
Qed.

(** ** What a keyed lookup returns *)

Section Stored.

Variable h : heap.
Variable m : value.

Lemma yields_bind {A} (P : value → Prop) (r : outcome A) (k : A → outcome value) :
  (∀ x, r = Done x → yields P (k x)) → yields P (bind r k).
Proof. destruct r as [x| | |]; simpl; auto. Qed.

Lemma MapIndex_stored (key : value) : yields (stored_or_zero h m) (Value.MapIndex h m key).
Proof.
  unfold Value.MapIndex. destruct m as [| | | | | | | | | |t p| | | | | | | |]; try exact I.
  destruct t; try exact I.
  destruct (Value.TypeOf key); try exact I.
  assert (Hlook : ∀ key', yields (stored_or_zero h (VMap (TMap t1 t2) p))
            (if Value.hashable key'
             then let* es := Value.entries h p in Done (Value.lookup_key key' es)
             else Fault)).
  { intros key'. destruct (Value.hashable key'); try exact I.
    apply yields_bind. intros es Hes. simpl.
    destruct (lookup_key_elem key' es) as [->|[k Hk]]; [left; reflexivity|].
    right. exists (TMap t1 t2), p, es, k. auto. }
  destruct (_ || _); [apply Hlook|].
  apply yields_bind. intros key' _. apply Hlook.
Qed.

Lemma probing_stored (P : value → Prop) (cond : bool) (probe rest : outcome value) :
  yields P probe → yields P rest → yields P (probing cond probe rest).
Proof.
  intros Hp Hr. unfold probing. destruct cond; [|exact Hr].
  destruct probe as [v| | |]; simpl in *; auto.
  destruct (Value.IsValid v); [exact Hp|exact Hr].
Qed.

Lemma initial_stored (P : value → Prop) (probe : outcome value) (rest : value → outcome value) :
  yields P probe → (∀ v, probe = Done v → yields P (rest v)) →
  yields P (let* v := probe in if Value.IsValid v then Done v else rest v).
Proof.
  intros Hp Hr. destruct probe as [v| | |]; simpl in *; auto.
  destruct (Value.IsValid v); [exact Hp|apply Hr; reflexivity].
Qed.

Lemma yields_Done (P : value → Prop) (r : outcome value) (v : value) :
  yields P r → r = Done v → P v.
Proof. intros Hy ->. exact Hy. Qed.

Lemma getIntKeyedMapValue_stored (k : Z) :
  yields (stored_or_zero h m) (getIntKeyedMapValue h m k).
Proof.
  unfold getIntKeyedMapValue. apply initial_stored; [apply MapIndex_stored|]. intros v Hv.
  cbv zeta. repeat (apply probing_stored; [apply MapIndex_stored|]).
  exact (yields_Done _ _ v (MapIndex_stored _) Hv).
Qed.

Lemma getUintKeyedMapValue_stored (k : Z) :
  yields (stored_or_zero h m) (getUintKeyedMapValue h m k).
Proof.
  unfold getUintKeyedMapValue. apply initial_stored; [apply MapIndex_stored|]. intros v Hv.
  cbv zeta. repeat (apply probing_stored; [apply MapIndex_stored|]).
  exact (yields_Done _ _ v (MapIndex_stored _) Hv).
Qed.

Lemma getFloatKeyedMapValue_stored (k : spec_float) :
  yields (stored_or_zero h m) (getFloatKeyedMapValue h m k).
Proof.
  unfold getFloatKeyedMapValue. apply initial_stored; [apply MapIndex_stored|]. intros v Hv.
  cbv zeta. repeat (apply probing_stored; [apply MapIndex_stored|]).
  exact (yields_Done _ _ v (MapIndex_stored _) Hv).
Qed.

Lemma getMapValue_stored (k : value) : yields (stored_or_zero h m) (getMapValue h m k).
Proof.
  unfold getMapValue. apply yields_bind. intros key _.
  apply initial_stored; [apply MapIndex_stored|]. intros v Hv.
  pose proof (yields_Done _ _ v (MapIndex_stored _) Hv) as Hz.
  destruct key; try exact Hz; cbv zeta;
    repeat (apply probing_stored;
            [first [apply getIntKeyedMapValue_stored | apply getUintKeyedMapValue_stored]|]);
    first [apply getFloatKeyedMapValue_stored | exact Hz].
Qed.

End Stored.

(** ** Every comparison ends *)

Lemma size_of_array t xs : size_of (VArray t xs) = S (sizes xs).
Proof.
  unfold sizes. simpl. f_equal. induction xs as [|x xs IH]; csimpl; [reflexivity|].
  rewrite IH. reflexivity.
Qed.

Lemma size_of_struct t xs : size_of (VStruct t xs) = S (sizes xs).
Proof.
  unfold sizes. simpl. f_equal. induction xs as [|x xs IH]; csimpl; [reflexivity|].
  rewrite IH. reflexivity.
Qed.

Lemma size_of_pos v : (1 ≤ size_of v)%nat.
Proof. destruct v; simpl; lia. Qed.

Lemma sizes_elem x xs : x ∈ xs → (size_of x ≤ sizes xs)%nat.
Proof.
  unfold sizes. induction 1 as [x xs|x y xs Hin IH]; csimpl; lia.
Qed.

Lemma heap_bound_cell (h : heap) p c : h !! p = Some c → (cell_size c < heap_bound h)%nat.
Proof.
  intros Hp. unfold heap_bound. apply Nat.lt_succ_r. apply max_list_elem_of_le.
  apply list_elem_of_fmap. exists c. split; [reflexivity|].
  apply list_elem_of_fmap. exists (p, c). split; [reflexivity|].
  apply elem_of_map_to_list. exact Hp.
Qed.

Lemma unvisited_mono (h : heap) (f f' : gset Z) : f ⊆ f' → (unvisited h f' ≤ unvisited h f)%nat.
Proof. intros Hs. apply subseteq_size. set_solver. Qed.

Lemma unvisited_register (h : heap) (f : gset Z) (p : Z) :
  p ∈ dom h → p ∉ f → (unvisited h ({[p]} ∪ f) < unvisited h f)%nat.
Proof.
  intros Hd Hf. apply subset_size. split; [set_solver|].
  intros Hsub. assert (Hp : p ∈ dom h ∖ ({[p]} ∪ f)) by (apply Hsub; set_solver).
  set_solver.
Qed.

Section Termination.

Variable h : heap.

Local Abbreviation K := (heap_bound h).

Lemma potential_step (U U' x : nat) : (U' < U → x < K → x + U' * K < U * K)%nat.
Proof. nia. Qed.

Lemma pointee_size (p : Z) (x : value) : h !! p = Some (CVal x) → (size_of x < K)%nat.
Proof. intros Hp. exact (heap_bound_cell h p _ Hp). Qed.

Lemma element_size (p : Z) (xs : list value) (x : value) :
  h !! p = Some (CArr xs) → x ∈ xs → (size_of x < K)%nat.
Proof.
  intros Hp Hx. apply Nat.le_lt_trans with (cell_size (CArr xs)); [|exact (heap_bound_cell h p _ Hp)].
  simpl. apply max_list_elem_of_le. apply list_elem_of_fmap. eauto.
Qed.

Lemma entry_size (p : Z) (es : list (value * value)) (k v : value) :
  h !! p = Some (CMap es) → (k, v) ∈ es → (size_of v < K)%nat.
Proof.
  intros Hp Hx. apply Nat.le_lt_trans with (cell_size (CMap es)); [|exact (heap_bound_cell h p _ Hp)].
  simpl. apply max_list_elem_of_le. apply list_elem_of_fmap. exists v. split; [reflexivity|].
  apply list_elem_of_fmap. exists (k, v). split; [reflexivity|exact Hx].
Qed.

Lemma K_pos : (1 ≤ K)%nat.
Proof. unfold heap_bound. lia. Qed.

(** The walk ends once the fuel exceeds its potential. *)
Lemma drillDown_ends (n : nat) :
  ∀ v finder, (potential h v finder < n)%nat → drillDown h n finder v ≠ Timeout.
Proof.
  induction n as [|n IH]; intros v finder Hn; [lia|].
  destruct (concrete v) eqn:Hc.
  - rewrite drillDown_concrete by exact Hc. discriminate.
  - destruct v; try discriminate.
    + rewrite drillDown_pointer. destruct (bool_decide (ref ∈ finder)) eqn:Hin; [discriminate|].
      apply bool_decide_eq_false in Hin.
      unfold Value.Elem. destruct (ref =? 0) eqn:Hz.
      * cbn [bind]. destruct n as [|n']; [unfold potential in Hn; cbn [size_of] in Hn; lia|].
        rewrite drillDown_concrete by reflexivity. discriminate.
      * destruct (h !! ref) as [[x|xs|es]|] eqn:Hp; cbn [bind]; try discriminate.
        apply IH. unfold potential in *. cbn [size_of] in Hn.
        assert (Hd : ref ∈ dom h) by (apply elem_of_dom; eauto).
        pose proof (unvisited_register h finder ref Hd Hin).
        pose proof (pointee_size ref x Hp).
        pose proof (potential_step (unvisited h finder) (unvisited h ({[ref]} ∪ finder)) (size_of x)).
        lia.
    + rewrite drillDown_interface. apply IH. unfold potential in *. cbn [size_of] in Hn. lia.
Qed.

(** What a walk returns: the finder has grown, the potential has not,
    and the value is part of the operand or comes out of a cell. *)
Lemma drillDown_bounds (n : nat) :
  ∀ v finder v' dup finder',
    drillDown h n finder v = Done (v', dup, finder') →
    finder ⊆ finder'
    ∧ (potential h v' finder' ≤ potential h v finder)%nat
    ∧ (size_of v' ≤ size_of v ∨ size_of v' < K)%nat.
Proof.
  induction n as [|n IH]; intros v finder v' dup finder' Hd; [discriminate|].
  destruct (concrete v) eqn:Hc.
  - rewrite drillDown_concrete in Hd by exact Hc. injection Hd as <- <- <-.
    split; [reflexivity|]. split; [lia|]. left. lia.
  - destruct v; try discriminate.
    + rewrite drillDown_pointer in Hd.
      destruct (bool_decide (ref ∈ finder)) eqn:Hin.
      * injection Hd as <- <- <-. split; [set_solver|]. split; [|left; lia].
        unfold potential. pose proof (unvisited_mono h finder ({[ref]} ∪ finder)).
        assert (finder ⊆ {[ref]} ∪ finder) by set_solver.
        assert (unvisited h ({[ref]} ∪ finder) * K ≤ unvisited h finder * K)%nat
          by (apply Nat.mul_le_mono_r; auto).
        lia.
      * apply bool_decide_eq_false in Hin.
        unfold Value.Elem in Hd. destruct (ref =? 0) eqn:Hz.
        -- cbn [bind] in Hd. apply IH in Hd as (Hs & Hp & Hsz).
           split; [set_solver|]. unfold potential in *. cbn [size_of] in *.
           assert (finder ⊆ {[ref]} ∪ finder) by set_solver.
           pose proof (unvisited_mono h finder ({[ref]} ∪ finder)).
           assert (unvisited h ({[ref]} ∪ finder) * K ≤ unvisited h finder * K)%nat
             by (apply Nat.mul_le_mono_r; auto).
           split; [lia|]. destruct Hsz; [left|right]; lia.
        -- destruct (h !! ref) as [[x|xs|es]|] eqn:Hp; cbn [bind] in Hd; try discriminate.
           apply IH in Hd as (Hs & Hpot & Hsz).
           split; [set_solver|]. unfold potential in *. cbn [size_of].
           assert (Hdom : ref ∈ dom h) by (apply elem_of_dom; eauto).
           pose proof (unvisited_register h finder ref Hdom Hin).
           pose proof (pointee_size ref x Hp).
           pose proof (potential_step (unvisited h finder) (unvisited h ({[ref]} ∪ finder)) (size_of x)).
           split; [lia|]. right. destruct Hsz; lia.
    + rewrite drillDown_interface in Hd. apply IH in Hd as (Hs & Hpot & Hsz).
      split; [exact Hs|]. unfold potential in *. cbn [size_of]. split; [lia|]. destruct Hsz; [left|right]; lia.
Qed.


Lemma bind_Done {A B} (m : outcome A) (k : A → outcome B) (y : B) :
  bind m k = Done y → ∃ x, m = Done x ∧ k x = Done y.
Proof. destruct m as [x| | |]; simpl; try discriminate. eauto. Qed.

Lemma bind_ends {A B} (m : outcome A) (k : A → outcome B) :
  m ≠ Timeout → (∀ x, m = Done x → k x ≠ Timeout) → bind m k ≠ Timeout.
Proof. destruct m as [x| | |]; simpl; try congruence. intros _ Hk. apply Hk. reflexivity. Qed.

(** A loop keeps an invariant of the comparator and ends when each of
    its rounds does. *)
Lemma forEach_invariant {X} (P : comparator → Prop)
    (body : X → comparator → outcome (bool * comparator)) (xs : list X) :
  (∀ x c r c', x ∈ xs → P c → body x c = Done (r, c') → P c') →
  ∀ c r c', P c → forEach body xs c = Done (r, c') → P c'.
Proof.
  induction xs as [|x xs IH]; intros Hb c r c' Hc Hrun; simpl in Hrun.
  - injection Hrun as <- <-. exact Hc.
  - apply bind_Done in Hrun as ([ok c1] & Hx & Hrest).
    assert (Hc1 : P c1) by (eapply Hb; [left|exact Hc|exact Hx]).
    destruct ok.
    + eapply IH; [|exact Hc1|exact Hrest]. intros. eapply Hb; eauto. right. assumption.
    + injection Hrest as <- <-. exact Hc1.
Qed.

Lemma forEach_ends {X} (P : comparator → Prop)
    (body : X → comparator → outcome (bool * comparator)) (xs : list X) :
  (∀ x c r c', x ∈ xs → P c → body x c = Done (r, c') → P c') →
  (∀ x c, x ∈ xs → P c → body x c ≠ Timeout) →
  ∀ c, P c → forEach body xs c ≠ Timeout.
Proof.
  induction xs as [|x xs IH]; intros Hb He c Hc; simpl; [discriminate|].
  apply bind_ends; [apply He; [left|exact Hc]|].
  intros [ok c1] Hx. destruct ok; [|discriminate].
  apply IH.
  - intros. eapply Hb; eauto. right. assumption.
  - intros. apply He; [right|]; assumption.
  - eapply Hb; [left|exact Hc|exact Hx].
Qed.

(** The left finder only grows during a comparison. *)
Lemma forEach_grows {X} (body : X → comparator → outcome (bool * comparator)) (xs : list X) :
  (∀ x c r c', body x c = Done (r, c') → aFinder c ⊆ aFinder c') →
  ∀ c r c', forEach body xs c = Done (r, c') → aFinder c ⊆ aFinder c'.
Proof.
  intros Hbody c r c' Hfe.
  apply (forEach_invariant (fun c1 => aFinder c ⊆ aFinder c1) body xs) with (c := c) (r := r);
    [|reflexivity|exact Hfe].
  intros x c1 r1 c1' _ Hc1 Hx. etrans; [exact Hc1|]. eapply Hbody; exact Hx.
Qed.

Lemma areObjectsEquivalent_grows (n : nat) :
  ∀ a b c r c', areObjectsEquivalent h n a b c = Done (r, c') → aFinder c ⊆ aFinder c'.
Proof.
  induction n as [|n IH]; intros a b c r c' Hrun; [discriminate|].
  rewrite areObjectsEquivalent_unfold in Hrun.
  apply bind_Done in Hrun as ([[a' da] fa] & Ha & Hrun).
  apply bind_Done in Hrun as ([[b' db] fb] & Hb & Hrun).
  cbv zeta in Hrun.
  destruct (drillDown_bounds (S n) _ _ _ _ _ Ha) as (Hfa & _ & _).
  assert (Harr : ∀ c0 r0 c0',
             areArraysOrSlicesEquivalent h (areObjectsEquivalent h n) a' b' c0 = Done (r0, c0') →
             aFinder c0 ⊆ aFinder c0').
  { intros c0 r0 c0' Hr. unfold areArraysOrSlicesEquivalent in Hr.
    apply bind_Done in Hr as (la & _ & Hr). apply bind_Done in Hr as (lb & _ & Hr).
    destruct (negb (la =? lb)); [injection Hr as <- <-; reflexivity|].
    eapply forEach_grows; [|exact Hr]. intros i c1 r1 c1' Hi.
    apply bind_Done in Hi as (ai & _ & Hi). apply bind_Done in Hi as (bi & _ & Hi).
    eapply IH; exact Hi. }
  assert (Hmap : ∀ c0 r0 c0',
             areMapsEquivalent h (areObjectsEquivalent h n) a' b' c0 = Done (r0, c0') →
             aFinder c0 ⊆ aFinder c0').
  { intros c0 r0 c0' Hr. unfold areMapsEquivalent in Hr.
    apply bind_Done in Hr as (la & _ & Hr). apply bind_Done in Hr as (lb & _ & Hr).
    destruct (negb (la =? lb)); [injection Hr as <- <-; reflexivity|].
    apply bind_Done in Hr as (iter & _ & Hr).
    eapply forEach_grows; [|exact Hr]. intros kv c1 r1 c1' Hi. cbv zeta in Hi.
    apply bind_Done in Hi as (bv & _ & Hi).
    eapply IH; exact Hi. }
  assert (Hstr : ∀ c0 r0 c0',
             areStructsEquivalent h (S n) (areObjectsEquivalent h n) a' b' c0 = Done (r0, c0') →
             aFinder c0 ⊆ aFinder c0').
  { intros c0 r0 c0' Hr. unfold areStructsEquivalent in Hr.
    assert (Hgen : (let* na := Value.NumField a' in
                    let* nb := Value.NumField b' in
                    if negb (na =? nb) then Done (false, c0) else
                    forEach (fun i c =>
                      let* ai := Value.Field a' i in
                      let* bi := Value.Field b' i in
                      areObjectsEquivalent h n ai bi c) (seqZ 0 na) c0) = Done (r0, c0') →
                   aFinder c0 ⊆ aFinder c0').
    { intros Hg. apply bind_Done in Hg as (la & _ & Hg). apply bind_Done in Hg as (lb & _ & Hg).
      destruct (negb (la =? lb)); [injection Hg as <- <-; reflexivity|].
      eapply forEach_grows; [|exact Hg]. intros i c1 r1 c1' Hi.
      apply bind_Done in Hi as (ai & _ & Hi). apply bind_Done in Hi as (bi & _ & Hi).
      eapply IH; exact Hi. }
    destruct a'; try (apply Hgen; exact Hr);
      apply bind_Done in Hr as (r1 & _ & Hr); injection Hr as <- <-; reflexivity. }
  destruct (da || db); [injection Hrun as <- <-; exact Hfa|].
  destruct (negb (Value.IsValid a') || negb (Value.IsValid b'));
    [injection Hrun as <- <-; exact Hfa|].
  destruct (Value.Kind a').
  all: try (injection Hrun as <- <-; exact Hfa).
  all: try (apply Harr in Hrun; exact (transitivity Hfa Hrun)).
  all: try (apply Hstr in Hrun; exact (transitivity Hfa Hrun)).
  all: try (apply bind_Done in Hrun as (x & _ & Hrun); injection Hrun as <- <-; exact Hfa).
  all: try (apply bind_Done in Hrun as (x & _ & Hrun);
            apply bind_Done in Hrun as (y & _ & Hrun); injection Hrun as <- <-; exact Hfa).
  - apply bind_Done in Hrun as (ta & _ & Hrun). apply bind_Done in Hrun as (tb & _ & Hrun).
    destruct (bool_decide (ta = tb)); [|injection Hrun as <- <-; exact Hfa].
    apply bind_Done in Hrun as (ea & _ & Hrun). apply bind_Done in Hrun as (eb & _ & Hrun).
    destruct (bool_decide (ea = eb)); [|injection Hrun as <- <-; exact Hfa].
    apply bind_Done in Hrun as (x & _ & Hrun). apply bind_Done in Hrun as (y & _ & Hrun).
    injection Hrun as <- <-; exact Hfa.
  - apply bind_Done in Hrun as ([dup fa0] & Hreg & Hrun).
    unfold RegisterPointer in Hreg. apply bind_Done in Hreg as (p & _ & Hreg).
    injection Hreg as <- <-. cbn [aFinder bFinder] in Hrun.
    destruct (bool_decide _).
    + injection Hrun as <- <-. cbn [aFinder]. set_solver.
    + apply Hmap in Hrun. cbn [aFinder] in Hrun. set_solver.
  - apply bind_Done in Hrun as ([dup fa0] & Hreg & Hrun).
    unfold RegisterPointer in Hreg. apply bind_Done in Hreg as (p & _ & Hreg).
    injection Hreg as <- <-. cbn [aFinder bFinder] in Hrun.
    destruct (bool_decide _).
    + injection Hrun as <- <-. cbn [aFinder]. set_solver.
    + apply Harr in Hrun. cbn [aFinder] in Hrun. set_solver.
Qed.

Lemma bounded_bind {A} (M : nat) (m : outcome A) (k : A → outcome value) :
  m ≠ Timeout → (∀ x, m = Done x → bounded M (k x)) → bounded M (bind m k).
Proof. destruct m as [x| | |]; simpl; try tauto. intros _ Hk. apply Hk. reflexivity. Qed.

Lemma bounded_ends (M : nat) (r : outcome value) : bounded M r → r ≠ Timeout.
Proof. destruct r; simpl; congruence || tauto. Qed.

Lemma bounded_Done (M : nat) (r : outcome value) (v : value) :
  bounded M r → r = Done v → (size_of v ≤ M)%nat.
Proof. intros Hb ->. exact Hb. Qed.

Lemma entries_cell (p : Z) (es : list (value * value)) :
  Value.entries h p = Done es → es = [] ∨ (p ≠ 0 ∧ h !! p = Some (CMap es)).
Proof.
  unfold Value.entries. destruct (p =? 0) eqn:Hz.
  - intros [= <-]. left. reflexivity.
  - destruct (h !! p) as [[x|xs|es']|]; try discriminate. intros [= <-]. right. split; [lia|reflexivity].
Qed.

Lemma backing_cell (p : Z) (xs : list value) :
  Value.backing h p = Done xs → xs = [] ∨ (p ≠ 0 ∧ h !! p = Some (CArr xs)).
Proof.
  unfold Value.backing. destruct (p =? 0) eqn:Hz.
  - intros [= <-]. left. reflexivity.
  - destruct (h !! p) as [[x|xs'|es']|]; try discriminate. intros [= <-]. right. split; [lia|reflexivity].
Qed.

Lemma entries_ends (p : Z) : Value.entries h p ≠ Timeout.
Proof. unfold Value.entries. destruct (p =? 0); [discriminate|]. destruct (h !! p) as [[| |]|]; discriminate. Qed.

Lemma backing_ends (p : Z) : Value.backing h p ≠ Timeout.
Proof. unfold Value.backing. destruct (p =? 0); [discriminate|]. destruct (h !! p) as [[| |]|]; discriminate. Qed.

Lemma assignTo_ends (dst : rtype) (v : value) (t : rtype) : Value.assignTo dst v t ≠ Timeout.
Proof.
  unfold Value.assignTo.
  repeat first [ discriminate | match goal with |- context [match ?x with _ => _ end] => destruct x end ].
Qed.

Lemma MapIndex_bounded (m key : value) : bounded K (Value.MapIndex h m key).
Proof.
  unfold Value.MapIndex. destruct m as [| | | | | | | | | |t p| | | | | | | |]; try exact I. destruct t; try exact I.
  destruct (Value.TypeOf key); try exact I.
  assert (Hlook : ∀ key', bounded K
            (if Value.hashable key'
             then let* es := Value.entries h p in Done (Value.lookup_key key' es)
             else Fault)).
  { intros key'. destruct (Value.hashable key'); try exact I.
    apply bounded_bind; [apply entries_ends|]. intros es Hes. simpl.
    destruct (lookup_key_elem key' es) as [->|[k Hk]]; [exact K_pos|].
    apply entries_cell in Hes as [->|[_ Hes]]; [inversion Hk|].
    pose proof (entry_size p es k _ Hes Hk). lia. }
  destruct (_ || _); [apply Hlook|].
  apply bounded_bind; [apply assignTo_ends|]. intros key' _. apply Hlook.
Qed.

Lemma probing_bounded (M : nat) (cond : bool) (probe rest : outcome value) :
  bounded M probe → bounded M rest → bounded M (probing cond probe rest).
Proof.
  intros Hp Hr. unfold probing. destruct cond; [|exact Hr].
  destruct probe as [v| | |]; simpl in *; try tauto.
  destruct (Value.IsValid v); [exact Hp|exact Hr].
Qed.

Lemma initial_bounded (M : nat) (probe : outcome value) (rest : value → outcome value) :
  bounded M probe → (∀ v, probe = Done v → bounded M (rest v)) →
  bounded M (let* v := probe in if Value.IsValid v then Done v else rest v).
Proof.
  intros Hp Hr. destruct probe as [v| | |]; simpl in *; try tauto.
  destruct (Value.IsValid v); [exact Hp|apply Hr; reflexivity].
Qed.

Lemma getIntKeyedMapValue_bounded (m : value) (k : Z) : bounded K (getIntKeyedMapValue h m k).
Proof.
  unfold getIntKeyedMapValue. apply initial_bounded; [apply MapIndex_bounded|]. intros v Hv.
  cbv zeta. repeat (apply probing_bounded; [apply MapIndex_bounded|]).
  exact (bounded_Done K _ v (MapIndex_bounded _ _) Hv).
Qed.

Lemma getUintKeyedMapValue_bounded (m : value) (k : Z) : bounded K (getUintKeyedMapValue h m k).
Proof.
  unfold getUintKeyedMapValue. apply initial_bounded; [apply MapIndex_bounded|]. intros v Hv.
  cbv zeta. repeat (apply probing_bounded; [apply MapIndex_bounded|]).
  exact (bounded_Done K _ v (MapIndex_bounded _ _) Hv).
Qed.

Lemma getFloatKeyedMapValue_bounded (m : value) (k : spec_float) :
  bounded K (getFloatKeyedMapValue h m k).
Proof.
  unfold getFloatKeyedMapValue. apply initial_bounded; [apply MapIndex_bounded|]. intros v Hv.
  cbv zeta. repeat (apply probing_bounded; [apply MapIndex_bounded|]).
  exact (bounded_Done K _ v (MapIndex_bounded _ _) Hv).
Qed.

Lemma Elem_ends (v : value) : Value.Elem h v ≠ Timeout.
Proof.
  destruct v; try discriminate. simpl. destruct (ref =? 0); [discriminate|].
  destruct (h !! ref) as [[| |]|]; discriminate.
Qed.

(** A keyed lookup returns, and what it returns is the zero Value or a
    value stored in a cell. *)
Lemma getMapValue_bounded (m k : value) : bounded K (getMapValue h m k).
Proof.
  unfold getMapValue. apply bounded_bind.
  { destruct (Value.Kind k); try discriminate. apply Elem_ends. }
  intros key _. apply initial_bounded; [apply MapIndex_bounded|]. intros v Hv.
  pose proof (bounded_Done K _ v (MapIndex_bounded _ _) Hv) as Hsz.
  destruct key; try exact Hsz; cbv zeta;
    repeat (apply probing_bounded;
            [first [apply getIntKeyedMapValue_bounded | apply getUintKeyedMapValue_bounded]|]);
    first [apply getFloatKeyedMapValue_bounded | exact Hsz].
Qed.

Lemma at_index_elem {A} (xs : list A) (i : Z) (x : A) : Value.at_index xs i = Done x → x ∈ xs.
Proof.
  unfold Value.at_index. destruct (i <? 0); [discriminate|].
  destruct (xs !! Z.to_nat i) eqn:Hl; [|discriminate]. intros [= <-].
  eapply list_elem_of_lookup_2. exact Hl.
Qed.

Lemma at_index_ends {A} (xs : list A) (i : Z) : Value.at_index xs i ≠ Timeout.
Proof. unfold Value.at_index. destruct (i <? 0); [discriminate|]. destruct (xs !! Z.to_nat i); discriminate. Qed.

Lemma Len_ends (v : value) : Value.Len h v ≠ Timeout.
Proof.
  destruct v; try discriminate; simpl.
  - apply bind_ends; [apply backing_ends|discriminate].
  - apply bind_ends; [apply entries_ends|discriminate].
Qed.

Lemma Index_ends (v : value) (i : Z) : Value.Index h v i ≠ Timeout.
Proof.
  destruct v; try discriminate; simpl; try apply at_index_ends.
  apply bind_ends; [apply backing_ends|]. intros. apply at_index_ends.
Qed.

Lemma NumField_ends (v : value) : Value.NumField v ≠ Timeout.
Proof. destruct v; discriminate. Qed.

Lemma Field_ends (v : value) (i : Z) : Value.Field v i ≠ Timeout.
Proof. destruct v; try discriminate. apply at_index_ends. Qed.

Lemma mapRange_ends (v : value) : Value.mapRange h v ≠ Timeout.
Proof. destruct v; try discriminate. apply entries_ends. Qed.

Lemma Pointer_ends (v : value) : Value.Pointer v ≠ Timeout.
Proof. destruct v; discriminate. Qed.

Lemma RegisterPointer_ends (f : gset Z) (v : value) : RegisterPointer f v ≠ Timeout.
Proof. apply bind_ends; [apply Pointer_ends|discriminate]. Qed.

Lemma TypeOf_ends (v : value) : Value.TypeOf v ≠ Timeout.
Proof. destruct v as [| |[]|[]| |[]|[]| | | | | | | | | | | |]; discriminate. Qed.

Lemma Type_Elem_ends (t : rtype) : Value.Type_Elem t ≠ Timeout.
Proof. destruct t; discriminate. Qed.

Lemma Type_ChanDir_ends (t : rtype) : Value.Type_ChanDir t ≠ Timeout.
Proof. destruct t; discriminate. Qed.

Lemma Bool_ends (v : value) : Value.Bool v ≠ Timeout.
Proof. destruct v; discriminate. Qed.

Lemma Int_ends (v : value) : Value.Int v ≠ Timeout.
Proof. destruct v; discriminate. Qed.

Lemma Uint_ends (v : value) : Value.Uint v ≠ Timeout.
Proof. destruct v; discriminate. Qed.

Lemma Float_ends (v : value) : Value.Float v ≠ Timeout.
Proof. destruct v; discriminate. Qed.

Lemma Complex_ends (v : value) : Value.Complex v ≠ Timeout.
Proof. destruct v; discriminate. Qed.

Lemma UnsafeAddr_ends (v : value) : Value.UnsafeAddr v ≠ Timeout.
Proof. discriminate. Qed.

(** An element of the right operand is part of it or comes out of a cell. *)
Lemma Index_size (v : value) (i : Z) (x : value) :
  Value.Index h v i = Done x → (size_of x ≤ size_of v ∨ size_of x < K)%nat.
Proof.
  destruct v; try discriminate; intros Hi; cbn [Value.Index] in Hi.
  - apply at_index_elem in Hi. apply list_elem_of_fmap in Hi as (c & -> & _).
    left. cbn. lia.
  - apply at_index_elem, sizes_elem in Hi. left. rewrite size_of_array. lia.
  - apply bind_Done in Hi as (xs & Hxs & Hi). apply at_index_elem in Hi.
    apply backing_cell in Hxs as [->|[_ Hxs]]; [inversion Hi|].
    right. eapply element_size; eassumption.
Qed.

Lemma Field_size (v : value) (i : Z) (x : value) :
  Value.Field v i = Done x → (size_of x < size_of v)%nat.
Proof.
  destruct v; try discriminate; intros Hi; cbn [Value.Field] in Hi.
  apply at_index_elem, sizes_elem in Hi. rewrite size_of_struct. lia.
Qed.

Lemma unvisited_dom (f : gset Z) : (unvisited h f ≤ size (dom h))%nat.
Proof. apply subseteq_size. set_solver. Qed.

End Termination.

(** *** What the printing visits *)

Lemma each_ext (print print' : value → outcome string) (xs : list value) :
  (∀ x, print x = print' x) → fmt.each print xs = fmt.each print' xs.
Proof.
  intros Hp. induction xs as [|x xs IH]; simpl; [reflexivity|]. rewrite Hp, IH. reflexivity.
Qed.

Lemma entries_ext (print print' : value → outcome string) (es : list (value * value)) :
  (∀ x, print x = print' x) → fmt.entries print es = fmt.entries print' es.
Proof.
  intros Hp. induction es as [|[k x] es IH]; simpl; [reflexivity|]. rewrite !Hp, IH. reflexivity.
Qed.

Lemma each_Done (print : value → outcome string) (xs : list value) (ss : list string) :
  fmt.each print xs = Done ss → ∀ x, x ∈ xs → ∃ s, print x = Done s.
Proof.
  revert ss. induction xs as [|y xs IH]; intros ss Hrun x Hx; [inversion Hx|].
  simpl in Hrun. apply bind_Done in Hrun as (s & Hs & Hrun).
  apply bind_Done in Hrun as (ss' & Hss & _).
  apply elem_of_cons in Hx as [->|Hx]; [eauto|]. eapply IH; eassumption.
Qed.

Lemma entries_Done (print : value → outcome string) (es : list (value * value))
    (ss : list string) :
  fmt.entries print es = Done ss → ∀ k x, (k, x) ∈ es → ∃ s, print x = Done s.
Proof.
  revert ss. induction es as [|[k0 x0] es IH]; intros ss Hrun k x Hx; [inversion Hx|].
  simpl in Hrun. apply bind_Done in Hrun as (sk & _ & Hrun).
  apply bind_Done in Hrun as (sx & Hsx & Hrun).
  apply bind_Done in Hrun as (ss' & Hss & _).
  apply elem_of_cons in Hx as [[= -> ->]|Hx]; [eauto|]. eapply IH; eassumption.
Qed.

(** Below the top level the depth plays no part. *)
Lemma printValue_depth (h : heap) (n : nat) :
  ∀ d d' v, fmt.printValue h n (S d) v = fmt.printValue h n (S d') v.
Proof.
  induction n as [|n IH]; intros d d' v; [reflexivity|].
  rewrite !printValue_unfold. cbv zeta.
  destruct v as [| |k z|k z| |k f|k re im| |t xs|t p|t p|t p|x|t fs| | | | |];
    try reflexivity.
  - rewrite (each_ext _ _ xs (IH (S d) (S d'))). reflexivity.
  - destruct (Value.backing h p) as [xs| | |]; cbn [bind]; try reflexivity.
    rewrite (each_ext _ _ xs (IH (S d) (S d'))). reflexivity.
  - destruct (Value.entries h p) as [es| | |]; cbn [bind]; try reflexivity.
    rewrite (entries_ext _ _ es (IH (S d) (S d'))). reflexivity.
  - rewrite (IH (S d) (S d')). reflexivity.
  - rewrite (each_ext _ _ _ (IH (S d) (S d'))). reflexivity.
Qed.

(** At the top level it matters for a pointer and for the zero Value. *)
Lemma printValue_top (h : heap) (n : nat) (v : value) :
  concrete v = true → Value.IsValid v = true →
  fmt.printValue h n 0 v = fmt.printValue h n 1 v.
Proof.
  intros Hc Hv. destruct n as [|n]; [reflexivity|].
  rewrite !printValue_unfold. cbv zeta.
  destruct v as [| |k z|k z| |k f|k re im| |t xs|t p|t p|t p|x|t fs| | | | |];
    try reflexivity; try discriminate.
  - rewrite (each_ext _ _ xs (printValue_depth h n 0 1)). reflexivity.
  - destruct (Value.backing h p) as [xs| | |]; cbn [bind]; try reflexivity.
    rewrite (each_ext _ _ xs (printValue_depth h n 0 1)). reflexivity.
  - destruct (Value.entries h p) as [es| | |]; cbn [bind]; try reflexivity.
    rewrite (entries_ext _ _ es (printValue_depth h n 0 1)). reflexivity.
  - rewrite (each_ext _ _ _ (printValue_depth h n 0 1)). reflexivity.
Qed.

Lemma big_free_array t xs : big_free (VArray t xs) = forallb big_free xs.
Proof. simpl. induction xs as [|x xs IH]; simpl; [reflexivity|]. rewrite IH. reflexivity. Qed.

Lemma big_free_struct t xs : big_free (VStruct t xs) = forallb big_free xs.
Proof. simpl. induction xs as [|x xs IH]; simpl; [reflexivity|]. rewrite IH. reflexivity. Qed.

Lemma heap_cell_values (Q : value → bool) (h : heap) (p : Z) (c : cell) (x : value) :
  forallb (fun c => forallb Q (cell_values c)) (map_to_list h).*2 = true →
  h !! p = Some c → x ∈ cell_values c → Q x = true.
Proof.
  intros Hall Hp Hx.
  assert (Hc : forallb Q (cell_values c) = true).
  { apply (forallb_elem _ _ c Hall). apply list_elem_of_fmap. exists (p, c).
    split; [reflexivity|]. apply elem_of_map_to_list. exact Hp. }
  exact (forallb_elem _ _ x Hc Hx).
Qed.

Section Safe.

Variable h : heap.
Local Abbreviation K := (heap_bound h).

Lemma prints_Done (P : nat) (v : value) :
  prints h P v = true → ∃ s, fmt.printValue h P 1 v = Done s.
Proof. unfold prints. destruct (fmt.printValue h P 1 v); try discriminate. eauto. Qed.

Lemma prints_pos (P : nat) (v : value) : prints h P v = true → (1 ≤ P)%nat.
Proof. unfold prints. destruct P; [discriminate|lia]. Qed.

(** What is printed one level below prints on its own. *)
Lemma prints_child (P : nat) (n d : nat) (x : value) (s : string) :
  fmt.printValue h n (S d) x = Done s → (n ≤ P)%nat → prints h P x = true.
Proof.
  intros Hx Hn. unfold prints. rewrite (printValue_depth h n d 0) in Hx.
  rewrite (printValue_more_fuel h n P 1 x _ Hx); [reflexivity|discriminate|exact Hn].
Qed.

Lemma prints_invalid (P : nat) : (1 ≤ P)%nat → prints h P VInvalid = true.
Proof. unfold prints. destruct P; [lia|reflexivity]. Qed.

Lemma prints_interface (P : nat) (d : value) : prints h P (VInterface d) = true → prints h P d = true.
Proof.
  intros Hp. pose proof (prints_pos _ _ Hp) as Hpos.
  apply prints_Done in Hp as (s & Hs). destruct P as [|n]; [lia|].
  rewrite printValue_unfold in Hs. cbv zeta in Hs.
  destruct (Value.IsValid d) eqn:Hv.
  - apply (prints_child (S n) n 1 d s Hs). lia.
  - destruct d; try discriminate. reflexivity.
Qed.

Lemma prints_element (P : nat) (t : rtype) (xs : list value) (x : value) :
  prints h P (VArray t xs) = true → x ∈ xs → prints h P x = true.
Proof.
  intros Hp Hx. apply prints_Done in Hp as (s & Hs). destruct P as [|n]; [discriminate|].
  rewrite printValue_unfold in Hs. cbv zeta in Hs.
  apply bind_Done in Hs as (ss & Hss & _).
  destruct (each_Done _ _ _ Hss x Hx) as (s' & Hs').
  apply (prints_child (S n) n 1 x s' Hs'). lia.
Qed.

Lemma prints_field (P : nat) (t : rtype) (fs : list value) (x : value) :
  prints h P (VStruct t fs) = true → x ∈ fs → prints h P x = true.
Proof.
  intros Hp Hx. apply prints_Done in Hp as (s & Hs). destruct P as [|n]; [discriminate|].
  rewrite printValue_unfold in Hs. cbv zeta in Hs.
  apply bind_Done in Hs as (ss & Hss & _).
  assert (Hg : fmt.getField x ∈ fmt.getField <$> fs) by (apply list_elem_of_fmap; eauto).
  destruct (each_Done _ _ _ Hss _ Hg) as (s' & Hs').
  assert (Hself : fmt.getField x = x → prints h (S n) x = true).
  { intros He. rewrite He in Hs'. apply (prints_child (S n) n 1 x s' Hs'). lia. }
  destruct x as [| | | | | | | | | | | |d| | | | | |]; try (apply Hself; reflexivity).
  destruct d; try (apply Hself; reflexivity);
    (unfold prints; rewrite printValue_unfold; cbv zeta; cbn [Value.IsValid];
     cbn [fmt.getField] in Hs'; rewrite Hs'; reflexivity).
Qed.

Lemma prints_cell (P : nat) (p : Z) (c : cell) (x : value) :
  printable_heap h P = true →
  h !! p = Some c → x ∈ cell_values c → prints h P x = true.
Proof. exact (heap_cell_values (prints h P) h p c x). Qed.

Lemma prints_Elem (P : nat) (v x : value) :
  printable_heap h P = true →
  prints h P v = true → Value.Elem h v = Done x → prints h P x = true.
Proof.
  intros Hheap Hp He. destruct v; try discriminate.
  - cbn [Value.Elem] in He. destruct (ref =? 0).
    + injection He as <-. apply prints_invalid. exact (prints_pos _ _ Hp).
    + destruct (h !! ref) as [[y|ys|es]|] eqn:Hc; try discriminate. injection He as <-.
      apply (prints_cell P ref _ y Hheap Hc). left.
  - injection He as <-. apply prints_interface. exact Hp.
Qed.

Lemma prints_Index (P : nat) (v : value) (i : Z) (x : value) :
  printable_heap h P = true →
  prints h P v = true → Value.Index h v i = Done x → prints h P x = true.
Proof.
  intros Hheap Hp Hi. destruct v; try discriminate; cbn [Value.Index] in Hi.
  - apply at_index_elem in Hi. apply list_elem_of_fmap in Hi as (c & -> & _).
    unfold prints, Value.byte_of. pose proof (prints_pos _ _ Hp). destruct P; [lia|reflexivity].
  - apply at_index_elem in Hi. eapply prints_element; eassumption.
  - apply bind_Done in Hi as (xs & Hxs & Hi). apply at_index_elem in Hi.
    apply backing_cell in Hxs as [->|[_ Hxs]]; [inversion Hi|].
    apply (prints_cell P data _ x Hheap Hxs). exact Hi.
Qed.

Lemma prints_Field (P : nat) (v : value) (i : Z) (x : value) :
  prints h P v = true → Value.Field v i = Done x → prints h P x = true.
Proof.
  intros Hp Hi. destruct v; try discriminate; cbn [Value.Field] in Hi.
  apply at_index_elem in Hi. eapply prints_field; eassumption.
Qed.

Lemma prints_lookup (P : nat) (m k x : value) :
  printable_heap h P = true →
  prints h P m = true → getMapValue h m k = Done x → prints h P x = true.
Proof.
  intros Hheap Hp Hx.
  pose proof (yields_Done _ _ x (getMapValue_stored h m k) Hx) as [->|(t & p & es & key & -> & Hes & Hin)].
  - apply prints_invalid. exact (prints_pos _ _ Hp).
  - apply entries_cell in Hes as [->|[_ Hes]]; [inversion Hin|].
    apply (prints_cell P p _ x Hheap Hes). cbn [cell_values].
    apply list_elem_of_fmap. exists (key, x). split; [reflexivity|exact Hin].
Qed.

(** Where [numericToString] starts a printing, the printing returns. *)
Lemma numericToString_ends (P : nat) (n : nat) (b : value) :
  prints h P b = true → concrete b = true → Value.IsValid b = true → (P ≤ n)%nat →
  numericToString h n b ≠ Timeout.
Proof.
  intros Hp Hc Hv Hn. apply prints_Done in Hp as (s & Hs).
  assert (Hrun : Sprint_v h n b = Done s).
  { unfold Sprint_v. rewrite (printValue_top h n b Hc Hv).
    apply (printValue_more_fuel h P n 1 b _ Hs); [discriminate|exact Hn]. }
  unfold numericToString. destruct b; try discriminate; rewrite Hrun; discriminate.
Qed.

End Safe.

Section Free.

Variable h : heap.
Hypothesis Hheap : big_free_heap h = true.

Lemma big_free_cell (p : Z) (c : cell) (x : value) :
  h !! p = Some c → x ∈ cell_values c → big_free x = true.
Proof. exact (heap_cell_values big_free h p c x Hheap). Qed.

Lemma big_free_Elem (v x : value) :
  big_free v = true → Value.Elem h v = Done x → big_free x = true.
Proof.
  intros Hp He. destruct v; try discriminate.
  - cbn [Value.Elem] in He. destruct (ref =? 0).
    + injection He as <-. reflexivity.
    + destruct (h !! ref) as [[y|ys|es]|] eqn:Hc; try discriminate. injection He as <-.
      apply (big_free_cell ref _ y Hc). left.
  - injection He as <-. exact Hp.
Qed.

Lemma big_free_Index (v : value) (i : Z) (x : value) :
  big_free v = true → Value.Index h v i = Done x → big_free x = true.
Proof.
  intros Hp Hi. destruct v; try discriminate; cbn [Value.Index] in Hi.
  - apply at_index_elem in Hi. apply list_elem_of_fmap in Hi as (c & -> & _). reflexivity.
  - apply at_index_elem in Hi. rewrite big_free_array in Hp. exact (forallb_elem _ _ x Hp Hi).
  - apply bind_Done in Hi as (xs & Hxs & Hi). apply at_index_elem in Hi.
    apply backing_cell in Hxs as [->|[_ Hxs]]; [inversion Hi|].
    apply (big_free_cell data _ x Hxs). exact Hi.
Qed.

Lemma big_free_Field (v : value) (i : Z) (x : value) :
  big_free v = true → Value.Field v i = Done x → big_free x = true.
Proof.
  intros Hp Hi. destruct v; try discriminate; cbn [Value.Field] in Hi.
  apply at_index_elem in Hi. rewrite big_free_struct in Hp. exact (forallb_elem _ _ x Hp Hi).
Qed.

Lemma big_free_mapRange (v : value) (es : list (value * value)) (kv : value * value) :
  Value.mapRange h v = Done es → kv ∈ es → big_free kv.2 = true.
Proof.
  intros Hes Hin. destruct v; try discriminate. cbn [Value.mapRange] in Hes.
  apply entries_cell in Hes as [->|[_ Hes]]; [inversion Hin|].
  apply (big_free_cell ref _ _ Hes). cbn [cell_values].
  apply list_elem_of_fmap. exists kv. split; [reflexivity|exact Hin].
Qed.

End Free.

(** A walk keeps what each of its steps keeps. *)
Lemma drillDown_keeps (h : heap) (Q : value → Prop) (n : nat) :
  (∀ v x, Q v → Value.Elem h v = Done x → Q x) →
  ∀ v finder v' dup finder',
    Q v → drillDown h n finder v = Done (v', dup, finder') → Q v'.
Proof.
  intros Hstep. induction n as [|n IH]; intros v finder v' dup finder' Hq Hd; [discriminate|].
  destruct (concrete v) eqn:Hc.
  - rewrite drillDown_concrete in Hd by exact Hc. injection Hd as <- <- <-. exact Hq.
  - destruct v; try discriminate.
    + rewrite drillDown_pointer in Hd. destruct (bool_decide (ref ∈ finder)).
      * injection Hd as <- <- <-. exact Hq.
      * apply bind_Done in Hd as (x & Hx & Hd). eapply IH; [|exact Hd]. eapply Hstep; eassumption.
    + rewrite drillDown_interface in Hd. eapply IH; [|exact Hd].
      apply (Hstep _ _ Hq). reflexivity.
Qed.

Section Ends.

Variable h : heap.
Variable P : nat.

Local Abbreviation K := (heap_bound h).

Ltac accessor_ends :=
  first [ apply Bool_ends | apply Int_ends | apply Uint_ends | apply Float_ends
        | apply Complex_ends | apply TypeOf_ends | apply Type_Elem_ends
        | apply Type_ChanDir_ends | apply Pointer_ends | apply UnsafeAddr_ends
        | apply Len_ends | apply Index_ends | apply NumField_ends | apply Field_ends
        | apply mapRange_ends | apply RegisterPointer_ends ].

Ltac ends :=
  repeat first
    [ discriminate
    | apply bind_ends; [accessor_ends | intros ? _]
    | match goal with |- (if ?b then _ else _) ≠ _ => destruct b end ].

Lemma print_safe_step (a b x y : value) :
  print_safe h P a b →
  (big_free_heap h = true → big_free a = true → big_free x = true) →
  (printable_heap h P = true → prints h P b = true → prints h P y = true) →
  print_safe h P x y.
Proof.
  intros [[Hh Ha]|[Hh Hb]] Hl Hr; [left|right]; split; auto.
Qed.

Lemma print_safe_walk (n m : nat) (a b a' b' : value) (f g f' g' : gset Z) (da db : bool) :
  print_safe h P a b →
  drillDown h n f a = Done (a', da, f') →
  drillDown h m g b = Done (b', db, g') →
  print_safe h P a' b'.
Proof.
  intros Hs Ha Hb. apply (print_safe_step a b); [exact Hs| |].
  - intros Hh Hfree.
    apply (drillDown_keeps h (fun v => big_free v = true) n (big_free_Elem h Hh) _ _ _ _ _ Hfree Ha).
  - intros Hh Hp.
    apply (drillDown_keeps h (fun v => prints h P v = true) m
             (fun v x => prints_Elem h P v x Hh) _ _ _ _ _ Hp Hb).
Qed.

(** Every comparison ends: the fuel it needs is bounded by the potential
    of the left operand, the size of the right one, the heap and the
    levels of the printing. *)
Lemma areObjectsEquivalent_ends (M : nat) (HM : (K ≤ M)%nat) (n : nat) :
  ∀ a b c, print_safe h P a b → (size_of b ≤ M)%nat →
    (potential h a (aFinder c) + M + size (dom h) * K + P < n)%nat →
    areObjectsEquivalent h n a b c ≠ Timeout.
Proof.
  induction n as [|n IH]; intros a b c Hsafe Hb Hn; [lia|].
  rewrite areObjectsEquivalent_unfold.
  apply bind_ends.
  { apply drillDown_ends. lia. }
  intros [[a' da] fa] Ha.
  apply bind_ends.
  { apply drillDown_ends. unfold potential.
    pose proof (unvisited_dom h (bFinder c)).
    assert (unvisited h (bFinder c) * K ≤ size (dom h) * K)%nat by (apply Nat.mul_le_mono_r; auto).
    lia. }
  intros [[b' db] fb] Hb'.
  cbv zeta.
  pose proof (print_safe_walk _ _ _ _ _ _ _ _ _ _ _ _ Hsafe Ha Hb') as Hsafe'.
  destruct (drillDown_bounds h _ _ _ _ _ _ Ha) as (Hfa & Hpot & _).
  destruct (drillDown_bounds h _ _ _ _ _ _ Hb') as (_ & _ & Hsz).
  assert (Hb'M : (size_of b' ≤ M)%nat) by (destruct Hsz; lia).
  destruct (da || db) eqn:Hdup; [discriminate|].
  apply orb_false_iff in Hdup as [-> ->].
  pose proof (drillDown_result h _ _ _ _ _ _ Hb') as Hcb. cbv iota in Hcb.
  destruct (negb _ || negb _) eqn:Hvalid; [discriminate|].
  apply orb_false_iff in Hvalid as [_ Hvb]. apply negb_false_iff in Hvb.
  assert (Hrec : ∀ x y c1, print_safe h P x y → (size_of y ≤ M)%nat →
            (potential h x (aFinder c1) < potential h a' fa)%nat →
            areObjectsEquivalent h n x y c1 ≠ Timeout).
  { intros x y c1 Hxy Hy Hx. apply IH; [exact Hxy|exact Hy|lia]. }
  assert (Hinl : ∀ x c1, fa ⊆ aFinder c1 → (size_of x < size_of a')%nat →
            (potential h x (aFinder c1) < potential h a' fa)%nat).
  { intros x c1 Hc1 Hx. unfold potential.
    pose proof (unvisited_mono h fa (aFinder c1) Hc1).
    assert (unvisited h (aFinder c1) * K ≤ unvisited h fa * K)%nat by (apply Nat.mul_le_mono_r; auto).
    lia. }
  assert (Hcell : ∀ p x c1, p ∈ dom h → p ∉ fa → {[p]} ∪ fa ⊆ aFinder c1 → (size_of x < K)%nat →
            (potential h x (aFinder c1) < potential h a' fa)%nat).
  { intros p x c1 Hd Hp Hc1 Hx. unfold potential.
    pose proof (unvisited_mono h _ (aFinder c1) Hc1).
    pose proof (unvisited_register h fa p Hd Hp).
    pose proof (potential_step h (unvisited h fa) (unvisited h (aFinder c1)) (size_of x)).
    lia. }
  assert (Harr : ∀ (F : gset Z) c0, F ⊆ aFinder c0 →
            (∀ i x c1, Value.Index h a' i = Done x → F ⊆ aFinder c1 →
                       (potential h x (aFinder c1) < potential h a' fa)%nat) →
            areArraysOrSlicesEquivalent h (areObjectsEquivalent h n) a' b' c0 ≠ Timeout).
  { intros F c0 Hc0 Hel. unfold areArraysOrSlicesEquivalent.
    apply bind_ends; [apply Len_ends|]. intros la _.
    apply bind_ends; [apply Len_ends|]. intros lb _.
    destruct (negb (la =? lb)); [discriminate|].
    apply (forEach_ends (fun c1 => F ⊆ aFinder c1)); [| |exact Hc0].
    - intros i c1 r c1' _ Hc1 Hx.
      apply bind_Done in Hx as (ai & _ & Hx). apply bind_Done in Hx as (bi & _ & Hx).
      apply areObjectsEquivalent_grows in Hx. etrans; eassumption.
    - intros i c1 _ Hc1.
      apply bind_ends; [apply Index_ends|]. intros ai Hai.
      apply bind_ends; [apply Index_ends|]. intros bi Hbi.
      apply Hrec; [| |eapply Hel; eassumption].
      + apply (print_safe_step a' b'); [exact Hsafe'| |].
        * intros Hh Hfree. exact (big_free_Index h Hh _ _ _ Hfree Hai).
        * intros Hh Hp. exact (prints_Index h P _ _ _ Hh Hp Hbi).
      + destruct (Index_size h _ _ _ Hbi); lia. }
  assert (Hmap : ∀ (F : gset Z) c0, F ⊆ aFinder c0 →
            (∀ es kv c1, Value.mapRange h a' = Done es → kv ∈ es → F ⊆ aFinder c1 →
                       (potential h kv.2 (aFinder c1) < potential h a' fa)%nat) →
            areMapsEquivalent h (areObjectsEquivalent h n) a' b' c0 ≠ Timeout).
  { intros F c0 Hc0 Hel. unfold areMapsEquivalent.
    apply bind_ends; [apply Len_ends|]. intros la _.
    apply bind_ends; [apply Len_ends|]. intros lb _.
    destruct (negb (la =? lb)); [discriminate|].
    apply bind_ends; [apply mapRange_ends|]. intros es Hes.
    apply (forEach_ends (fun c1 => F ⊆ aFinder c1)); [| |exact Hc0].
    - intros kv c1 r c1' _ Hc1 Hx. cbv zeta in Hx.
      apply bind_Done in Hx as (bv & _ & Hx).
      apply areObjectsEquivalent_grows in Hx. etrans; eassumption.
    - intros kv c1 Hkv Hc1. cbv zeta.
      pose proof (getMapValue_bounded h b' kv.1) as Hbv.
      apply bind_ends; [exact (bounded_ends _ _ Hbv)|]. intros bv Hbv'.
      apply Hrec; [| |eapply Hel; eassumption].
      + apply (print_safe_step a' b'); [exact Hsafe'| |].
        * intros Hh _. exact (big_free_mapRange h Hh _ _ _ Hes Hkv).
        * intros Hh Hp. exact (prints_lookup h P _ _ _ Hh Hp Hbv').
      + pose proof (bounded_Done _ _ _ Hbv Hbv'). lia. }
  destruct (Value.Kind a') eqn:Hk.
  all: try solve [ends].
  all: destruct a' as [| |[]|[]| |[]|[]| |t xs|t p|t p| | |t fs|z|prec z| | |]; try discriminate Hk.
  - (* Array *)
    apply (Harr fa); [reflexivity|]. intros i x c1 Hi Hc1. apply Hinl; [exact Hc1|].
    cbn [Value.Index] in Hi. apply at_index_elem, sizes_elem in Hi.
    rewrite size_of_array. lia.
  - (* Map *)
    unfold RegisterPointer. cbn [Value.Pointer bind aFinder bFinder].
    destruct (bool_decide (p ∈ fa)) eqn:Hin; [discriminate|].
    apply bool_decide_eq_false in Hin.
    apply (Hmap ({[p]} ∪ fa)); [reflexivity|]. intros es [k v] c1 Hes Hkv Hc1.
    cbn [Value.mapRange] in Hes.
    apply entries_cell in Hes as [->|[_ Hes]]; [inversion Hkv|].
    apply (Hcell p); [apply elem_of_dom; eauto|exact Hin|exact Hc1|].
    eapply entry_size; eassumption.
  - (* Slice *)
    unfold RegisterPointer. cbn [Value.Pointer bind aFinder bFinder].
    destruct (bool_decide (p ∈ fa)) eqn:Hin; [discriminate|].
    apply bool_decide_eq_false in Hin.
    apply (Harr ({[p]} ∪ fa)); [reflexivity|]. intros i x c1 Hi Hc1.
    cbn [Value.Index] in Hi. apply bind_Done in Hi as (xs & Hxs & Hi).
    apply at_index_elem in Hi.
    apply backing_cell in Hxs as [->|[_ Hxs]]; [inversion Hi|].
    apply (Hcell p); [apply elem_of_dom; eauto|exact Hin|exact Hc1|].
    eapply element_size; eassumption.
  - (* Struct *)
    unfold areStructsEquivalent.
    apply bind_ends; [apply NumField_ends|]. intros la _.
    apply bind_ends; [apply NumField_ends|]. intros lb _.
    destruct (negb (la =? lb)); [discriminate|].
    apply (forEach_ends (fun c1 => fa ⊆ aFinder c1)); [| |reflexivity].
    + intros i c1 r c1' _ Hc1 Hx.
      apply bind_Done in Hx as (ai & _ & Hx). apply bind_Done in Hx as (bi & _ & Hx).
      apply areObjectsEquivalent_grows in Hx. etrans; eassumption.
    + intros i c1 _ Hc1.
      apply bind_ends; [apply Field_ends|]. intros ai Hai.
      apply bind_ends; [apply Field_ends|]. intros bi Hbi.
      apply Hrec; [| |apply Hinl; [exact Hc1|exact (Field_size _ _ _ Hai)]].
      * apply (print_safe_step (VStruct t fs) b'); [exact Hsafe'| |].
        -- intros _ Hfree. exact (big_free_Field _ _ _ Hfree Hai).
        -- intros _ Hp. exact (prints_Field h P _ _ _ Hp Hbi).
      * pose proof (Field_size _ _ _ Hbi). lia.
  - (* big.Int: the left side holds a big number, so the right side prints *)
    destruct Hsafe' as [[_ Hfree]|[Hh Hp]]; [discriminate|].
    unfold areStructsEquivalent, isEquivalentToBigInt.
    apply bind_ends; [|discriminate].
    apply bind_ends; [|discriminate].
    apply (numericToString_ends h P); [exact Hp|exact Hcb|exact Hvb|lia].
  - (* big.Float *)
    destruct Hsafe' as [[_ Hfree]|[Hh Hp]]; [discriminate|].
    unfold areStructsEquivalent, isEquivalentToBigFloat.
    apply bind_ends; [|discriminate].
    apply bind_ends; [|discriminate].
    apply (numericToString_ends h P); [exact Hp|exact Hcb|exact Hvb|lia].
Qed.

End Ends.

Theorem areObjectsEquivalent_terminates (h : heap) (P : nat) (a b : value) (n : nat) :
  print_safe h P a b → (enough_fuel h a b + P ≤ n)%nat →
  areObjectsEquivalent h n a b newComparator ≠ Timeout.
Proof.
  intros Hsafe Hn.
  apply (areObjectsEquivalent_ends h P (Nat.max (size_of b) (heap_bound h))); [lia|exact Hsafe|lia|].
  unfold enough_fuel in Hn. cbn [aFinder newComparator]. lia.
Qed.

(** ** The entry point and faults *)

Lemma IsEquivalent_returns (fuel : nat) (h : heap) (a b : value) (r : bool) (c : comparator) :
  areObjectsEquivalent h fuel a b newComparator = Done (r, c) →
  IsEquivalent fuel h a b = Some r.
Proof.
  intros Hr. unfold IsEquivalent.
  destruct (negb (Value.IsValid a) && negb (Value.IsValid b)) eqn:Hnil; [|rewrite Hr; reflexivity].
  destruct a; try discriminate. destruct b; try discriminate.
  destruct fuel as [|n]; [discriminate|]. simpl in Hr. congruence.
Qed.

Lemma IsEquivalent_faulted (fuel : nat) (h : heap) (a b : value) :
  areObjectsEquivalent h fuel a b newComparator = Fault → IsEquivalent fuel h a b = Some false.
Proof.
  intros Hf. unfold IsEquivalent.
  destruct (negb (Value.IsValid a) && negb (Value.IsValid b)) eqn:Hnil; [|rewrite Hf; reflexivity].
  destruct a; try discriminate. destruct b; try discriminate.
  destruct fuel as [|n]; discriminate.
Qed.

(** The printing of a sequence that holds itself never returns. *)
Lemma printValue_self (n : nat) :
  ∀ depth, fmt.printValue big_self_heap n depth (VInterface self_b) = Timeout
           ∧ fmt.printValue big_self_heap n depth self_b = Timeout.
Proof.
  induction n as [|n IH]; intros depth; [split; reflexivity|].
  destruct (IH (S depth)) as [IHi IHs]. split.
  - rewrite printValue_unfold. cbv zeta. cbn [Value.IsValid self_b]. exact IHs.
  - rewrite printValue_unfold. cbv zeta. unfold self_b.
    change (Value.backing big_self_heap 2) with (Done [VInterface self_b]).
    cbn [bind fmt.each]. rewrite IHi. reflexivity.
Qed.

(** C3, evaluated on the source: [IsEquivalent(big.NewInt(1), s)] with
    [s[0] = s] never returns. [numericToString] hands [s] to
    [fmt.Sprintf], whose walk of the sequence does not end, whatever the
    fuel; no fault is raised that the [recover] of the entry point could
    turn into [false] (Go ends the program when the stack is exhausted).
    With the operands exchanged, and against a sequence that holds
    nothing, the fault or the mismatch gives [false]. *)
Theorem big_number_against_cycle_never_returns (fuel : nat) :
  Sprint_v big_self_heap fuel self_b = Timeout
  ∧ areObjectsEquivalent big_self_heap fuel big_one self_b newComparator = Timeout
  ∧ IsEquivalent fuel big_self_heap big_one self_b = None
  ∧ IsEquivalent (3 + fuel) big_self_heap self_b big_one = Some false
  ∧ IsEquivalent (3 + fuel) big_self_heap big_one (VSlice (TSlice TInterface) 0) = Some false.
Proof.
  split; [apply printValue_self|].
  assert (Hrun : areObjectsEquivalent big_self_heap fuel big_one self_b newComparator
                 = Timeout).
  { destruct fuel as [|[|n]]; [reflexivity|reflexivity|].
    rewrite areObjectsEquivalent_unfold. unfold big_one. rewrite drillDown_pointer.
    cbn [aFinder bFinder newComparator].
    rewrite bool_decide_eq_false_2 by set_solver.
    change (Value.Elem big_self_heap (VPtr (TPtr bigIntType) 3)) with (Done (VBigInt 1)).
    cbn [bind]. rewrite drillDown_concrete by reflexivity. cbn [bind].
    rewrite drillDown_concrete by reflexivity. cbn [bind orb Value.IsValid negb self_b].
    cbv zeta. cbn [Value.Kind]. unfold areStructsEquivalent, isEquivalentToBigInt, numericToString.
    rewrite (proj2 (printValue_self (S (S n)) 0 : _ ∧ Sprint_v _ _ _ = _)). reflexivity. }
  split; [exact Hrun|]. split; [|split].
  - unfold IsEquivalent. cbn [Value.IsValid big_one self_b negb andb].
    rewrite Hrun. reflexivity.
  - apply (IsEquivalent_more_fuel 3); [vm_compute; reflexivity|lia].
  - apply (IsEquivalent_more_fuel 3); [vm_compute; reflexivity|lia].
Qed.

(** ** Absent values *)

Section Absent.

Variable h : heap.

(** The comparison once both operands are drilled down and neither walk
    flagged a duplicate, up to the test on validity. *)
Lemma areObjectsEquivalent_invalid (n : nat) (a b a' b' : value) (c : comparator)
    (fa fb : gset Z) :
  drillDown h (S n) (aFinder c) a = Done (a', false, fa) →
  drillDown h (S n) (bFinder c) b = Done (b', false, fb) →
  Value.IsValid a' = false ∨ Value.IsValid b' = false →
  areObjectsEquivalent h (S n) a b c =
    Done (negb (Value.IsValid a') && negb (Value.IsValid b'),
          {| aFinder := fa; bFinder := fb |}).
Proof.
  intros Ha Hb Hv. rewrite areObjectsEquivalent_unfold, Ha. cbn [bind].
  rewrite Hb. cbn [bind orb]. cbv zeta.
  destruct Hv as [Hv|Hv]; rewrite Hv; cbn [negb orb andb]; [reflexivity|].
  rewrite orb_true_r. reflexivity.
Qed.

Lemma drillDown_nil_pointer (n : nat) (finder : gset Z) (t : rtype) :
  0 ∉ finder →
  drillDown h (S (S n)) finder (VPtr t 0) = Done (VInvalid, false, {[0]} ∪ finder).
Proof.
  intros Hf. rewrite drillDown_pointer, bool_decide_eq_false_2 by exact Hf. reflexivity.
Qed.

(** Whenever both walks end on an invalid value the result is [true],
    whatever was flagged: a flag is only raised on a pointer. *)
Lemma both_invalid_equivalent (n : nat) (a b a' b' : value) (c : comparator)
    (da db : bool) (fa fb : gset Z) :
  drillDown h (S n) (aFinder c) a = Done (a', da, fa) →
  drillDown h (S n) (bFinder c) b = Done (b', db, fb) →
  Value.IsValid a' = false → Value.IsValid b' = false →
  areObjectsEquivalent h (S n) a b c = Done (true, {| aFinder := fa; bFinder := fb |}).
Proof.
  intros Ha Hb Hva Hvb.
  pose proof (drillDown_invalid_unflagged _ _ _ _ _ _ _ Ha Hva) as ->.
  pose proof (drillDown_invalid_unflagged _ _ _ _ _ _ _ Hb Hvb) as ->.
  rewrite (areObjectsEquivalent_invalid n a b a' b' c fa fb Ha Hb) by auto.
  rewrite Hva, Hvb. reflexivity.
Qed.

(** C9 as stated fails where a walk meets a pointer a second time.
    With [x = &x] the walk of the left operand comes back to the pointer
    and ends on it with its flag raised: the operand it leaves is valid.
    The right operand, nil, is invalid. Exactly one side is invalid
    after drill-down, and the answer is [true], in both orders and with
    any fuel from 3 on: the flag is looked at before validity is. *)
Lemma flagged_pointer_against_nil :
  drillDown own_heap 3 ∅ own_pointer = Done (own_pointer, true, {[1]})
  ∧ Value.IsValid own_pointer = true
  ∧ drillDown own_heap 3 ∅ VInvalid = Done (VInvalid, false, ∅)
  ∧ Value.IsValid VInvalid = false
  ∧ (∀ n, IsEquivalent (3 + n) own_heap own_pointer VInvalid = Some true)
  ∧ (∀ n, IsEquivalent (3 + n) own_heap VInvalid own_pointer = Some true).
Proof.
  split; [vm_compute; reflexivity|]. split; [reflexivity|].
  split; [vm_compute; reflexivity|]. split; [reflexivity|].
  split; intros n; (apply (IsEquivalent_more_fuel 3); [vm_compute; reflexivity|lia]).
Qed.

(** C9, amended: a typed nil pointer is equivalent to nil, in both
    orders. Once both operands are drilled down, two invalid operands
    give [true]; exactly one invalid operand gives [false] provided
    neither walk flagged a pointer met before; and a raised flag gives
    [true] whatever the walks ended on. *)
Theorem nil_pointer_equivalent_to_nil (n : nat) (t : rtype) :
  IsEquivalent (S (S n)) h VInvalid (VPtr t 0) = Some true
  ∧ IsEquivalent (S (S n)) h (VPtr t 0) VInvalid = Some true
  ∧ (∀ (a b a' b' : value) (c : comparator) (fa fb : gset Z),
       drillDown h (S n) (aFinder c) a = Done (a', false, fa) →
       drillDown h (S n) (bFinder c) b = Done (b', false, fb) →
       (Value.IsValid a' = false → Value.IsValid b' = false →
        areObjectsEquivalent h (S n) a b c = Done (true, {| aFinder := fa; bFinder := fb |}))
       ∧ (Value.IsValid a' ≠ Value.IsValid b' →
          areObjectsEquivalent h (S n) a b c = Done (false, {| aFinder := fa; bFinder := fb |})))
  ∧ (∀ (a b a' b' : value) (c : comparator) (da db : bool) (fa fb : gset Z),
       drillDown h (S n) (aFinder c) a = Done (a', da, fa) →
       drillDown h (S n) (bFinder c) b = Done (b', db, fb) →
       (Value.IsValid a' = false → Value.IsValid b' = false →
        areObjectsEquivalent h (S n) a b c = Done (true, {| aFinder := fa; bFinder := fb |}))
       ∧ (da || db = true →
          areObjectsEquivalent h (S n) a b c = Done (true, {| aFinder := fa; bFinder := fb |}))).
Proof.
  split; [|split; [|split]].
  - apply (IsEquivalent_returns _ _ _ _ _ {| aFinder := ∅; bFinder := {[0]} ∪ ∅ |}).
    rewrite (areObjectsEquivalent_invalid (S n) VInvalid (VPtr t 0) VInvalid VInvalid
               newComparator ∅ ({[0]} ∪ ∅));
      [reflexivity | reflexivity | apply drillDown_nil_pointer; set_solver | left; reflexivity].
  - apply (IsEquivalent_returns _ _ _ _ _ {| aFinder := {[0]} ∪ ∅; bFinder := ∅ |}).
    rewrite (areObjectsEquivalent_invalid (S n) (VPtr t 0) VInvalid VInvalid VInvalid
               newComparator ({[0]} ∪ ∅) ∅);
      [reflexivity | apply drillDown_nil_pointer; set_solver | reflexivity | left; reflexivity].
  - intros a b a' b' c fa fb Ha Hb. split.
    + intros Hva Hvb.
      rewrite (areObjectsEquivalent_invalid n a b a' b' c fa fb Ha Hb) by auto.
      rewrite Hva, Hvb. reflexivity.
    + intros Hne.
      rewrite (areObjectsEquivalent_invalid n a b a' b' c fa fb Ha Hb).
      * destruct (Value.IsValid a'), (Value.IsValid b'); simpl; congruence.
      * destruct (Value.IsValid a'), (Value.IsValid b'); auto; congruence.
  - intros a b a' b' c da db fa fb Ha Hb. split.
    + intros Hva Hvb. exact (both_invalid_equivalent n a b a' b' c da db fa fb Ha Hb Hva Hvb).
    + intros Hd. rewrite areObjectsEquivalent_unfold, Ha. cbn [bind].
      rewrite Hb. cbn [bind]. cbv zeta. rewrite Hd. reflexivity.
Qed.

End Absent.

(** The nil pointer to [int] against nil, and a pair with
    exactly one invalid side: nil against the integer 7. *)
Lemma nil_pointer_equivalent_to_nil_witness :
  IsEquivalent 2 ∅ VInvalid (VPtr (TPtr (TNamed "int")) 0) = Some true
  ∧ IsEquivalent 2 ∅ (VPtr (TPtr (TNamed "int")) 0) VInvalid = Some true
  ∧ areObjectsEquivalent ∅ 1 VInvalid (VInt KInt 7) newComparator
    = Done (false, {| aFinder := ∅; bFinder := ∅ |}).
Proof.
  destruct (nil_pointer_equivalent_to_nil ∅ 0 (TPtr (TNamed "int"))) as (H1 & H2 & H3 & _).
  split; [exact H1|]. split; [exact H2|].
  apply (H3 VInvalid (VInt KInt 7) VInvalid (VInt KInt 7) newComparator ∅ ∅).
  - reflexivity.
  - reflexivity.
  - simpl. discriminate.
Defined.

(** ** Empty containers *)

Lemma empty_container_concrete (h : heap) (v : value) :
  empty_container h v → concrete v = true ∧ Value.IsValid v = true ∧ Value.Len h v = Done 0.
Proof.
  destruct v; simpl; try contradiction.
  - intros ->. auto.
  - intros ->. auto.
  - intros ->. auto.
Qed.


Lemma empty_containers_compared (n : nat) (h : heap) (a b : value) (c : comparator) :
  empty_container h a → empty_container h b →
  ∃ c', areObjectsEquivalent h (S n) a b c = Done (true, c').
Proof.
  intros Ha Hb.
  destruct (empty_container_concrete h a Ha) as (Hca & Hva & Hla).
  destruct (empty_container_concrete h b Hb) as (Hcb & Hvb & Hlb).
  rewrite areObjectsEquivalent_unfold.
  rewrite (drillDown_concrete h n _ a Hca). cbn [bind].
  rewrite (drillDown_concrete h n _ b Hcb). cbn [bind orb]. cbv zeta.
  rewrite Hva, Hvb. cbn [negb orb aFinder bFinder].
  destruct a; simpl in Ha; try contradiction; cbn [Value.Kind].
  - unfold areArraysOrSlicesEquivalent.
    rewrite Hla, Hlb. cbn [bind]. simpl. eauto.
  - unfold RegisterPointer. cbn [Value.Pointer bind]. cbv zeta.
    destruct (bool_decide (data ∈ aFinder c)); [eauto|].
    unfold areArraysOrSlicesEquivalent. rewrite Hla, Hlb. cbn [bind]. simpl. eauto.
  - unfold RegisterPointer. cbn [Value.Pointer bind]. cbv zeta.
    destruct (bool_decide (ref ∈ aFinder c)); [eauto|].
    unfold areMapsEquivalent. rewrite Hla, Hlb. cbn [bind]. simpl.
    rewrite Ha. simpl. eauto.
Qed.

(** C8: two empty containers are equivalent, whatever their declared
    element, key and value types, and whether they are sequences or
    mappings; the operands may be the containers themselves or reach them
    through pointers. *)
Theorem empty_containers_equivalent (n : nat) (h : heap) (a b a' b' : value) :
  drills_to h (S n) a a' → drills_to h (S n) b b' →
  empty_container h a' → empty_container h b' →
  IsEquivalent (S n) h a b = Some true.
Proof.
  intros [fa Hda] [fb Hdb] Ha Hb.
  destruct (empty_containers_compared n h a' b' {| aFinder := fa; bFinder := fb |} Ha Hb)
    as [c' Hrun].
  apply (IsEquivalent_returns _ _ _ _ _ c').
  rewrite (areObjectsEquivalent_drilled h n a b a' b' newComparator fa fb Hda Hdb).
  exact Hrun.
Qed.

(** An empty [[]int] against a pointer to an empty [map[string]bool]. *)
Lemma empty_containers_equivalent_witness :
  let h : heap := <[3 := CVal (VMap (TMap (TNamed "string") (TNamed "bool")) 2)]>
                    (<[2 := CMap []]> (<[1 := CArr []]> ∅)) in
  let a := VSlice (TSlice (TNamed "int")) 1 in
  let b := VPtr (TPtr (TMap (TNamed "string") (TNamed "bool"))) 3 in
  IsEquivalent 2 h a b = Some true.
Proof.
  apply (empty_containers_equivalent 1 _ _ _
           (VSlice (TSlice (TNamed "int")) 1)
           (VMap (TMap (TNamed "string") (TNamed "bool")) 2)).
  - apply drills_to_concrete. reflexivity.
  - exists ({[3]} ∪ ∅). vm_compute. reflexivity.
  - vm_compute. reflexivity.
  - vm_compute. reflexivity.
Defined.

(** ** Reflexivity *)

(** C2, evaluated on the source: a [uintptr] is not equivalent to itself.
    The [Uintptr] case reads both operands with [Pointer()], which faults
    on a value of that kind, and the entry point answers [false]. The same
    answer is given for a complex number with a NaN part compared to
    itself, where the components are compared with [==]. *)
Theorem uintptr_not_equivalent_to_itself (n : nat) (h : heap) (x : Z) :
  IsEquivalent (S n) h (VUintptr x) (VUintptr x) = Some false
  ∧ IsEquivalent (S n) h (VComplex KComplex128 Float.NaN (Float.of_Z 0))
                         (VComplex KComplex128 Float.NaN (Float.of_Z 0)) = Some false.
Proof. split; reflexivity. Qed.

(** ** Renderings of numbers are never the "NOT NUMERIC" label *)

Section Label.

Local Open Scope string_scope.

Lemma head_not_N_plain s : head_not_N s → plain s.
Proof. intros H r. apply H. Qed.

Lemma plain_not_label s x : plain s → String.eqb s ("NOT NUMERIC: " ++ x) = false.
Proof. intros H. apply String.eqb_neq. intros ->. eapply H. reflexivity. Qed.

Lemma head_not_N_cons c r : c ≠ "N"%char → head_not_N (String c r).
Proof. intros Hc r' [= -> _]. congruence. Qed.

Lemma digit_char_not_N d : (0 <= d < 10)%Z → Strconv.digit_char d ≠ "N"%char.
Proof.
  intros Hd.
  assert (Hc : (d = 0 ∨ d = 1 ∨ d = 2 ∨ d = 3 ∨ d = 4 ∨ d = 5 ∨ d = 6 ∨ d = 7
               ∨ d = 8 ∨ d = 9)%Z) by lia.
  repeat (destruct Hc as [->|Hc]; [discriminate|]). subst. discriminate.
Qed.

Lemma digits_acc_head fuel n acc :
  (∃ c r, acc = String c r ∧ c ≠ "N"%char) →
  ∃ c r, Strconv.digits_acc fuel n acc = String c r ∧ c ≠ "N"%char.
Proof.
  revert n acc. induction fuel as [|fuel IH]; intros n acc Hacc; simpl; [exact Hacc|].
  destruct (n / 10 =? 0)%Z.
  - eexists _, _. split; [reflexivity|]. apply digit_char_not_N, Z.mod_pos_bound. lia.
  - apply IH. eexists _, _. split; [reflexivity|].
    apply digit_char_not_N, Z.mod_pos_bound. lia.
Qed.

Lemma digits_head n : ∃ c r, Strconv.digits n = String c r ∧ c ≠ "N"%char.
Proof.
  unfold Strconv.digits. cbn [Strconv.digits_acc].
  destruct (n / 10 =? 0)%Z.
  - eexists _, _. split; [reflexivity|]. apply digit_char_not_N, Z.mod_pos_bound. lia.
  - apply digits_acc_head. eexists _, _. split; [reflexivity|].
    apply digit_char_not_N, Z.mod_pos_bound. lia.
Qed.

Lemma digits_head_ok n : head_ok (Strconv.digits n).
Proof. destruct (digits_head n) as (c & r & -> & Hc). exact Hc. Qed.

Lemma digits_head_not_N n : head_not_N (Strconv.digits n).
Proof. destruct (digits_head n) as (c & r & -> & Hc). apply head_not_N_cons, Hc. Qed.

Lemma FormatInt_plain z : plain (Strconv.FormatInt z).
Proof.
  apply head_not_N_plain. unfold Strconv.FormatInt. destruct (z <? 0)%Z.
  - apply head_not_N_cons. discriminate.
  - apply digits_head_not_N.
Qed.

Lemma FormatUint_plain z : plain (Strconv.FormatUint z).
Proof. apply head_not_N_plain, digits_head_not_N. Qed.

Lemma mk_decimal_head_ok c k : head_ok (Strconv.d_digits (Strconv.mk_decimal c k)).
Proof.
  unfold Strconv.mk_decimal. destruct (Strconv.strip_zeros _ c k) as [c' k'].
  apply digits_head_ok.
Qed.

Lemma fmtE_head neg d prec :
  head_ok (Strconv.d_digits d) → head_not_N (Strconv.fmtE neg d prec).
Proof.
  intros Hd. unfold Strconv.fmtE. destruct neg.
  - apply head_not_N_cons. discriminate.
  - destruct (Strconv.d_digits d) as [|c r]; cbn [append].
    + apply head_not_N_cons. discriminate.
    + apply head_not_N_cons. exact Hd.
Qed.

Lemma take_cons n c r : Strconv.take (S n) (String c r) = String c (Strconv.take n r).
Proof. reflexivity. Qed.

Lemma zeros_head n : (0 < n)%nat → ∃ r, Strconv.zeros n = String "0" r.
Proof. destruct n; [lia|]. intros _. eexists. reflexivity. Qed.

Lemma fmtF_ipart d :
  head_ok (Strconv.d_digits d) → (0 < Strconv.d_dp d)%Z →
  ∃ c r, (Strconv.take (Z.to_nat (Z.min (Strconv.nd d) (Strconv.d_dp d))) (Strconv.d_digits d)
          ++ Strconv.zeros (Z.to_nat (Strconv.d_dp d - Z.min (Strconv.nd d) (Strconv.d_dp d))))
         = String c r ∧ c ≠ "N"%char.
Proof.
  intros Hd Hdp. unfold Strconv.nd. destruct (Strconv.d_digits d) as [|c r].
  - cbn [String.length]. rewrite Z.min_l by lia.
    change (Z.to_nat (Z.of_nat 0)) with 0%nat. cbn [Strconv.take append].
    destruct (zeros_head (Z.to_nat (Strconv.d_dp d - Z.of_nat 0))) as [r Hr]; [lia|].
    rewrite Hr. eexists _, _. split; [reflexivity|discriminate].
  - set (m := Z.min _ _).
    assert (Hm : (1 <= m)%Z) by (unfold m; cbn [String.length]; lia).
    destruct (Z.to_nat m) eqn:Hn; [lia|].
    rewrite take_cons. cbn [append]. eexists _, _. split; [reflexivity|exact Hd].
Qed.

Lemma fmtF_head neg d prec :
  head_ok (Strconv.d_digits d) → head_not_N (Strconv.fmtF neg d prec).
Proof.
  intros Hd. unfold Strconv.fmtF. destruct neg.
  - apply head_not_N_cons. discriminate.
  - cbn [append]. destruct (0 <? Strconv.d_dp d)%Z eqn:Hdp.
    + apply Z.ltb_lt in Hdp. destruct (fmtF_ipart d Hd Hdp) as (c & r & -> & Hc).
      cbn [append]. apply head_not_N_cons, Hc.
    + cbn [append]. apply head_not_N_cons. discriminate.
Qed.

Lemma formatDigits_g_head shortest neg d prec :
  head_ok (Strconv.d_digits d) → head_not_N (Strconv.formatDigits_g shortest neg d prec).
Proof.
  intros Hd. unfold Strconv.formatDigits_g.
  match goal with |- context [if ?b then Strconv.fmtE _ _ _ else _] => destruct b end.
  - apply fmtE_head, Hd.
  - apply fmtF_head, Hd.
Qed.

Lemma round_digits_head_ok num den n :
  head_ok (Strconv.d_digits (Strconv.round_digits num den n)).
Proof.
  unfold Strconv.round_digits. destruct (Strconv.scaled _ _ _) as [n' d'].
  apply mk_decimal_head_ok.
Qed.

Lemma shortest_from_head_ok fuel num lo hi den incl n :
  head_ok (Strconv.d_digits (Strconv.shortest_from fuel num lo hi den incl n)).
Proof.
  revert n. induction fuel as [|fuel IH]; intros n; cbn [Strconv.shortest_from].
  - apply round_digits_head_ok.
  - destruct (Strconv.shortest_at num lo hi den incl n) as [d|] eqn:Hat; [|apply IH].
    unfold Strconv.shortest_at in Hat.
    destruct (Strconv.scaled num den _) as [x' d'].
    repeat match type of Hat with
           | context [if ?b then _ else _] => destruct b
           end; inversion Hat; subst; apply mk_decimal_head_ok.
Qed.

Lemma floatToString_plain f : plain (floatToString f).
Proof.
  unfold floatToString, Strconv.FormatFloat_g. destruct f as [s|s| |s m e].
  - apply head_not_N_plain, formatDigits_g_head. exact I.
  - destruct s; intros r; discriminate.
  - intros r; discriminate.
  - apply head_not_N_plain, formatDigits_g_head, shortest_from_head_ok.
Qed.

Lemma bigFloatToString_plain prec f : plain (bigFloatToString prec f).
Proof.
  unfold bigFloatToString, Strconv.BigFloat_Text_g. destruct f as [s|s| |s m e].
  - apply head_not_N_plain, formatDigits_g_head. exact I.
  - destruct s; intros r; discriminate.
  - intros r; discriminate.
  - apply head_not_N_plain, formatDigits_g_head.
    destruct (0 <=? e)%Z; apply round_digits_head_ok.
Qed.

(** Every number is rendered to a string that differs from the label. *)
Lemma numericToString_plain h n v :
  noncomplex_numeric v → ∃ s, numericToString h n v = Done s ∧ plain s.
Proof.
  destruct v; try contradiction; intros _; cbn [numericToString];
    eexists; (split; [reflexivity|]).
  - apply FormatInt_plain.
  - apply FormatUint_plain.
  - apply floatToString_plain.
  - apply FormatInt_plain.
  - apply bigFloatToString_plain.
Qed.

End Label.

(** ** Complex numbers *)

(** A complex number is printed at once, and its text stands behind the
    label. *)
Lemma isEquivalentToBigInt_complex h n z k re im :
  isEquivalentToBigInt h (S n) z (VComplex k re im) = Done false.
Proof.
  unfold isEquivalentToBigInt. cbn [numericToString Sprint_v fmt.printValue bind].
  f_equal. apply plain_not_label, FormatInt_plain.
Qed.

Lemma isEquivalentToBigFloat_complex h n prec x k re im :
  isEquivalentToBigFloat h (S n) prec x (VComplex k re im) = Done false.
Proof.
  unfold isEquivalentToBigFloat. cbn [numericToString Sprint_v fmt.printValue bind].
  f_equal. apply plain_not_label, bigFloatToString_plain.
Qed.

Lemma complex_against_complex (n : nat) (h : heap) k re im k' re' im' :
  IsEquivalent (S n) h (VComplex k re im) (VComplex k' re' im')
  = Some (Float.eqb re re' && Float.eqb im im').
Proof. destruct k, k'; reflexivity. Qed.

(** With the complex number on the left the access [b.Complex()] faults;
    with it on the right every numeric rule answers [false]. *)
Lemma complex_against_number (n : nat) (h : heap) (c v : value) (c0 : comparator) :
  is_complex c → noncomplex_numeric v →
  areObjectsEquivalent h (S n) c v c0 = Fault
  ∧ areObjectsEquivalent h (S n) v c c0 = Done (false, c0).
Proof.
  intros Hc Hv. destruct c0 as [fa fb].
  destruct c as [| | | | | |kc re im| | | | | | | | | | | |]; try contradiction.
  split.
  - destruct v as [| |k x|k x| |k x| | | | | | | |
                   |z|prec x| | |]; try contradiction;
      try destruct k; destruct kc; reflexivity.
  - destruct v as [| |k x|k x| |k x| | | | | | | |
                   |z|prec x| | |]; try contradiction.
    + destruct k, kc; reflexivity.
    + destruct k, kc; reflexivity.
    + destruct k, kc; reflexivity.
    + rewrite areObjectsEquivalent_unfold.
      rewrite !drillDown_concrete by reflexivity.
      cbn [bind orb negb Value.IsValid Value.Kind]. cbv zeta. unfold areStructsEquivalent.
      rewrite isEquivalentToBigInt_complex. reflexivity.
    + rewrite areObjectsEquivalent_unfold.
      rewrite !drillDown_concrete by reflexivity.
      cbn [bind orb negb Value.IsValid Value.Kind]. cbv zeta. unfold areStructsEquivalent.
      rewrite isEquivalentToBigFloat_complex. reflexivity.
Qed.

(** C10: a complex number and a number that is not complex are never
    equivalent, in either order, whatever their values, be they passed
    as such or behind pointers; two complex numbers are equivalent
    exactly when both components are equal. *)
Theorem complex_only_equivalent_to_complex (n : nat) (h : heap) (a b c v : value) :
  drills_to h (S n) a c → drills_to h (S n) b v →
  is_complex c → noncomplex_numeric v →
  IsEquivalent (S n) h a b = Some false
  ∧ IsEquivalent (S n) h b a = Some false
  ∧ (∀ k re im k' re' im',
       IsEquivalent (S n) h (VComplex k re im) (VComplex k' re' im')
       = Some (Float.eqb re re' && Float.eqb im im')).
Proof.
  intros Hda Hdb Hc Hv.
  assert (Hva : Value.IsValid a = true).
  { apply (drills_to_valid h (S n) a c Hda). destruct c; try contradiction; reflexivity. }
  destruct Hda as [fa Hda], Hdb as [fb Hdb].
  split; [|split].
  - unfold IsEquivalent. rewrite Hva. cbn [negb andb].
    rewrite (areObjectsEquivalent_drilled h n a b c v newComparator fa fb Hda Hdb).
    destruct (complex_against_number n h c v {| aFinder := fa; bFinder := fb |} Hc Hv) as [-> _].
    reflexivity.
  - unfold IsEquivalent. rewrite Hva, andb_false_r.
    rewrite (areObjectsEquivalent_drilled h n b a v c newComparator fb fa Hdb Hda).
    destruct (complex_against_number n h c v {| aFinder := fb; bFinder := fa |} Hc Hv) as [_ ->].
    reflexivity.
  - intros. apply complex_against_complex.
Qed.

(** The complex number 1+0i against [big.NewInt(1)], a pointer to the
    arbitrary-precision integer 1. *)
Lemma complex_only_equivalent_to_complex_witness :
  let c := VComplex KComplex128 (Float.of_Z 1) (Float.of_Z 0) in
  IsEquivalent 2 (big_heap 1) c big_pointer = Some false
  ∧ IsEquivalent 2 (big_heap 1) big_pointer c = Some false.
Proof.
  destruct (complex_only_equivalent_to_complex 1 (big_heap 1)
              (VComplex KComplex128 (Float.of_Z 1) (Float.of_Z 0)) big_pointer
              (VComplex KComplex128 (Float.of_Z 1) (Float.of_Z 0)) (VBigInt 1))
    as (H1 & H2 & _).
  - apply drills_to_concrete. reflexivity.
  - exists ({[1]} ∪ ∅). vm_compute. reflexivity.
  - exact I.
  - exact I.
  - split; [exact H1 | exact H2].
Defined.

(** ** Arbitrary-precision numbers against native numbers *)

(** C7, evaluated on the source: the arbitrary-precision integer
    10000000 and the native float 10000000.0 are not equivalent, in
    either order. The float is rendered in the shortest ['g'] form, which
    switches to the exponent notation from 1e+06 on, and the two decimal
    strings differ. *)
Theorem bigint_against_float_ten_million :
  floatToString (Float.of_Z 10000000) = "1e+07"%string
  ∧ Strconv.FormatInt 10000000 = "10000000"%string
  ∧ IsEquivalent 2 (big_heap 10000000) big_pointer (VFloat KFloat64 (Float.of_Z 10000000))
    = Some false
  ∧ IsEquivalent 2 (big_heap 10000000) (VFloat KFloat64 (Float.of_Z 10000000)) big_pointer
    = Some false
  ∧ IsEquivalent 2 (big_heap 100) big_pointer (VFloat KFloat64 (Float.of_Z 100))
    = Some true.
Proof. repeat split; vm_compute; reflexivity. Qed.

(** ** The cycle guard *)

Section Guard.

Variable h : heap.



End Guard.




(** C6, evaluated on the source: the hit need not be lossless, and a
    lossless re-encoding need not be tried. The key [int64(2^53 + 1)],
    looked up in a map whose one key is [float64(2^53)], is found there:
    [getMapValue] probes [float64(asInt)] with no test that the conversion
    gives the integer back, where every other re-encoding is tested; the
    resolver as the specification words it reports not-found. The
    comparator itself holds the two keys not to be equivalent, and yet it
    takes the map keyed by the integer as equivalent to the map keyed by
    the float (not the other way round). And the key [float64(1.5)] is
    not found in a map that holds it as [float32(1.5)], a re-encoding at
    the narrowed floating width that loses nothing: for a float key no
    float is probed at all. *)
Theorem integer_key_hits_rounded_float :
  getMapValue lossy_heap lossy_map lossy_key
  = Done (VInterface (VString (TNamed "string") "float"))
  ∧ Float.of_Z (2 ^ 53 + 1) = Float.of_Z (2 ^ 53)
  ∧ Float.to_int64 (Float.of_Z (2 ^ 53 + 1)) = 2 ^ 53
  ∧ getMapValue_spec lossy_entries lossy_key = VInvalid
  ∧ IsEquivalent 2 ∅ lossy_key (VFloat KFloat64 (Float.of_Z (2 ^ 53))) = Some false
  ∧ IsEquivalent 2 ∅ (VFloat KFloat64 (Float.of_Z (2 ^ 53))) lossy_key = Some false
  ∧ IsEquivalent 3 lossy_heap lossy_keys lossy_map = Some true
  ∧ IsEquivalent 3 lossy_heap lossy_map lossy_keys = Some false
  ∧ getMapValue narrow_heap narrow_map (VFloat KFloat64 three_halves) = Done VInvalid
  ∧ Float.eqb (Float.to_float32 three_halves) three_halves = true
  ∧ getMapValue_spec narrow_entries (VFloat KFloat64 three_halves)
    = VInterface (VString (TNamed "string") "narrow")
  ∧ IsEquivalent 2 ∅ (VFloat KFloat64 three_halves)
                     (VFloat KFloat32 (Float.to_float32 three_halves)) = Some true.
Proof. repeat split; vm_compute; reflexivity. Qed.

(** The order of the probes depends on the kind of the key as well:
    [uint8(1)] is looked up among the unsigned encodings before the
    signed ones, so the resolver returns the entry stored under
    [uint64(1)], where the order of the specification (signed first)
    gives the entry under [int64(1)]. *)
Lemma unsigned_key_probes_unsigned_first :
  getMapValue two_ones_heap two_ones_map (VUint KUint8 1)
  = Done (VInterface (VString (TNamed "string") "unsigned"))
  ∧ getMapValue_spec two_ones (VUint KUint8 1)
    = VInterface (VString (TNamed "string") "signed")
  ∧ getMapValue two_ones_heap two_ones_map (VUint KUint8 1)
    ≠ Done (getMapValue_spec two_ones (VUint KUint8 1)).
Proof. repeat split; try (vm_compute; reflexivity). vm_compute. discriminate. Qed.

Section Resolver.

Variable h : heap.
Variables (et : rtype) (p : Z) (es : list (value * value)).
Hypothesis Hes : Value.entries h p = Done es.

(** The map under study is keyed by [interface{}]. *)
Local Abbreviation M := (VMap (TMap TInterface et) p).

Lemma invalid_is_VInvalid (v : value) : Value.IsValid v = false → v = VInvalid.
Proof. destruct v; simpl; congruence. Qed.

Lemma MapIndex_interface_keyed (key : value) (t : rtype) :
  Value.TypeOf key = Done t → Value.hashable key = true →
  Value.MapIndex h M key = Done (Value.lookup_key key es).
Proof.
  intros Ht Hh. unfold Value.MapIndex. rewrite Ht, Hh, Hes.
  rewrite bool_decide_eq_true_2 by reflexivity. reflexivity.
Qed.

Lemma MapIndex_native (key : value) :
  native_number key → Value.MapIndex h M key = Done (Value.lookup_key key es).
Proof.
  intros Hn. destruct key as [| |k n|k n| |k f| | | | | | | | | | | | |];
    try contradiction; destruct k;
    (eapply MapIndex_interface_keyed; reflexivity).
Qed.

Lemma first_hit_app (ks1 ks2 : list value) :
  first_hit es (ks1 ++ ks2)
  = if Value.IsValid (first_hit es ks1) then first_hit es ks1 else first_hit es ks2.
Proof.
  induction ks1 as [|k ks1 IH]; simpl; [reflexivity|].
  destruct (Value.IsValid (Value.lookup_key k es)) eqn:Hv; [rewrite Hv; reflexivity|exact IH].
Qed.

Lemma probing_lookup (cond : bool) (k : value) (rest : outcome value) (ks : list value) :
  rest = Done (first_hit es ks) →
  probing cond (Done (Value.lookup_key k es)) rest = Done (first_hit es (only_if cond k ++ ks)).
Proof.
  intros ->. unfold probing, only_if. destruct cond; simpl; [|reflexivity].
  destruct (Value.IsValid (Value.lookup_key k es)); reflexivity.
Qed.

Lemma probing_first_hit (cond : bool) (ks1 ks2 : list value) (probe rest : outcome value) :
  probe = Done (first_hit es ks1) → rest = Done (first_hit es ks2) →
  probing cond probe rest = Done (first_hit es ((if cond then ks1 else []) ++ ks2)).
Proof.
  intros -> ->. unfold probing. destruct cond; simpl; [|reflexivity].
  rewrite first_hit_app. destruct (Value.IsValid (first_hit es ks1)); reflexivity.
Qed.

Lemma getIntKeyedMapValue_probes (n : Z) :
  getIntKeyedMapValue h M n = Done (first_hit es (signed_probes n)).
Proof.
  unfold getIntKeyedMapValue, signed_probes.
  rewrite !MapIndex_native by exact I. cbn [bind app first_hit].
  destruct (Value.IsValid (Value.lookup_key (VInt KInt64 n) es)) eqn:Hv; [reflexivity|].
  apply invalid_is_VInvalid in Hv. rewrite Hv.
  repeat (apply probing_lookup).
  rewrite <- (app_nil_r (only_if _ _)).
  apply (probing_lookup _ _ _ []). reflexivity.
Qed.

Lemma getUintKeyedMapValue_probes (n : Z) :
  getUintKeyedMapValue h M n = Done (first_hit es (unsigned_probes n)).
Proof.
  unfold getUintKeyedMapValue, unsigned_probes.
  rewrite !MapIndex_native by exact I. cbn [bind app first_hit].
  destruct (Value.IsValid (Value.lookup_key (VUint KUint64 n) es)) eqn:Hv; [reflexivity|].
  apply invalid_is_VInvalid in Hv. rewrite Hv.
  repeat (apply probing_lookup).
  rewrite <- (app_nil_r (only_if _ _)).
  apply (probing_lookup _ _ _ []). reflexivity.
Qed.

Lemma getFloatKeyedMapValue_probes (f : spec_float) :
  getFloatKeyedMapValue h M f = Done (first_hit es (float_probes f)).
Proof.
  unfold getFloatKeyedMapValue, float_probes.
  rewrite !MapIndex_native by exact I. cbn [bind app first_hit].
  destruct (Value.IsValid (Value.lookup_key (VFloat KFloat64 f) es)) eqn:Hv; [reflexivity|].
  apply invalid_is_VInvalid in Hv. rewrite Hv.
  rewrite <- (app_nil_r (only_if _ _)).
  apply (probing_lookup _ _ _ []). reflexivity.
Qed.

(** The resolver returns the first hit among the key and its probes. *)
Lemma getMapValue_probes (k : value) (t : rtype) :
  Value.TypeOf (Value.unbox k) = Done t → Value.hashable (Value.unbox k) = true →
  getMapValue h M k = Done (first_hit es (Value.unbox k :: probes (Value.unbox k))).
Proof.
  intros Ht Hh. unfold getMapValue.
  assert (Hk : match Value.Kind k with
               | reflect.Interface => Value.Elem h k
               | _ => Done k
               end = Done (Value.unbox k)).
  { destruct k as [| |[]|[]| |[]|[]| | | | | | | | | | | |]; reflexivity. }
  rewrite Hk. cbn [bind]. clear Hk. set (key := Value.unbox k) in *.
  rewrite (MapIndex_interface_keyed key t Ht Hh). cbn [bind first_hit].
  destruct (Value.IsValid (Value.lookup_key key es)) eqn:Hv; [reflexivity|].
  apply invalid_is_VInvalid in Hv. rewrite Hv.
  destruct key; try reflexivity; cbn [probes].
  - change (signed_probes n) with (if true then signed_probes n else []).
    apply probing_first_hit; [apply getIntKeyedMapValue_probes|].
    apply probing_first_hit; [apply getUintKeyedMapValue_probes|].
    apply getFloatKeyedMapValue_probes.
  - change (unsigned_probes n) with (if true then unsigned_probes n else []).
    apply probing_first_hit; [apply getUintKeyedMapValue_probes|].
    apply probing_first_hit; [apply getIntKeyedMapValue_probes|].
    apply getFloatKeyedMapValue_probes.
  - cbv zeta. apply probing_first_hit; [apply getIntKeyedMapValue_probes|].
    rewrite <- (app_nil_r (if Float.eqb (Float.of_Z (Float.to_uint64 f)) f then _ else _)).
    apply probing_first_hit; [apply getUintKeyedMapValue_probes|reflexivity].
Qed.

End Resolver.

(** ** The lookup finds integer keys of every native integer kind *)

Arguments signed_probes : simpl never.
Arguments unsigned_probes : simpl never.
Arguments float_probes : simpl never.

Ltac unfold_wrap :=
  unfold Int.int64, Int.int, Int.int32, Int.int16, Int.int8,
         Int.uint64, Int.uint, Int.uint32, Int.uint16, Int.uint8,
         Int.wrap_signed, Int.wrap_unsigned, Int.MaxInt64 in *;
  change (2 ^ (64 - 1)) with 9223372036854775808 in *;
  change (2 ^ (32 - 1)) with 2147483648 in *;
  change (2 ^ (16 - 1)) with 32768 in *;
  change (2 ^ (8 - 1)) with 128 in *;
  change (2 ^ 64) with 18446744073709551616 in *;
  change (2 ^ 63) with 9223372036854775808 in *;
  change (2 ^ 32) with 4294967296 in *;
  change (2 ^ 16) with 65536 in *;
  change (2 ^ 8) with 256 in *.

Ltac wrap_lia := unfold_wrap; Z.div_mod_to_equations; lia.

Lemma native_integer_range (v : value) (n : Z) :
  native_integer v → int_of v = Some n → - 2 ^ 63 <= n < 2 ^ 64.
Proof.
  destruct v as [| |k x|k x| | | | | | | | | | | | | | |]; try contradiction;
    destruct k; simpl; intros Hw [= <-]; wrap_lia.
Qed.

Lemma native_signed_range (k : int_kind) (n : Z) :
  native_integer (VInt k n) → - 2 ^ 63 <= n < 2 ^ 63.
Proof. destruct k; simpl; intros Hw; wrap_lia. Qed.

Lemma native_unsigned_range (k : uint_kind) (n : Z) :
  native_integer (VUint k n) → 0 <= n < 2 ^ 64.
Proof. destruct k; simpl; intros Hw; wrap_lia. Qed.

Lemma elem_of_only_if (c : bool) (k q : value) : q ∈ only_if c k ↔ c = true ∧ q = k.
Proof.
  unfold only_if. destruct c.
  - rewrite list_elem_of_singleton. split; [intros ->; auto | intros [_ ->]; reflexivity].
  - rewrite elem_of_nil. split; [contradiction | intros [Hc _]; discriminate].
Qed.

Lemma signed_probes_complete (k : int_kind) (n : Z) :
  native_integer (VInt k n) → VInt k n ∈ signed_probes n.
Proof.
  intros Hw. unfold signed_probes.
  destruct k; simpl in Hw; rewrite !elem_of_app, !elem_of_only_if, list_elem_of_singleton.
  - right; left. split; [apply Z.eqb_eq|f_equal]; wrap_lia.
  - do 4 right. split; [apply Z.eqb_eq|f_equal]; wrap_lia.
  - do 3 right; left. split; [apply Z.eqb_eq|f_equal]; wrap_lia.
  - do 2 right; left. split; [apply Z.eqb_eq|f_equal]; wrap_lia.
  - left. reflexivity.
Qed.

Lemma unsigned_probes_complete (k : uint_kind) (n : Z) :
  native_integer (VUint k n) → VUint k n ∈ unsigned_probes n.
Proof.
  intros Hw. unfold unsigned_probes.
  destruct k; simpl in Hw; rewrite !elem_of_app, !elem_of_only_if, list_elem_of_singleton.
  - right; left. split; [apply Z.eqb_eq|f_equal]; wrap_lia.
  - do 4 right. split; [apply Z.eqb_eq|f_equal]; wrap_lia.
  - do 3 right; left. split; [apply Z.eqb_eq|f_equal]; wrap_lia.
  - do 2 right; left. split; [apply Z.eqb_eq|f_equal]; wrap_lia.
  - left. reflexivity.
Qed.

Lemma signed_probes_sound (n : Z) (q : value) :
  q ∈ signed_probes n → int_of q = Some n.
Proof.
  unfold signed_probes.
  rewrite !elem_of_app, !elem_of_only_if, list_elem_of_singleton.
  intros [->|[[Hc ->]|[[Hc ->]|[[Hc ->]|[Hc ->]]]]]; [reflexivity|..];
    apply Z.eqb_eq in Hc; simpl; f_equal; wrap_lia.
Qed.

Lemma unsigned_probes_sound (n : Z) (q : value) :
  q ∈ unsigned_probes n → int_of q = Some n.
Proof.
  unfold unsigned_probes.
  rewrite !elem_of_app, !elem_of_only_if, list_elem_of_singleton.
  intros [->|[[Hc ->]|[[Hc ->]|[[Hc ->]|[Hc ->]]]]]; [reflexivity|..];
    apply Z.eqb_eq in Hc; simpl; f_equal; wrap_lia.
Qed.

Lemma probes_integer (k : value) (n : Z) :
  int_of k = Some n → probes k = integer_probes k ++ float_probes (Float.of_Z n).
Proof.
  destruct k; cbn [int_of]; try discriminate; intros [= <-];
    unfold probes, integer_probes; rewrite <- app_assoc; reflexivity.
Qed.

Lemma integer_probes_complete (k k' : value) (n : Z) :
  int_of k = Some n → int_of k' = Some n → native_integer k' →
  k' ∈ integer_probes k.
Proof.
  intros Hk Hk' Hw.
  destruct k' as [| |k1 x|k1 x| | | | | | | | | | | | | | |]; try contradiction;
    simpl in Hk'; injection Hk' as ->.
  - pose proof (native_signed_range _ _ Hw) as Hr.
    destruct k; cbn [int_of] in Hk; try discriminate; injection Hk as ->; cbn [integer_probes].
    + apply elem_of_app. left. apply signed_probes_complete, Hw.
    + apply elem_of_app. right.
      replace (n <=? Int.MaxInt64) with true by (symmetry; apply Z.leb_le; wrap_lia).
      replace (Int.int64 n) with n by wrap_lia.
      apply signed_probes_complete, Hw.
  - pose proof (native_unsigned_range _ _ Hw) as Hr.
    destruct k; cbn [int_of] in Hk; try discriminate; injection Hk as ->; cbn [integer_probes].
    + apply elem_of_app. right.
      replace (0 <=? n) with true by (symmetry; apply Z.leb_le; lia).
      replace (Int.uint64 n) with n by wrap_lia.
      apply unsigned_probes_complete, Hw.
    + apply elem_of_app. left. apply unsigned_probes_complete, Hw.
Qed.

Lemma integer_probes_sound (k q : value) (n : Z) :
  int_of k = Some n → - 2 ^ 63 <= n < 2 ^ 64 → q ∈ integer_probes k → int_of q = Some n.
Proof.
  intros Hk Hr. destruct k; cbn [int_of] in Hk; try discriminate; injection Hk as ->;
    cbn [integer_probes]; rewrite elem_of_app.
  - intros [Hq|Hq]; [apply signed_probes_sound, Hq|].
    destruct (0 <=? n) eqn:Hn; [|apply elem_of_nil in Hq; contradiction].
    apply Z.leb_le in Hn. apply unsigned_probes_sound in Hq. rewrite Hq. f_equal. wrap_lia.
  - intros [Hq|Hq]; [apply unsigned_probes_sound, Hq|].
    destruct (n <=? Int.MaxInt64) eqn:Hn; [|apply elem_of_nil in Hq; contradiction].
    apply Z.leb_le in Hn. apply signed_probes_sound in Hq. rewrite Hq. f_equal. wrap_lia.
Qed.

Section Found.

Variable es : list (value * value).

Lemma key_eqb_integer (key q : value) (n : Z) :
  int_of q = Some n → Value.key_eqb key q = true → int_of key = Some n.
Proof.
  destruct q as [| |k x|k x| | | | | | | | | | | | | | |]; try discriminate;
    intros [= ->]; destruct key; try discriminate; simpl;
    intros [_ ->%Z.eqb_eq]%andb_true_iff; reflexivity.
Qed.

Lemma key_eqb_integer_refl (k : value) (n : Z) :
  int_of k = Some n → Value.key_eqb k k = true.
Proof.
  destruct k; try discriminate; intros _; simpl;
    rewrite bool_decide_eq_true_2 by reflexivity; apply Z.eqb_refl.
Qed.

Lemma lookup_key_entry (q : value) :
  Value.IsValid (Value.lookup_key q es) = true →
  ∃ key, (key, Value.lookup_key q es) ∈ es ∧ Value.key_eqb (Value.unbox key) q = true.
Proof.
  induction es as [|[k v] es' IH]; simpl; [discriminate|].
  destruct (Value.key_eqb (Value.unbox k) q) eqn:Hk.
  - intros _. exists k. split; [left|exact Hk].
  - intros Hv. destruct (IH Hv) as (key & Hin & Heq). exists key. split; [right; exact Hin|exact Heq].
Qed.

Lemma lookup_key_present (q key v : value) :
  (∀ key v, (key, v) ∈ es → Value.IsValid v = true) →
  (key, v) ∈ es → Value.key_eqb (Value.unbox key) q = true →
  Value.IsValid (Value.lookup_key q es) = true.
Proof.
  induction es as [|[k0 v0] es' IH]; intros Hval Hin Hk; [apply elem_of_nil in Hin; contradiction|].
  simpl. destruct (Value.key_eqb (Value.unbox k0) q) eqn:Hk0.
  - apply (Hval k0 v0). left.
  - apply elem_of_cons in Hin as [[= -> ->]|Hin]; [congruence|].
    apply IH; [|exact Hin|exact Hk]. intros key' v' Hin'. apply (Hval key' v'). right. exact Hin'.
Qed.

Lemma first_hit_valid (ks : list value) (q : value) :
  q ∈ ks → Value.IsValid (Value.lookup_key q es) = true →
  Value.IsValid (first_hit es ks) = true.
Proof.
  induction ks as [|k ks IH]; intros Hin Hv; [apply elem_of_nil in Hin; contradiction|].
  simpl. destruct (Value.IsValid (Value.lookup_key k es)) eqn:Hk; [exact Hk|].
  apply elem_of_cons in Hin as [->|Hin]; [congruence|]. apply IH; assumption.
Qed.

Lemma first_hit_from (ks : list value) :
  Value.IsValid (first_hit es ks) = true →
  ∃ q, q ∈ ks ∧ first_hit es ks = Value.lookup_key q es.
Proof.
  induction ks as [|k ks IH]; simpl; [discriminate|].
  destruct (Value.IsValid (Value.lookup_key k es)) eqn:Hk.
  - intros _. exists k. split; [left|reflexivity].
  - intros Hv. destruct (IH Hv) as (q & Hin & Heq). exists q. split; [right; exact Hin|exact Heq].
Qed.

End Found.

(** [MapIndex] faults on a key of a defined type other than the key
    type, itself a defined type that is not an interface type: the one
    is not assignable to the other. *)
Lemma getMapValue_typed_key (h : heap) (s s' : string) (et : rtype) (p : Z) (k : value) :
  s ≠ s' → Value.TypeOf (Value.unbox k) = Done (TNamed s) →
  getMapValue h (VMap (TMap (TNamed s') et) p) k = Fault.
Proof.
  intros Hne Ht. unfold getMapValue.
  assert (Hk : match Value.Kind k with
               | reflect.Interface => Value.Elem h k
               | _ => Done k
               end = Done (Value.unbox k)).
  { destruct k as [| |[]|[]| |[]|[]| | | | | | | | | | | |]; reflexivity. }
  rewrite Hk. cbn [bind]. unfold Value.MapIndex. rewrite Ht.
  rewrite !bool_decide_eq_false_2 by congruence. reflexivity.
Qed.

(** X27: on a map keyed by [interface{}] the resolver returns the
    first hit among the key itself and the keys of [probes], in that
    order, and the zero Value when none of them is held. Consequently,
    when the map holds an entry whose key is a native integer equal to
    the integer key [k], the resolver returns the value of an entry whose
    key is that integer. *)
Theorem getMapValue_first_probe_hit (h : heap) (et : rtype) (p : Z)
    (es : list (value * value)) (k : value) :
  Value.entries h p = Done es →
  (∀ t, Value.TypeOf (Value.unbox k) = Done t → Value.hashable (Value.unbox k) = true →
     getMapValue h (VMap (TMap TInterface et) p) k
     = Done (first_hit es (Value.unbox k :: probes (Value.unbox k))))
  ∧ (∀ key v n,
       (∀ key v, (key, v) ∈ es → Value.IsValid v = true) →
       (key, v) ∈ es → native_integer (Value.unbox key) →
       int_of (Value.unbox key) = Some n → int_of (Value.unbox k) = Some n →
       ∃ key' v', (key', v') ∈ es ∧ int_of (Value.unbox key') = Some n
                  ∧ Value.IsValid v' = true
                  ∧ getMapValue h (VMap (TMap TInterface et) p) k = Done v').
Proof.
  intros Hes. split.
  - intros t Ht Hh. exact (getMapValue_probes h et p es Hes k t Ht Hh).
  - intros key v n Hval Hin Hw Hkey Hk.
    set (k0 := Value.unbox k) in *.
    assert (Hty : ∃ t, Value.TypeOf k0 = Done t ∧ Value.hashable k0 = true).
    { destruct k0 as [| |[]|[]| | | | | | | | | | | | | | |]; try discriminate; eauto. }
    destruct Hty as (t & Ht & Hh).
    rewrite (getMapValue_probes h et p es Hes k t Ht Hh). fold k0.
    rewrite (probes_integer k0 n Hk).
    change (k0 :: integer_probes k0 ++ float_probes (Float.of_Z n))
      with ((k0 :: integer_probes k0) ++ float_probes (Float.of_Z n)).
    rewrite first_hit_app.
    pose proof (native_integer_range _ _ Hw Hkey) as Hr.
    assert (Hhit : Value.IsValid (first_hit es (k0 :: integer_probes k0)) = true).
    { apply (first_hit_valid es _ (Value.unbox key)).
      - right. exact (integer_probes_complete k0 _ n Hk Hkey Hw).
      - apply (lookup_key_present es _ key v Hval Hin).
        exact (key_eqb_integer_refl _ n Hkey). }
    rewrite Hhit.
    destruct (first_hit_from es _ Hhit) as (q & Hq & Heq).
    rewrite Heq in Hhit |- *.
    destruct (lookup_key_entry es q Hhit) as (key' & Hin' & Heqb).
    exists key', (Value.lookup_key q es). repeat split; try assumption.
    apply (key_eqb_integer _ q n); [|exact Heqb].
    apply elem_of_cons in Hq as [->|Hq]; [exact Hk|].
    exact (integer_probes_sound k0 q n Hk Hr Hq).
Qed.

(** The key [int(1)] looked up in a map that holds it as [uint64(1)]
    and as [int64(1)]. *)
Lemma getMapValue_first_probe_hit_witness :
  getMapValue two_ones_heap two_ones_map (VInt KInt 1)
  = Done (first_hit two_ones (VInt KInt 1 :: probes (VInt KInt 1)))
  ∧ ∃ key' v', (key', v') ∈ two_ones ∧ int_of (Value.unbox key') = Some 1
               ∧ Value.IsValid v' = true
               ∧ getMapValue two_ones_heap two_ones_map (VInt KInt 1) = Done v'.
Proof.
  destruct (getMapValue_first_probe_hit two_ones_heap TInterface 1 two_ones (VInt KInt 1))
    as (H1 & H2); [vm_compute; reflexivity|].
  split.
  - apply (H1 (TNamed "int")); reflexivity.
  - apply (H2 (VInterface (VUint KUint64 1))
              (VInterface (VString (TNamed "string") "unsigned")) 1).
    + intros key v Hin. unfold two_ones in Hin.
      rewrite !elem_of_cons, elem_of_nil in Hin.
      destruct Hin as [[= -> ->]|[[= -> ->]|[]]]; reflexivity.
    + unfold two_ones. right. left.
    + vm_compute; reflexivity.
    + reflexivity.
    + reflexivity.
Defined.

(** ** The relative tolerance *)

(** The constant of the older comparator is the correctly rounded
    quotient of 1 by 10^10. *)
Lemma floatToleranceFactor_value :
  Legacy.floatToleranceFactor = Float.div (Float.of_Z 1) (Float.of_Z 10000000000).
Proof. vm_compute. reflexivity. Qed.

(** C5 as stated fails on the comparator with the duplicate finders:
    1 and 1 + 2^-52 are two float64 that differ by far less than 1e-10 of
    the first (10^10 * 2^-52 <= 1, and the float64 test of the tolerance
    holds as well), and they are not equivalent. *)
Lemma close_floats_not_equivalent :
  Float.eqb one one_plus_ulp = false
  ∧ 10 ^ 10 * 1 <= 2 ^ 52
  ∧ Float.leb (Float.Abs (Float.sub one one_plus_ulp))
              (Float.Abs (Float.mul one Legacy.floatToleranceFactor)) = true
  ∧ isEquivalentToFloat one (VFloat KFloat64 one_plus_ulp) = false
  ∧ IsEquivalent 1 ∅ (VFloat KFloat64 one) (VFloat KFloat64 one_plus_ulp) = Some false.
Proof. repeat split; try (vm_compute; reflexivity). vm_compute. discriminate. Qed.

Lemma floats_compared_exactly (n : nat) (h : heap) (ka kb : float_kind) (a b : spec_float) :
  IsEquivalent (S n) h (VFloat ka a) (VFloat kb b)
  = Some ((Float.IsNaN a && Float.IsNaN b) || Float.eqb a b).
Proof.
  destruct ka, kb; unfold IsEquivalent; cbn [Value.IsValid negb andb];
    rewrite areObjectsEquivalent_unfold, !drillDown_concrete by reflexivity;
    cbn; destruct (Float.IsNaN a && Float.IsNaN b); reflexivity.
Qed.

(** C5, amended: the relative tolerance belongs to the older comparator
    only. There, a float [a] and a float [b] that are not equal are
    equivalent as soon as |a - b| <= |a * 1e-10|, all computed in float64,
    whether or not they share their kind. The comparator with the
    duplicate finders compares two floats exactly: they are equivalent if
    and only if they are equal or both NaN. *)
Theorem float_tolerance_only_in_older_comparator (n : nat) (h : heap)
    (ka kb : float_kind) (a b : spec_float) :
  (Float.eqb a b = false →
   Float.leb (Float.Abs (Float.sub a b))
             (Float.Abs (Float.mul a Legacy.floatToleranceFactor)) = true →
   Legacy.areObjectsEquivalent (S n) h (VFloat ka a) (VFloat kb b) = Done true
   ∧ Legacy.IsEquivalent (S n) h (VFloat ka a) (VFloat kb b) = Some true)
  ∧ IsEquivalent (S n) h (VFloat ka a) (VFloat kb b)
    = Some ((Float.IsNaN a && Float.IsNaN b) || Float.eqb a b).
Proof.
  split; [|apply floats_compared_exactly].
  intros Hne Htol.
  assert (Hrun : Legacy.areObjectsEquivalent (S n) h (VFloat ka a) (VFloat kb b) = Done true).
  { destruct ka, kb; cbn; rewrite Hne, Htol;
      destruct (Float.IsNaN a && Float.IsNaN b); reflexivity. }
  split; [exact Hrun|].
  unfold Legacy.IsEquivalent. cbn [Value.IsValid negb andb].
  assert (Hda : Legacy.drillDown (S n) h (VFloat ka a) = Done (VFloat ka a)) by (destruct ka; reflexivity).
  assert (Hdb : Legacy.drillDown (S n) h (VFloat kb b) = Done (VFloat kb b)) by (destruct kb; reflexivity).
  rewrite Hda, Hdb. cbn [bind]. rewrite Hrun. reflexivity.
Qed.

(** 1 and 1 + 2^-52 in the older comparator. *)
Lemma float_tolerance_only_in_older_comparator_witness :
  Legacy.areObjectsEquivalent 1 ∅ (VFloat KFloat64 one) (VFloat KFloat64 one_plus_ulp) = Done true
  ∧ Legacy.IsEquivalent 1 ∅ (VFloat KFloat64 one) (VFloat KFloat64 one_plus_ulp) = Some true.
Proof.
  destruct (float_tolerance_only_in_older_comparator 0 ∅ KFloat64 KFloat64 one one_plus_ulp)
    as [H _].
  apply H; vm_compute; reflexivity.
Defined.

(** ** The test suite of the repository, replayed

    The embedding gives the answers the tests of [equivalence_test.go]
    assert: [TestSameTypesEqual], [TestSameTypesNotEqual], the cross-kind
    tests on 100, [TestBigIntEqual], [TestBigFloatEqual], [TestNotEqual],
    [TestRecursive] and [TestComplex]. *)
Lemma repository_tests_replayed :
  let eq a b := IsEquivalent 6 test_heap a b = Some true in
  let ne a b := IsEquivalent 6 test_heap a b = Some false in
  eq (VPtr (TPtr (TNamed "int")) 0) (VPtr (TPtr (TNamed "int")) 0)
  ∧ eq (VBool true) (VBool true)
  ∧ eq (VComplex KComplex128 (Float.of_Z 10) (Float.of_Z 15))
       (VComplex KComplex128 (Float.of_Z 10) (Float.of_Z 15))
  ∧ eq (VPtr (TPtr TInterface) 6) (VPtr (TPtr TInterface) 6)
  ∧ eq (str "test") (str "test")
  ∧ eq (VSlice bytes_t 7) (VSlice bytes_t 7)
  ∧ eq (VSlice anys_t 9) (VSlice anys_t 9)
  ∧ eq (VArray ints3_t [VInt KInt 1; VInt KInt 2; VInt KInt 3])
       (VArray ints3_t [VInt KInt 1; VInt KInt 2; VInt KInt 3])
  ∧ eq (VMap counts_t 11) (VMap counts_t 11)
  ∧ eq (VStruct MyStruct [VInt KInt 1; str "test"]) (VStruct MyStruct [VInt KInt 1; str "test"])
  ∧ ne (VPtr (TPtr (TNamed "int")) 0) (VPtr (TPtr (TNamed "int")) 13)
  ∧ ne (VBool true) (VBool false)
  ∧ ne (VInt KInt8 100) (VInt KInt8 101)
  ∧ ne (VFloat KFloat32 (Float.of_Z 100)) (VFloat KFloat32 (Float.of_Z 101))
  ∧ ne (VComplex KComplex128 (Float.of_Z 10) (Float.of_Z 15))
       (VComplex KComplex128 (Float.of_Z 11) (Float.of_Z 15))
  ∧ ne (str "test") (str "testing")
  ∧ ne (VSlice bytes_t 7) (VSlice bytes_t 8)
  ∧ ne (VSlice anys_t 9) (VSlice anys_t 10)
  ∧ ne (VArray ints3_t [VInt KInt 1; VInt KInt 2; VInt KInt 3])
       (VArray ints3_t [VInt KInt 1; VInt KInt 2; VInt KInt 1])
  ∧ ne (VMap counts_t 11) (VMap counts_t 12)
  ∧ ne (VStruct MyStruct [VInt KInt 1; str "test"]) (VStruct MyStruct [VInt KInt 2; str "test"])
  ∧ eq (VInt KInt8 100) (VUint KUint64 100)
  ∧ eq (VInt KInt8 100) (VFloat KFloat64 (Float.of_Z 100))
  ∧ eq (VUint KUint16 100) (VInt KInt32 100)
  ∧ eq (VUint KUint 100) (VFloat KFloat32 (Float.of_Z 100))
  ∧ eq (VFloat KFloat32 (Float.of_Z 100)) (VInt KInt 100)
  ∧ eq (VFloat KFloat64 (Float.of_Z 100)) (VUint KUint8 100)
  ∧ eq (VPtr (TPtr bigIntType) 14) (VInt KInt 5)
  ∧ eq (VInt KInt 5) (VPtr (TPtr bigIntType) 14)
  ∧ eq (VPtr (TPtr bigIntType) 19) (VInt KInt (-70))
  ∧ eq (VPtr (TPtr bigIntType) 17) (VPtr (TPtr bigFloatType) 18)
  ∧ eq (VPtr (TPtr bigFloatType) 18) (VPtr (TPtr bigIntType) 17)
  ∧ eq (VPtr (TPtr bigFloatType) 20) (VInt KInt (-70))
  ∧ eq (VInt KInt (-70)) (VPtr (TPtr bigFloatType) 20)
  ∧ eq (VPtr (TPtr bigFloatType) 15) (VFloat KFloat64 float_1454e97)
  ∧ eq (VFloat KFloat64 float_1454e97) (VPtr (TPtr bigFloatType) 15)
  ∧ eq (VPtr (TPtr bigFloatType) 16) (VPtr (TPtr bigFloatType) 16)
  ∧ ne (VInt KInt (-1)) (VUint KUint 1)
  ∧ ne (VUint KUint 1) (VInt KInt (-1))
  ∧ ne (VFloat KFloat64 (Float.div (Float.of_Z 11) (Float.of_Z 10))) (VInt KInt 1)
  ∧ ne (VInt KInt 1) (VFloat KFloat64 (Float.div (Float.of_Z 11) (Float.of_Z 10)))
  ∧ IsEquivalent 6 self_heap self_a self_b = Some true
  ∧ eq test_a test_b.
Proof. cbv zeta. repeat split; vm_compute; reflexivity. Qed.

(** A number that is not negative is rendered alike as a signed and as
    an unsigned integer. *)
Lemma FormatUint_FormatInt (z : Z) : 0 <= z → Strconv.FormatInt z = Strconv.FormatUint z.
Proof.
  intros Hz. unfold Strconv.FormatInt, Strconv.FormatUint.
  destruct (z <? 0) eqn:Hneg; [apply Z.ltb_lt in Hneg; lia|reflexivity].
Qed.

(** X1: an arbitrary-precision integer and a native integer of any
    width that hold the same number are equivalent, in both orders: both
    are rendered by the same decimal routine. *)
Lemma bigint_against_native_integer (n : nat) (h : heap) (z : Z) (v : value) :
  native_integer v → int_of v = Some z →
  IsEquivalent (S n) h (VBigInt z) v = Some true
  ∧ IsEquivalent (S n) h v (VBigInt z) = Some true.
Proof.
  intros Hw Hv.
  assert (Hrun : ∀ c, areObjectsEquivalent h (S n) (VBigInt z) v c = Done (true, c)
                      ∧ areObjectsEquivalent h (S n) v (VBigInt z) c = Done (true, c)).
  { intros [fa fb].
    destruct v as [| |k x|k x| | | | | | | | | | | | | | |]; try discriminate;
      injection Hv as ->.
    - split; rewrite areObjectsEquivalent_unfold, !drillDown_concrete
        by (destruct k; reflexivity); destruct k; cbn;
        unfold isEquivalentToBigInt; cbn; rewrite String.eqb_refl; reflexivity.
    - pose proof (native_unsigned_range _ _ Hw) as Hr.
      split; rewrite areObjectsEquivalent_unfold, !drillDown_concrete
        by (destruct k; reflexivity); destruct k; cbn;
        unfold isEquivalentToBigInt; cbn;
        rewrite (FormatUint_FormatInt z) by lia; rewrite String.eqb_refl; reflexivity. }
  destruct (Hrun newComparator) as [H1 H2].
  split; eapply IsEquivalent_returns; eassumption.
Qed.

(** * Further properties *)

(** ** Termination, stated for a caller *)



(** ** Native integers *)

Lemma int64_small (z : Z) : Int.MinInt64 <= z <= Int.MaxInt64 → Int.int64 z = z.
Proof.
  unfold Int.int64, Int.wrap_signed, Int.MinInt64, Int.MaxInt64. intros Hz.
  rewrite Z.mod_small by lia. lia.
Qed.

Lemma uint64_small (z : Z) : 0 <= z < 2 ^ 64 → Int.uint64 z = z.
Proof. unfold Int.uint64, Int.wrap_unsigned. intros Hz. apply Z.mod_small. lia. Qed.

Lemma bit60_clear (z : Z) : 0 <= z < 2 ^ 60 → Z.testbit z 60 = false.
Proof.
  intros Hz. destruct (Z.eq_dec z 0) as [->|Hne]; [reflexivity|].
  apply Z.bits_above_log2; [lia|]. apply Z.log2_lt_pow2; lia.
Qed.

(** The comparison of two scalars that are passed as such: one step,
    and the comparator is left as it was. *)
Lemma IsEquivalent_signed (n : nat) (h : heap) (k : int_kind) (a : Z) (b : value) :
  concrete b = true → Value.IsValid b = true →
  IsEquivalent (S n) h (VInt k a) b = Some (isEquivalentToInt a b).
Proof.
  intros Hc Hv. unfold IsEquivalent. cbn [Value.IsValid negb andb].
  rewrite areObjectsEquivalent_unfold.
  rewrite (drillDown_concrete h n _ (VInt k a)) by (destruct k; reflexivity).
  cbn [bind aFinder bFinder newComparator]. rewrite (drillDown_concrete h n _ b Hc).
  cbn [bind]. rewrite Hv. destruct k; reflexivity.
Qed.

Lemma IsEquivalent_unsigned (n : nat) (h : heap) (k : uint_kind) (a : Z) (b : value) :
  concrete b = true → Value.IsValid b = true →
  IsEquivalent (S n) h (VUint k a) b = Some (isEquivalentToUint a b).
Proof.
  intros Hc Hv. unfold IsEquivalent. cbn [Value.IsValid negb andb].
  rewrite areObjectsEquivalent_unfold.
  rewrite (drillDown_concrete h n _ (VUint k a)) by (destruct k; reflexivity).
  cbn [bind aFinder bFinder newComparator]. rewrite (drillDown_concrete h n _ b Hc).
  cbn [bind]. rewrite Hv. destruct k; reflexivity.
Qed.

Lemma IsEquivalent_float (n : nat) (h : heap) (k : float_kind) (a : spec_float) (b : value) :
  concrete b = true → Value.IsValid b = true →
  IsEquivalent (S n) h (VFloat k a) b = Some (isEquivalentToFloat a b).
Proof.
  intros Hc Hv. unfold IsEquivalent. cbn [Value.IsValid negb andb].
  rewrite areObjectsEquivalent_unfold.
  rewrite (drillDown_concrete h n _ (VFloat k a)) by (destruct k; reflexivity).
  cbn [bind aFinder bFinder newComparator]. rewrite (drillDown_concrete h n _ b Hc).
  cbn [bind]. rewrite Hv. destruct k; reflexivity.
Qed.

(** X3: two native integers are compared by their numbers, whatever
    their widths: signed against signed, unsigned against unsigned, and
    an unsigned left operand against a signed right one; a signed left
    operand against an unsigned right one as well, as long as the right
    number is below 2^60. *)
Theorem native_integers_compared_by_value (n : nat) (h : heap) (a b : Z) :
  (∀ k k', IsEquivalent (S n) h (VInt k a) (VInt k' b) = Some (a =? b))
  ∧ (∀ k k', IsEquivalent (S n) h (VUint k a) (VUint k' b) = Some (a =? b))
  ∧ (∀ k k', 0 <= a → Int.MinInt64 <= b <= Int.MaxInt64 →
       IsEquivalent (S n) h (VUint k a) (VInt k' b) = Some (a =? b))
  ∧ (∀ k k', 0 <= b < 2 ^ 60 →
       IsEquivalent (S n) h (VInt k a) (VUint k' b) = Some (a =? b)).
Proof.
  split; [|split; [|split]].
  - intros k k'. rewrite IsEquivalent_signed by reflexivity.
    cbn [isEquivalentToInt]. rewrite Z.eqb_sym. reflexivity.
  - intros k k'. rewrite IsEquivalent_unsigned by reflexivity. reflexivity.
  - intros k k' Ha Hb. rewrite IsEquivalent_unsigned by reflexivity.
    cbn [isEquivalentToUint]. destruct (b <? 0) eqn:Hneg.
    + apply Z.ltb_lt in Hneg. symmetry. f_equal. apply Z.eqb_neq. lia.
    + apply Z.ltb_ge in Hneg. rewrite uint64_small; [reflexivity|].
      unfold Int.MaxInt64 in Hb. lia.
  - intros k k' Hb. rewrite IsEquivalent_signed by reflexivity.
    rewrite isEquivalentToInt_unsigned, bit60_clear by exact Hb.
    rewrite int64_small; [reflexivity|]. unfold Int.MinInt64, Int.MaxInt64. lia.
Qed.

Lemma native_integers_compared_by_value_witness :
  IsEquivalent 1 ∅ (VUint KUint8 200) (VInt KInt64 200) = Some true
  ∧ IsEquivalent 1 ∅ (VUint KUint8 200) (VInt KInt64 (-56)) = Some false
  ∧ IsEquivalent 1 ∅ (VInt KInt16 7) (VUint KUint64 7) = Some true.
Proof.
  destruct (native_integers_compared_by_value 0 ∅ 200 200) as (_ & _ & H3 & _).
  destruct (native_integers_compared_by_value 0 ∅ 200 (-56)) as (_ & _ & H3' & _).
  destruct (native_integers_compared_by_value 0 ∅ 7 7) as (_ & _ & _ & H4).
  split; [|split].
  - apply (H3 KUint8 KInt64); unfold Int.MinInt64, Int.MaxInt64; lia.
  - apply (H3' KUint8 KInt64); unfold Int.MinInt64, Int.MaxInt64; lia.
  - apply (H4 KInt16 KUint64); lia.
Defined.

(** ** Floats against integers *)

Lemma SFcompare_Eq_sym (a b : spec_float) :
  SFcompare a b = Some Eq → SFcompare b a = Some Eq.
Proof.
  destruct a as [sa|sa| |sa ma ea], b as [sb|sb| |sb mb eb]; simpl; try discriminate;
    try (destruct sa; discriminate); try (destruct sb; discriminate);
    try (destruct sa, sb; (discriminate || reflexivity)).
  destruct sa, sb; try discriminate.
  - destruct (ea ?= eb) eqn:He; try discriminate. intros Hm.
    apply Z.compare_eq in He as ->. rewrite Z.compare_refl.
    destruct (Pos.compare_cont Eq ma mb) eqn:Hc; try discriminate.
    apply Pos.compare_eq in Hc as ->. rewrite Pos.compare_cont_refl. reflexivity.
  - destruct (ea ?= eb) eqn:He; try discriminate. intros Hm.
    apply Z.compare_eq in He as ->. rewrite Z.compare_refl.
    destruct (Pos.compare_cont Eq ma mb) eqn:Hc; try discriminate.
    apply Pos.compare_eq in Hc as ->. rewrite Pos.compare_cont_refl. reflexivity.
Qed.

Lemma eqb_sym (a b : spec_float) : Float.eqb a b = Float.eqb b a.
Proof.
  unfold Float.eqb, SFeqb.
  destruct (SFcompare a b) as [[| |]|] eqn:Hab.
  - rewrite (SFcompare_Eq_sym a b Hab). reflexivity.
  - destruct (SFcompare b a) as [[| |]|] eqn:Hba; try reflexivity.
    rewrite (SFcompare_Eq_sym b a Hba) in Hab. discriminate.
  - destruct (SFcompare b a) as [[| |]|] eqn:Hba; try reflexivity.
    rewrite (SFcompare_Eq_sym b a Hba) in Hab. discriminate.
  - destruct (SFcompare b a) as [[| |]|] eqn:Hba; try reflexivity.
    rewrite (SFcompare_Eq_sym b a Hba) in Hab. discriminate.
Qed.

(** [a == b] holds between identical floats and between the two zeros,
    and between nothing else. *)
Lemma eqb_true (a b : spec_float) :
  Float.eqb a b = true →
  (a = b ∧ a ≠ S754_nan) ∨ (∃ s s', a = S754_zero s ∧ b = S754_zero s').
Proof.
  unfold Float.eqb, SFeqb.
  destruct a as [sa|sa| |sa ma ea], b as [sb|sb| |sb mb eb]; simpl; try discriminate;
    try (destruct sa; discriminate); try (destruct sb; discriminate).
  - intros _. right. eauto.
  - destruct sa, sb; try discriminate; intros _; left; split; congruence.
  - destruct sa, sb; try discriminate.
    + destruct (ea ?= eb) eqn:He; try discriminate.
      destruct (Pos.compare_cont Eq ma mb) eqn:Hc; try discriminate. intros _.
      apply Z.compare_eq in He as ->. apply Pos.compare_eq in Hc as ->.
      left. split; congruence.
    + destruct (ea ?= eb) eqn:He; try discriminate.
      destruct (Pos.compare_cont Eq ma mb) eqn:Hc; try discriminate. intros _.
      apply Z.compare_eq in He as ->. apply Pos.compare_eq in Hc as ->.
      left. split; congruence.
Qed.

Lemma eqb_refl (a : spec_float) : a ≠ S754_nan → Float.eqb a a = true.
Proof.
  unfold Float.eqb, SFeqb. destruct a as [sa|sa| |sa ma ea]; simpl; try congruence.
  - destruct sa; reflexivity.
  - intros _. destruct sa; rewrite Z.compare_refl, Pos.compare_cont_refl; reflexivity.
Qed.

Lemma eqb_nan_r (a : spec_float) : Float.eqb a Float.NaN = false.
Proof. destruct a as [s|s| |s m e]; reflexivity. Qed.

Lemma eqb_nan_l (a : spec_float) : Float.eqb Float.NaN a = false.
Proof. reflexivity. Qed.

(** The rounding of a number that is not negative is not negative. *)
Lemma binary_round_aux_sign (prec emax : Z) (mx ex : Z) (lx : location) :
  not_negative (binary_round_aux prec emax false mx ex lx).
Proof.
  unfold binary_round_aux.
  destruct (shr_fexp prec emax mx ex lx) as [mrs' e'].
  destruct (shr_fexp prec emax _ e' loc_Exact) as [mrs'' e''].
  destruct (shr_m mrs''); simpl; auto.
  destruct (_ <=? _); simpl; auto.
Qed.

Lemma of_Z_sign (z : Z) : 0 <= z → not_negative (Float.of_Z z).
Proof.
  intros Hz. unfold Float.of_Z, binary_normalize. destruct z as [|p|p]; [exact I| |lia].
  unfold binary_round. destruct (shl_align _ _ _) as [mz ez]. apply binary_round_aux_sign.
Qed.

Lemma negative_not_eqb (f g : spec_float) :
  Float.ltb f (Float.of_Z 0) = true → not_negative g → Float.eqb f g = false.
Proof.
  unfold Float.ltb, Float.eqb, SFltb, SFeqb, Float.of_Z. simpl.
  destruct f as [s|s| |s m e]; simpl; try discriminate.
  - destruct s; try discriminate. intros _.
    destruct g as [s'|s'| |s' m' e']; simpl; intros Hg; subst; reflexivity.
  - destruct s; try discriminate. intros _.
    destruct g as [s'|s'| |s' m' e']; simpl; intros Hg; subst; reflexivity.
Qed.

Lemma isEquivalentToInt_float_sym (i : Z) (kf : float_kind) (k : int_kind) (f : spec_float) :
  isEquivalentToInt i (VFloat kf f) = isEquivalentToFloat f (VInt k i).
Proof.
  cbn [isEquivalentToInt isEquivalentToFloat].
  rewrite (eqb_sym f), (Z.eqb_sym i), andb_comm. reflexivity.
Qed.

Lemma isEquivalentToUint_float_sym (u : Z) (kf : float_kind) (k : uint_kind) (f : spec_float) :
  0 <= u → isEquivalentToUint u (VFloat kf f) = isEquivalentToFloat f (VUint k u).
Proof.
  intros Hu. cbn [isEquivalentToUint isEquivalentToFloat].
  destruct (Float.ltb f (Float.of_Z 0)) eqn:Hneg.
  - rewrite (negative_not_eqb f (Float.of_Z u) Hneg (of_Z_sign u Hu)). reflexivity.
  - rewrite (eqb_sym f), (Z.eqb_sym u), andb_comm. reflexivity.
Qed.

Lemma isEquivalentToFloat_float_sym (f g : spec_float) (kf kg : float_kind) :
  isEquivalentToFloat f (VFloat kg g) = isEquivalentToFloat g (VFloat kf f).
Proof.
  cbn [isEquivalentToFloat]. rewrite (andb_comm (Float.IsNaN f)), (eqb_sym f). reflexivity.
Qed.

(** X4: a comparison in which a float takes part gives the same answer
    when the two operands are exchanged: float against signed integer,
    float against unsigned integer, float against float. *)
Theorem float_comparisons_symmetric (n : nat) (h : heap) (kf : float_kind) (f : spec_float) :
  (∀ k i, IsEquivalent (S n) h (VInt k i) (VFloat kf f)
          = IsEquivalent (S n) h (VFloat kf f) (VInt k i))
  ∧ (∀ k u, 0 <= u →
       IsEquivalent (S n) h (VUint k u) (VFloat kf f)
       = IsEquivalent (S n) h (VFloat kf f) (VUint k u))
  ∧ (∀ kg g, IsEquivalent (S n) h (VFloat kg g) (VFloat kf f)
             = IsEquivalent (S n) h (VFloat kf f) (VFloat kg g)).
Proof.
  split; [|split].
  - intros k i. rewrite IsEquivalent_signed, IsEquivalent_float by reflexivity.
    rewrite (isEquivalentToInt_float_sym i kf k f). reflexivity.
  - intros k u Hu. rewrite IsEquivalent_unsigned, IsEquivalent_float by reflexivity.
    rewrite (isEquivalentToUint_float_sym u kf k f Hu). reflexivity.
  - intros kg g. rewrite !IsEquivalent_float by reflexivity.
    rewrite (isEquivalentToFloat_float_sym g f kg kf). reflexivity.
Qed.

Lemma float_comparisons_symmetric_witness :
  IsEquivalent 1 ∅ (VUint KUint8 3) (VFloat KFloat64 (Float.of_Z (-3)))
  = IsEquivalent 1 ∅ (VFloat KFloat64 (Float.of_Z (-3))) (VUint KUint8 3).
Proof.
  apply (proj1 (proj2 (float_comparisons_symmetric 0 ∅ KFloat64 (Float.of_Z (-3))))). lia.
Defined.

Lemma of_Z_MinInt64_finite :
  Float.of_Z Int.MinInt64 = S754_finite true 4503599627370496 11.
Proof. vm_compute. reflexivity. Qed.

Lemma to_int64_irregular (f : spec_float) :
  Float.trunc f = None → Float.to_int64 f = Int.MinInt64.
Proof. unfold Float.to_int64. intros ->. reflexivity. Qed.

(** What [float64(i) == f && int64(f) == i] amounts to. *)
Lemma signed_float_agree (i : Z) (f : spec_float) :
  (i =? Float.to_int64 f) && Float.eqb (Float.of_Z i) f = true ↔
  (f = Float.of_Z i ∨ (i = 0 ∧ f = S754_zero true)) ∧ Float.to_int64 (Float.of_Z i) = i.
Proof.
  split.
  - intros H. apply andb_true_iff in H as [Hi He]. apply Z.eqb_eq in Hi.
    apply eqb_true in He as [[He _]|(s & s' & Hz & Hf)].
    + subst f. split; [left; reflexivity|]. symmetry. exact Hi.
    + subst f. assert (Hi0 : i = 0) by (rewrite Hi; reflexivity). subst i.
      split; [|reflexivity]. destruct s'; [right; split; reflexivity|left; reflexivity].
  - intros [[Hf|[Hi Hf]] Hr].
    + subst f. rewrite Hr, Z.eqb_refl. cbn [andb]. apply eqb_refl.
      intros Hnan. rewrite Hnan in Hr. cbn in Hr. subst i.
      rewrite of_Z_MinInt64_finite in Hnan. discriminate.
    + subst i f. reflexivity.
Qed.

(** X5: a signed integer and a float are equivalent, in either order,
    exactly when the float is the conversion of the integer (or the
    negative zero, for 0) and the conversion back gives the integer
    again: an integer that float64 cannot hold is equivalent to no
    float. *)
Theorem integer_equivalent_to_its_float_only (n : nat) (h : heap)
    (k : int_kind) (kf : float_kind) (i : Z) (f : spec_float) :
  (IsEquivalent (S n) h (VInt k i) (VFloat kf f) = Some true ↔
   (f = Float.of_Z i ∨ (i = 0 ∧ f = S754_zero true)) ∧ Float.to_int64 (Float.of_Z i) = i)
  ∧ (IsEquivalent (S n) h (VFloat kf f) (VInt k i) = Some true ↔
     (f = Float.of_Z i ∨ (i = 0 ∧ f = S754_zero true)) ∧ Float.to_int64 (Float.of_Z i) = i)
  ∧ (Float.to_int64 (Float.of_Z i) ≠ i →
     IsEquivalent (S n) h (VInt k i) (VFloat kf f) = Some false
     ∧ IsEquivalent (S n) h (VFloat kf f) (VInt k i) = Some false).
Proof.
  assert (Hrun : IsEquivalent (S n) h (VInt k i) (VFloat kf f)
                 = Some ((i =? Float.to_int64 f) && Float.eqb (Float.of_Z i) f)).
  { rewrite IsEquivalent_signed by reflexivity. reflexivity. }
  assert (Hback : IsEquivalent (S n) h (VFloat kf f) (VInt k i)
                  = Some ((i =? Float.to_int64 f) && Float.eqb (Float.of_Z i) f)).
  { rewrite IsEquivalent_float by reflexivity.
    rewrite <- (isEquivalentToInt_float_sym i kf k f). reflexivity. }
  rewrite Hrun, Hback.
  assert (Hiff : Some ((i =? Float.to_int64 f) && Float.eqb (Float.of_Z i) f) = Some true ↔
                 (f = Float.of_Z i ∨ (i = 0 ∧ f = S754_zero true))
                 ∧ Float.to_int64 (Float.of_Z i) = i).
  { rewrite <- signed_float_agree. split; [intros [= ->]; reflexivity|intros ->; reflexivity]. }
  split; [exact Hiff|]. split; [exact Hiff|].
  intros Hne.
  assert (Hf : (i =? Float.to_int64 f) && Float.eqb (Float.of_Z i) f = false).
  { apply not_true_is_false. intros Ht. apply signed_float_agree in Ht as [_ Hr]. contradiction. }
  rewrite Hf. split; reflexivity.
Qed.

(** 2^53 + 1 is not a float64: it is equivalent to no float, not even
    to its own conversion. *)
Lemma integer_equivalent_to_its_float_only_witness :
  Float.to_int64 (Float.of_Z (2 ^ 53 + 1)) ≠ 2 ^ 53 + 1
  ∧ IsEquivalent 1 ∅ (VInt KInt64 (2 ^ 53 + 1)) (VFloat KFloat64 (Float.of_Z (2 ^ 53 + 1)))
    = Some false.
Proof.
  assert (Hne : Float.to_int64 (Float.of_Z (2 ^ 53 + 1)) ≠ 2 ^ 53 + 1)
    by (vm_compute; discriminate).
  split; [exact Hne|].
  exact (proj1 (proj2 (proj2 (integer_equivalent_to_its_float_only 0 ∅ KInt64 KFloat64
                                (2 ^ 53 + 1) (Float.of_Z (2 ^ 53 + 1)))) Hne)).
Defined.

(** X6: among the native numbers a NaN is equivalent to the NaNs and
    to nothing else, in either order and in both comparators of the
    repository. *)
Theorem nan_equivalent_to_nan_only (n : nat) (h : heap) (kf : float_kind) :
  (∀ kg g, IsEquivalent (S n) h (VFloat kf Float.NaN) (VFloat kg g) = Some (Float.IsNaN g)
           ∧ IsEquivalent (S n) h (VFloat kg g) (VFloat kf Float.NaN) = Some (Float.IsNaN g))
  ∧ (∀ k i, IsEquivalent (S n) h (VFloat kf Float.NaN) (VInt k i) = Some false
            ∧ IsEquivalent (S n) h (VInt k i) (VFloat kf Float.NaN) = Some false)
  ∧ (∀ k u, IsEquivalent (S n) h (VFloat kf Float.NaN) (VUint k u) = Some false
            ∧ IsEquivalent (S n) h (VUint k u) (VFloat kf Float.NaN) = Some false)
  ∧ (∀ kg g, Legacy.IsEquivalent (S n) h (VFloat kf Float.NaN) (VFloat kg g)
             = Some (Float.IsNaN g)).
Proof.
  split; [|split; [|split]].
  - intros kg g. rewrite !IsEquivalent_float by reflexivity. cbn [isEquivalentToFloat].
    split; [destruct g; reflexivity|].
    rewrite andb_true_r, eqb_nan_r. destruct (Float.IsNaN g); reflexivity.
  - intros k i. rewrite IsEquivalent_float, IsEquivalent_signed by reflexivity.
    cbn [isEquivalentToFloat isEquivalentToInt]. rewrite eqb_nan_r, andb_false_r.
    split; reflexivity.
  - intros k u. rewrite IsEquivalent_float, IsEquivalent_unsigned by reflexivity.
    cbn [isEquivalentToFloat isEquivalentToUint]. rewrite eqb_nan_r, andb_false_r.
    split; reflexivity.
  - intros kg g. unfold Legacy.IsEquivalent. cbn [Value.IsValid negb andb].
    assert (Hda : Legacy.drillDown (S n) h (VFloat kf Float.NaN) = Done (VFloat kf Float.NaN))
      by (destruct kf; reflexivity).
    assert (Hdb : Legacy.drillDown (S n) h (VFloat kg g) = Done (VFloat kg g))
      by (destruct kg; reflexivity).
    rewrite Hda, Hdb. cbn [bind].
    destruct kf, kg; cbn; destruct g; reflexivity.
Qed.

(** ** Loops that succeed *)

Lemma comparator_eta (c : comparator) : {| aFinder := aFinder c; bFinder := bFinder c |} = c.
Proof. destruct c; reflexivity. Qed.

(** A loop whose every round succeeds and leaves the comparator alone. *)
Lemma forEach_all {X} (body : X → comparator → outcome (bool * comparator))
    (xs : list X) (c : comparator) :
  (∀ x, x ∈ xs → body x c = Done (true, c)) → forEach body xs c = Done (true, c).
Proof.
  induction xs as [|x xs IH]; intros Hb; [reflexivity|].
  simpl. rewrite (Hb x) by left. cbn [bind]. apply IH. intros y Hy. apply Hb. right. exact Hy.
Qed.

Lemma at_index_inside {A} (xs : list A) (i : Z) :
  0 <= i < Z.of_nat (length xs) → ∃ x, Value.at_index xs i = Done x ∧ xs !! Z.to_nat i = Some x.
Proof.
  intros Hi. unfold Value.at_index.
  destruct (i <? 0) eqn:Hneg; [apply Z.ltb_lt in Hneg; lia|].
  destruct (xs !! Z.to_nat i) as [x|] eqn:Hx; [eauto|].
  apply lookup_ge_None in Hx. lia.
Qed.

Lemma elem_of_seqZ_0 (i len : Z) : i ∈ seqZ 0 len → 0 <= i < len.
Proof. intros Hi. apply elem_of_seqZ in Hi. lia. Qed.

(** ** Sequences of scalars *)

Lemma scalar_concrete (v : value) : scalar v = true → concrete v = true.
Proof. destruct v; simpl; congruence. Qed.

Lemma scalar_valid (v : value) : scalar v = true → Value.IsValid v = true.
Proof. destruct v; simpl; congruence. Qed.

(** A scalar is rendered, and printed, at once. *)
Lemma numericToString_scalar (h : heap) (n : nat) (y : value) :
  scalar y = true → numericToString h (S n) y = numericToString ∅ 1 y.
Proof. destruct y as [| |[]|[]| |[]|[]| | | | | | | | | | | |]; try discriminate; reflexivity. Qed.

Lemma numericToString_scalar_Done (y : value) :
  scalar y = true → ∃ s, numericToString ∅ 1 y = Done s.
Proof.
  destruct y as [| |[]|[]| |[]|[]| | | | | | | | | | | |]; try discriminate; intros _;
    eexists; reflexivity.
Qed.

(** The comparison of two scalars does not depend on the heap, on the
    fuel or on the finders, and leaves the finders as they are. *)
Lemma scalar_run (h : heap) (n : nat) (x y : value) (c : comparator) :
  scalar x = true → scalar y = true →
  areObjectsEquivalent h (S n) x y c =
    match areObjectsEquivalent ∅ 1 x y newComparator with
    | Done (r, _) => Done (r, c)
    | Fault => Fault
    | Stuck => Stuck
    | Timeout => Timeout
    end.
Proof.
  intros Hx Hy.
  rewrite !areObjectsEquivalent_unfold.
  rewrite !(drillDown_concrete _ _ _ x (scalar_concrete x Hx)). cbn [bind].
  rewrite !(drillDown_concrete _ _ _ y (scalar_concrete y Hy)). cbn [bind orb]. cbv zeta.
  rewrite (scalar_valid x Hx), (scalar_valid y Hy). cbn [negb orb].
  rewrite comparator_eta.
  destruct x as [|b0|k x|k x|x|k x|k re im|t s|t xs|t p|t p|t p|d|t fs|z|prec z|t p q|t p|p];
    try discriminate.
  - cbn. destruct (Value.Bool y); reflexivity.
  - destruct k; reflexivity.
  - destruct k; reflexivity.
  - destruct k; reflexivity.
  - destruct k; cbn; destruct (Value.Complex y); reflexivity.
  - cbn. destruct (Value.TypeOf y); reflexivity.
  - cbn [Value.Kind]. unfold areStructsEquivalent, isEquivalentToBigInt.
    rewrite (numericToString_scalar h n y Hy).
    destruct (numericToString ∅ 1 y); reflexivity.
  - cbn [Value.Kind]. unfold areStructsEquivalent, isEquivalentToBigFloat.
    rewrite (numericToString_scalar h n y Hy).
    destruct (numericToString ∅ 1 y); reflexivity.
Qed.

Lemma scalar_step (h : heap) (n : nat) (x y : value) (c : comparator) :
  scalar x = true → scalar y = true →
  areObjectsEquivalent h (S n) x y c = Done (equivalent_pair x y, c)
  ∨ (areObjectsEquivalent h (S n) x y c = Fault ∧ equivalent_pair x y = false).
Proof.
  intros Hx Hy. rewrite (scalar_run h n x y c Hx Hy).
  unfold equivalent_pair, IsEquivalent. rewrite (scalar_valid x Hx). cbn [negb andb].
  destruct (areObjectsEquivalent ∅ 1 x y newComparator) as [[r c']| | |] eqn:Hrun.
  - left. destruct r; reflexivity.
  - right. split; reflexivity.
  - exfalso. rewrite (scalar_run ∅ 0 x y newComparator Hx Hy) in Hrun.
    revert Hrun. rewrite !areObjectsEquivalent_unfold.
    rewrite !(drillDown_concrete _ _ _ x (scalar_concrete x Hx)). cbn [bind].
    rewrite !(drillDown_concrete _ _ _ y (scalar_concrete y Hy)). cbn [bind orb]. cbv zeta.
    rewrite (scalar_valid x Hx), (scalar_valid y Hy). cbn [negb orb].
    destruct x as [|b0|k x|k x|x|k x|k re im|t s|t xs|t p|t p|t p|d|t fs|z|prec z|t p q|t p|p];
      try discriminate; try (destruct k; discriminate).
    + cbn. destruct y; discriminate.
    + destruct k; cbn; destruct y; discriminate.
    + cbn. destruct y as [| |[]|[]| |[]|[]| | | | | | | | | | | |]; discriminate.
    + cbn [Value.Kind]. unfold areStructsEquivalent, isEquivalentToBigInt.
      destruct (numericToString_scalar_Done y Hy) as [text ->]. discriminate.
    + cbn [Value.Kind]. unfold areStructsEquivalent, isEquivalentToBigFloat.
      destruct (numericToString_scalar_Done y Hy) as [text ->]. discriminate.
  - exfalso. revert Hrun. rewrite !areObjectsEquivalent_unfold.
    rewrite !(drillDown_concrete _ _ _ x (scalar_concrete x Hx)). cbn [bind].
    rewrite !(drillDown_concrete _ _ _ y (scalar_concrete y Hy)). cbn [bind orb]. cbv zeta.
    rewrite (scalar_valid x Hx), (scalar_valid y Hy). cbn [negb orb].
    destruct x as [|b0|k x|k x|x|k x|k re im|t s|t xs|t p|t p|t p|d|t fs|z|prec z|t p q|t p|p];
      try discriminate; try (destruct k; discriminate).
    + cbn. destruct y; discriminate.
    + destruct k; cbn; destruct y; discriminate.
    + cbn. destruct y as [| |[]|[]| |[]|[]| | | | | | | | | | | |]; discriminate.
    + cbn [Value.Kind]. unfold areStructsEquivalent, isEquivalentToBigInt.
      destruct (numericToString_scalar_Done y Hy) as [text ->]. discriminate.
    + cbn [Value.Kind]. unfold areStructsEquivalent, isEquivalentToBigFloat.
      destruct (numericToString_scalar_Done y Hy) as [text ->]. discriminate.
Qed.

Lemma bytes_length (s : string) :
  length (Value.byte_of <$> list_ascii_of_string s) = String.length s.
Proof.
  rewrite length_fmap. induction s as [|a s IH]; [reflexivity|]. simpl. f_equal. exact IH.
Qed.

Lemma elements_Len (h : heap) (v : value) (xs : list value) :
  elements h v = Some xs → Value.Len h v = Done (Z.of_nat (length xs)).
Proof.
  destruct v; try discriminate; simpl.
  - intros [= <-]. rewrite bytes_length. reflexivity.
  - intros [= <-]. reflexivity.
  - destruct (Value.backing h data) as [ys| | |]; try discriminate. intros [= <-]. reflexivity.
Qed.

Lemma elements_Index (h : heap) (v : value) (xs : list value) (i : Z) :
  elements h v = Some xs → Value.Index h v i = Value.at_index xs i.
Proof.
  destruct v; try discriminate; simpl.
  - intros [= <-]. reflexivity.
  - intros [= <-]. reflexivity.
  - destruct (Value.backing h data) as [ys| | |]; try discriminate. intros [= <-]. reflexivity.
Qed.

Lemma at_index_app {A} (pre xs : list A) (x : A) :
  Value.at_index (pre ++ x :: xs) (Z.of_nat (length pre)) = Done x.
Proof.
  unfold Value.at_index.
  destruct (Z.of_nat (length pre) <? 0) eqn:Hneg; [apply Z.ltb_lt in Hneg; lia|].
  rewrite Nat2Z.id, list_lookup_middle by reflexivity. reflexivity.
Qed.

(** The loop over the indices of two sequences of scalars of one length:
    it answers what the pairs answer, taken together. *)
Lemma pairs_loop (h : heap) (n : nat) (a b : value) (c : comparator) :
  ∀ xs ys pa pb,
    length pa = length pb → length xs = length ys →
    elements h a = Some (pa ++ xs) → elements h b = Some (pb ++ ys) →
    forallb scalar xs = true → forallb scalar ys = true →
    let run := forEach (fun i c =>
                          let* ai := Value.Index h a i in
                          let* bi := Value.Index h b i in
                          areObjectsEquivalent h (S n) ai bi c)
                       (seqZ (Z.of_nat (length pa)) (Z.of_nat (length xs))) c in
    run = Done (all_pairs equivalent_pair xs ys, c)
    ∨ (run = Fault ∧ all_pairs equivalent_pair xs ys = false).
Proof.
  induction xs as [|x xs IH]; intros ys pa pb Hp Hl Ha Hb Hsx Hsy; cbv zeta.
  - destruct ys; [|discriminate]. left. reflexivity.
  - destruct ys as [|y ys]; [discriminate|].
    cbn [length]. rewrite Nat2Z.inj_succ, seqZ_cons by lia.
    cbn [forEach].
    rewrite (elements_Index h a _ _ Ha), (elements_Index h b _ _ Hb).
    assert (Hy0 : Value.at_index (pb ++ y :: ys) (Z.of_nat (length pa)) = Done y)
      by (rewrite Hp; apply at_index_app).
    rewrite at_index_app, Hy0. cbn [bind].
    cbn [forallb] in Hsx, Hsy.
    apply andb_true_iff in Hsx as [Hx Hsx]. apply andb_true_iff in Hsy as [Hy Hsy].
    cbn [all_pairs].
    destruct (scalar_step h n x y c Hx Hy) as [Hrun|[Hrun Hne]]; rewrite Hrun; cbn [bind].
    + destruct (equivalent_pair x y); [|left; reflexivity]. cbn [andb].
      replace (Z.succ (Z.of_nat (length pa))) with (Z.of_nat (length (pa ++ [x])))
        by (rewrite length_app; simpl; lia).
      replace (Z.pred (Z.succ (Z.of_nat (length xs)))) with (Z.of_nat (length xs)) by lia.
      apply (IH ys (pa ++ [x]) (pb ++ [y])).
      * rewrite !length_app, Hp. reflexivity.
      * injection Hl as Hl. exact Hl.
      * rewrite <- app_assoc. exact Ha.
      * rewrite <- app_assoc. exact Hb.
      * exact Hsx.
      * exact Hsy.
    + right. rewrite Hne. split; reflexivity.
Qed.

Lemma all_pairs_length (f : value → value → bool) (xs ys : list value) :
  length xs ≠ length ys → all_pairs f xs ys = false.
Proof.
  revert ys. induction xs as [|x xs IH]; intros [|y ys] Hl; simpl in *; try congruence.
  rewrite IH by congruence. apply andb_false_r.
Qed.

(** Two sequences of scalars, once both walks are over. *)
Lemma sequences_run (h : heap) (n : nat) (a b : value) (xs ys : list value) (c : comparator) :
  elements h a = Some xs → elements h b = Some ys →
  forallb scalar xs = true → forallb scalar ys = true →
  let run := areArraysOrSlicesEquivalent h (areObjectsEquivalent h (S n)) a b c in
  run = Done (all_pairs equivalent_pair xs ys, c)
  ∨ (run = Fault ∧ all_pairs equivalent_pair xs ys = false).
Proof.
  intros Ha Hb Hsx Hsy. cbv zeta. unfold areArraysOrSlicesEquivalent.
  rewrite (elements_Len h a xs Ha), (elements_Len h b ys Hb). cbn [bind].
  destruct (Z.of_nat (length xs) =? Z.of_nat (length ys)) eqn:Hl; cbn [negb].
  - apply Z.eqb_eq in Hl.
    apply (pairs_loop h n a b c xs ys [] []); auto. lia.
  - apply Z.eqb_neq in Hl. left. rewrite all_pairs_length by lia. reflexivity.
Qed.

(** X7: an array or slice of scalars against an array, slice or string
    of scalars: the answer is the conjunction of the answers for the
    elements at equal positions, and [false] when the lengths differ; the
    kinds of the two containers and their declared types play no part. *)
Theorem sequences_compared_position_by_position (n : nat) (h : heap) (a b : value)
    (xs ys : list value) :
  Value.Kind a = reflect.Array ∨ Value.Kind a = reflect.Slice →
  elements h a = Some xs → elements h b = Some ys →
  forallb scalar xs = true → forallb scalar ys = true →
  IsEquivalent (S (S n)) h a b = Some (all_pairs equivalent_pair xs ys).
Proof.
  intros Hk Ha Hb Hsx Hsy.
  assert (Hvb : Value.IsValid b = true) by (destruct b; try discriminate; reflexivity).
  assert (Hcb : concrete b = true) by (destruct b; try discriminate; reflexivity).
  assert (Hva : Value.IsValid a = true) by (destruct a; try discriminate; reflexivity).
  assert (Hca : concrete a = true) by (destruct a; try discriminate; reflexivity).
  unfold IsEquivalent. rewrite Hva. cbn [negb andb].
  rewrite areObjectsEquivalent_unfold.
  rewrite (drillDown_concrete h _ _ a Hca). cbn [bind].
  rewrite (drillDown_concrete h _ _ b Hcb). cbn [bind orb]. cbv zeta.
  rewrite Hva, Hvb. cbn [negb orb aFinder bFinder newComparator].
  destruct Hk as [Hk|Hk]; rewrite Hk.
  - destruct (sequences_run h n a b xs ys {| aFinder := ∅; bFinder := ∅ |} Ha Hb Hsx Hsy)
      as [->|[-> ->]]; reflexivity.
  - destruct a; try discriminate. unfold RegisterPointer. cbn [Value.Pointer bind].
    rewrite bool_decide_eq_false_2 by set_solver. cbv zeta.
    destruct (sequences_run h n (VSlice t data) b xs ys
                {| aFinder := {[data]} ∪ ∅; bFinder := ∅ |} Ha Hb Hsx Hsy)
      as [->|[-> ->]]; reflexivity.
Qed.

(** [[3]int{1, 2, 3}] against [[]uint8{1, 2, 3}]. *)
Lemma sequences_compared_position_by_position_witness :
  IsEquivalent 2 (<[1 := CArr [VUint KUint8 1; VUint KUint8 2; VUint KUint8 3]]> ∅)
    (VArray (TArray 3 (TNamed "int")) [VInt KInt 1; VInt KInt 2; VInt KInt 3])
    (VSlice (TSlice (TNamed "uint8")) 1)
  = Some true.
Proof.
  apply (sequences_compared_position_by_position 0
           (<[1 := CArr [VUint KUint8 1; VUint KUint8 2; VUint KUint8 3]]> ∅)
           (VArray (TArray 3 (TNamed "int")) [VInt KInt 1; VInt KInt 2; VInt KInt 3])
           (VSlice (TSlice (TNamed "uint8")) 1)
           [VInt KInt 1; VInt KInt 2; VInt KInt 3]
           [VUint KUint8 1; VUint KUint8 2; VUint KUint8 3]).
  - left. reflexivity.
  - reflexivity.
  - vm_compute. reflexivity.
  - reflexivity.
  - reflexivity.
Defined.

Lemma all_pairs_bytes (bs : list value) :
  Forall (fun v => ∃ k u, v = VUint k u) bs → all_pairs equivalent_pair bs bs = true.
Proof.
  induction 1 as [|v bs (k & u & ->) _ IH]; [reflexivity|].
  cbn [all_pairs]. rewrite IH, andb_true_r.
  unfold equivalent_pair. rewrite IsEquivalent_unsigned by reflexivity.
  cbn [isEquivalentToUint]. rewrite Z.eqb_refl. reflexivity.
Qed.

Lemma bytes_unsigned (s : string) :
  Forall (fun v => ∃ k u, v = VUint k u) (Value.byte_of <$> list_ascii_of_string s).
Proof. induction s as [|a s IH]; simpl; constructor; [unfold Value.byte_of; eauto|exact IH]. Qed.

Lemma bytes_scalar (s : string) :
  forallb scalar (Value.byte_of <$> list_ascii_of_string s) = true.
Proof. induction s as [|a s IH]; [reflexivity|]. simpl. exact IH. Qed.

(** X8: a slice holding the bytes of a string is equivalent to the
    string, since [Len] and [Index] read a string byte by byte; with the
    operands exchanged the answer is [false], the string case asking for
    equal types first. *)
Theorem bytes_equivalent_to_string_one_way (n : nat) (h : heap) (e : rtype) (p : Z)
    (name s : string) :
  Value.backing h p = Done (Value.byte_of <$> list_ascii_of_string s) →
  IsEquivalent (S (S n)) h (VSlice (TSlice e) p) (VString (TNamed name) s) = Some true
  ∧ IsEquivalent (S n) h (VString (TNamed name) s) (VSlice (TSlice e) p) = Some false.
Proof.
  intros Hp. split.
  - unfold IsEquivalent. cbn [Value.IsValid negb andb].
    rewrite areObjectsEquivalent_unfold.
    rewrite (drillDown_concrete h _ _ (VSlice (TSlice e) p)) by reflexivity. cbn [bind].
    rewrite (drillDown_concrete h _ _ (VString (TNamed name) s)) by reflexivity.
    cbn [bind orb Value.IsValid negb Value.Kind aFinder bFinder newComparator]. cbv zeta.
    unfold RegisterPointer. cbn [Value.Pointer bind].
    rewrite bool_decide_eq_false_2 by set_solver. cbv zeta.
    destruct (sequences_run h n (VSlice (TSlice e) p) (VString (TNamed name) s)
                (Value.byte_of <$> list_ascii_of_string s)
                (Value.byte_of <$> list_ascii_of_string s)
                {| aFinder := {[p]} ∪ ∅; bFinder := ∅ |}) as [Hrun|[_ Hne]].
    + simpl. rewrite Hp. reflexivity.
    + reflexivity.
    + apply bytes_scalar.
    + apply bytes_scalar.
    + rewrite Hrun, (all_pairs_bytes _ (bytes_unsigned s)). reflexivity.
    + rewrite (all_pairs_bytes _ (bytes_unsigned s)) in Hne. discriminate.
  - unfold IsEquivalent. cbn [Value.IsValid negb andb].
    rewrite areObjectsEquivalent_unfold.
    rewrite (drillDown_concrete h _ _ (VString (TNamed name) s)) by reflexivity. cbn [bind].
    rewrite (drillDown_concrete h _ _ (VSlice (TSlice e) p)) by reflexivity.
    cbn [bind orb Value.IsValid negb Value.Kind Value.TypeOf]. cbv zeta.
    rewrite bool_decide_eq_false_2 by discriminate. reflexivity.
Qed.

Lemma bytes_equivalent_to_string_one_way_witness :
  IsEquivalent 2 (<[1 := CArr [VUint KUint8 104; VUint KUint8 105]]> ∅)
    (VSlice (TSlice (TNamed "uint8")) 1) (VString (TNamed "string") "hi") = Some true
  ∧ IsEquivalent 1 (<[1 := CArr [VUint KUint8 104; VUint KUint8 105]]> ∅)
      (VString (TNamed "string") "hi") (VSlice (TSlice (TNamed "uint8")) 1) = Some false.
Proof.
  apply (bytes_equivalent_to_string_one_way 0
           (<[1 := CArr [VUint KUint8 104; VUint KUint8 105]]> ∅)
           (TNamed "uint8") 1 "string" "hi").
  vm_compute. reflexivity.
Defined.

(** X9: an array, a slice or a map is never equivalent to a
    container of another length, whatever the two hold, nor to a value
    that has no length. *)
Theorem containers_of_different_length (n : nat) (h : heap) (a b : value) (la : Z) :
  Value.Kind a = reflect.Array ∨ Value.Kind a = reflect.Slice ∨ Value.Kind a = reflect.Map →
  concrete b = true → Value.IsValid b = true →
  Value.Len h a = Done la →
  (Value.Len h b = Fault ∨ ∃ lb, Value.Len h b = Done lb ∧ lb ≠ la) →
  IsEquivalent (S n) h a b = Some false.
Proof.
  intros Hk Hcb Hvb Hla Hlb.
  assert (Hva : Value.IsValid a = true)
    by (destruct a, Hk as [Hk|[Hk|Hk]]; try discriminate; reflexivity).
  assert (Hca : concrete a = true)
    by (destruct a, Hk as [Hk|[Hk|Hk]]; try discriminate; reflexivity).
  assert (Hrun : ∀ c, areArraysOrSlicesEquivalent h (areObjectsEquivalent h n) a b c = Fault
                      ∨ areArraysOrSlicesEquivalent h (areObjectsEquivalent h n) a b c
                        = Done (false, c)).
  { intros c. unfold areArraysOrSlicesEquivalent. rewrite Hla. cbn [bind].
    destruct Hlb as [->|(lb & -> & Hne)]; [left; reflexivity|]. cbn [bind].
    right. rewrite (proj2 (Z.eqb_neq la lb)) by congruence. reflexivity. }
  assert (Hmap : ∀ c, areMapsEquivalent h (areObjectsEquivalent h n) a b c = Fault
                      ∨ areMapsEquivalent h (areObjectsEquivalent h n) a b c
                        = Done (false, c)).
  { intros c. unfold areMapsEquivalent. rewrite Hla. cbn [bind].
    destruct Hlb as [->|(lb & -> & Hne)]; [left; reflexivity|]. cbn [bind].
    right. rewrite (proj2 (Z.eqb_neq la lb)) by congruence. reflexivity. }
  unfold IsEquivalent. rewrite Hva. cbn [negb andb].
  rewrite areObjectsEquivalent_unfold.
  rewrite (drillDown_concrete h _ _ a Hca). cbn [bind].
  rewrite (drillDown_concrete h _ _ b Hcb). cbn [bind orb]. cbv zeta.
  rewrite Hva, Hvb. cbn [negb orb aFinder bFinder newComparator].
  destruct Hk as [Hk|[Hk|Hk]]; rewrite Hk.
  - destruct (Hrun {| aFinder := ∅; bFinder := ∅ |}) as [->| ->]; reflexivity.
  - destruct a; try discriminate. unfold RegisterPointer. cbn [Value.Pointer bind].
    rewrite bool_decide_eq_false_2 by set_solver. cbv zeta.
    destruct (Hrun {| aFinder := {[data]} ∪ ∅; bFinder := ∅ |}) as [->| ->]; reflexivity.
  - destruct a; try discriminate. unfold RegisterPointer. cbn [Value.Pointer bind].
    rewrite bool_decide_eq_false_2 by set_solver. cbv zeta.
    destruct (Hmap {| aFinder := {[ref]} ∪ ∅; bFinder := ∅ |}) as [->| ->]; reflexivity.
Qed.

(** [[]int{1, 2}] against [[3]int{1, 2, 3}], and against the number 2. *)
Lemma containers_of_different_length_witness :
  IsEquivalent 1 (<[1 := CArr [VInt KInt 1; VInt KInt 2]]> ∅)
    (VSlice (TSlice (TNamed "int")) 1)
    (VArray (TArray 3 (TNamed "int")) [VInt KInt 1; VInt KInt 2; VInt KInt 3]) = Some false
  ∧ IsEquivalent 1 (<[1 := CArr [VInt KInt 1; VInt KInt 2]]> ∅)
      (VSlice (TSlice (TNamed "int")) 1) (VInt KInt 2) = Some false.
Proof.
  split.
  - apply (containers_of_different_length 0 _ _ _ 2); try reflexivity.
    + right. left. reflexivity.
    + right. exists 3. split; [reflexivity|lia].
  - apply (containers_of_different_length 0 _ _ _ 2); try reflexivity.
    + right. left. reflexivity.
    + left. reflexivity.
Defined.

(** ** Maps *)

(** X10: the keyed lookup never makes a value up: whatever the map
    and the key, what it returns is the zero Value or a value that the
    map holds under some key. *)
Theorem getMapValue_returns_stored_value (h : heap) (m k v : value) :
  getMapValue h m k = Done v →
  v = VInvalid
  ∨ ∃ t p es key, m = VMap t p ∧ Value.entries h p = Done es ∧ (key, v) ∈ es.
Proof. intros Hv. exact (yields_Done _ _ v (getMapValue_stored h m k) Hv). Qed.

Lemma getMapValue_returns_stored_value_witness :
  getMapValue two_ones_heap two_ones_map (VUint KUint8 1)
  = Done (VInterface (VString (TNamed "string") "unsigned"))
  ∧ ∃ t p es key,
      two_ones_map = VMap t p ∧ Value.entries two_ones_heap p = Done es
      ∧ (key, VInterface (VString (TNamed "string") "unsigned")) ∈ es.
Proof.
  assert (Hrun : getMapValue two_ones_heap two_ones_map (VUint KUint8 1)
                 = Done (VInterface (VString (TNamed "string") "unsigned")))
    by (vm_compute; reflexivity).
  split; [exact Hrun|].
  destruct (getMapValue_returns_stored_value _ _ _ _ Hrun) as [Hz|Hs]; [discriminate|exact Hs].
Defined.

(** The comparison of two operands that are both a map, once the left
    one is registered. *)
Lemma IsEquivalent_maps (n : nat) (h : heap) (ta tb : rtype) (p q : Z) :
  IsEquivalent (S n) h (VMap ta p) (VMap tb q) =
    match areMapsEquivalent h (areObjectsEquivalent h n) (VMap ta p) (VMap tb q)
            {| aFinder := {[p]} ∪ ∅; bFinder := ∅ |} with
    | Done (r, _) => Some r
    | Fault => Some false
    | Stuck | Timeout => None
    end.
Proof.
  unfold IsEquivalent. cbn [Value.IsValid negb andb].
  rewrite areObjectsEquivalent_unfold.
  rewrite (drillDown_concrete h _ _ (VMap ta p)) by reflexivity. cbn [bind].
  rewrite (drillDown_concrete h _ _ (VMap tb q)) by reflexivity.
  cbn [bind orb Value.IsValid negb Value.Kind aFinder bFinder newComparator]. cbv zeta.
  unfold RegisterPointer. cbn [Value.Pointer bind].
  rewrite bool_decide_eq_false_2 by set_solver. reflexivity.
Qed.

(** X11: two maps that are not empty and whose key types are two
    different defined types, neither of them an interface type, are
    never equivalent, whatever they hold: a key of the one type is not
    assignable to the other, and the lookup of a key of the left map in
    the right one faults. *)
Theorem maps_of_different_key_types (n : nat) (h : heap) (s s' : string) (et et' : rtype)
    (p q : Z) (k v : value) (es es' : list (value * value)) :
  s ≠ s' →
  Value.entries h p = Done ((k, v) :: es) → Value.entries h q = Done es' →
  Value.TypeOf k = Done (TNamed s) →
  IsEquivalent (S n) h (VMap (TMap (TNamed s) et) p) (VMap (TMap (TNamed s') et') q)
  = Some false.
Proof.
  intros Hne Hp Hq Hk. rewrite IsEquivalent_maps.
  unfold areMapsEquivalent. cbn [Value.Len Value.mapRange]. rewrite Hp, Hq. cbn [bind].
  destruct (negb _); [reflexivity|]. cbn [forEach fst snd]. cbv zeta.
  assert (Hu : Value.unbox k = k) by (destruct k; try reflexivity; discriminate).
  rewrite (getMapValue_typed_key h s s' et' q k).
  - reflexivity.
  - exact Hne.
  - rewrite Hu. exact Hk.
Qed.

(** [map[int]string{1: "a"}] against [map[int8]string{1: "a"}]. *)
Lemma maps_of_different_key_types_witness :
  let h : heap := <[1 := CMap [(VInt KInt 1, VString (TNamed "string") "a")]]>
                    (<[2 := CMap [(VInt KInt8 1, VString (TNamed "string") "a")]]> ∅) in
  IsEquivalent 1 h (VMap (TMap (TNamed "int") (TNamed "string")) 1)
                   (VMap (TMap (TNamed "int8") (TNamed "string")) 2) = Some false.
Proof.
  cbv zeta.
  apply (maps_of_different_key_types 0 _ "int" "int8" _ _ 1 2
           (VInt KInt 1) (VString (TNamed "string") "a") []
           [(VInt KInt8 1, VString (TNamed "string") "a")]).
  - discriminate.
  - vm_compute. reflexivity.
  - vm_compute. reflexivity.
  - reflexivity.
Defined.

Lemma first_hit_stored (es : list (value * value)) (ks : list value) :
  first_hit es ks = VInvalid ∨ ∃ key, (key, first_hit es ks) ∈ es.
Proof.
  induction ks as [|k ks IH]; [left; reflexivity|]. simpl.
  destruct (Value.IsValid (Value.lookup_key k es)) eqn:Hv; [|exact IH].
  right. destruct (lookup_key_entry es k Hv) as (key & Hin & _). eauto.
Qed.

Lemma nil_against_nil (h : heap) (n : nat) (bv : value) (c : comparator) :
  bv = VInvalid ∨ bv = VInterface VInvalid →
  areObjectsEquivalent h (S (S n)) (VInterface VInvalid) bv c = Done (true, c).
Proof.
  intros Hbv. rewrite <- (comparator_eta c) at 2.
  apply (both_invalid_equivalent h (S n) _ _ VInvalid VInvalid c false false).
  - reflexivity.
  - destruct Hbv as [->| ->]; reflexivity.
  - reflexivity.
  - reflexivity.
Qed.

(** X12: a key that is absent cannot be told from a key bound to nil.
    Two maps keyed by [interface{}] that hold as many entries, all of
    them bound to nil, are equivalent whatever their keys are. *)
Theorem maps_of_nil_values (n : nat) (h : heap) (et et' : rtype) (p q : Z)
    (esa esb : list (value * value)) :
  Value.entries h p = Done esa → Value.entries h q = Done esb →
  length esa = length esb →
  (∀ k v, (k, v) ∈ esa →
     v = VInterface VInvalid
     ∧ Value.hashable (Value.unbox k) = true
     ∧ ∃ t, Value.TypeOf (Value.unbox k) = Done t) →
  (∀ k v, (k, v) ∈ esb → v = VInterface VInvalid) →
  IsEquivalent (S (S (S n))) h (VMap (TMap TInterface et) p) (VMap (TMap TInterface et') q)
  = Some true.
Proof.
  intros Hp Hq Hl Ha Hb. rewrite IsEquivalent_maps.
  unfold areMapsEquivalent. cbn [Value.Len Value.mapRange]. rewrite Hp, Hq. cbn [bind].
  rewrite Hl, Z.eqb_refl. cbn [negb].
  rewrite forEach_all; [reflexivity|].
  intros [k v] Hin. cbn [fst snd]. cbv zeta.
  destruct (Ha k v Hin) as (-> & Hh & t & Ht).
  rewrite (getMapValue_probes h et' q esb Hq k t Ht Hh). cbn [bind].
  apply nil_against_nil.
  destruct (first_hit_stored esb (Value.unbox k :: probes (Value.unbox k))) as [->|[key Hkey]];
    [left; reflexivity|].
  right. exact (Hb _ _ Hkey).
Qed.

(** [{1: nil}] against [{"x": nil}]. *)
Lemma maps_of_nil_values_witness :
  let h : heap := <[1 := CMap [(VInterface (VInt KInt 1), VInterface VInvalid)]]>
                    (<[2 := CMap [(VInterface (VString (TNamed "string") "x"),
                                   VInterface VInvalid)]]> ∅) in
  IsEquivalent 3 h (VMap (TMap TInterface TInterface) 1) (VMap (TMap TInterface TInterface) 2)
  = Some true.
Proof.
  cbv zeta.
  apply (maps_of_nil_values 0 _ TInterface TInterface 1 2
           [(VInterface (VInt KInt 1), VInterface VInvalid)]
           [(VInterface (VString (TNamed "string") "x"), VInterface VInvalid)]).
  - vm_compute. reflexivity.
  - vm_compute. reflexivity.
  - reflexivity.
  - intros k v Hin. apply list_elem_of_singleton in Hin. injection Hin as -> ->.
    split; [reflexivity|]. split; [reflexivity|]. eexists. reflexivity.
  - intros k v Hin. apply list_elem_of_singleton in Hin. injection Hin as -> ->. reflexivity.
Defined.

(** ** Big numbers *)

(** [big.NewInt(-70)] against [int8(-70)]. *)
Lemma bigint_against_native_integer_witness :
  IsEquivalent 1 ∅ (VBigInt (-70)) (VInt KInt8 (-70)) = Some true
  ∧ IsEquivalent 1 ∅ (VInt KInt8 (-70)) (VBigInt (-70)) = Some true.
Proof.
  apply (bigint_against_native_integer 0 ∅ (-70) (VInt KInt8 (-70))).
  - vm_compute. reflexivity.
  - reflexivity.
Defined.

Lemma numericToString_label (h : heap) (n : nat) (v : value) :
  ¬ noncomplex_numeric v →
  numericToString h n v
  = let* s := Sprint_v h n v in Done ("NOT NUMERIC: " ++ s)%string.
Proof. destruct v; simpl; intros Hn; try reflexivity; exfalso; apply Hn; exact I. Qed.

(** The comparison of a big number with a concrete value [v] is the
    comparison of its rendering with that of [v]. *)
Lemma bigint_run (n : nat) (h : heap) (z : Z) (v : value) :
  concrete v = true → Value.IsValid v = true →
  areObjectsEquivalent h (S n) (VBigInt z) v newComparator
  = let* text := numericToString h (S n) v in
    Done (String.eqb (Strconv.FormatInt z) text, newComparator).
Proof.
  intros Hc Hv. rewrite areObjectsEquivalent_unfold.
  rewrite (drillDown_concrete h _ _ (VBigInt z) eq_refl). cbn [bind].
  rewrite (drillDown_concrete h _ _ v Hc). cbn [bind orb]. cbv zeta.
  rewrite Hv. cbn [aFinder bFinder newComparator Value.IsValid negb orb Value.Kind].
  unfold areStructsEquivalent, isEquivalentToBigInt.
  destruct (numericToString h (S n) v); reflexivity.
Qed.

Lemma bigfloat_run (n : nat) (h : heap) (prec : Z) (x : spec_float) (v : value) :
  concrete v = true → Value.IsValid v = true →
  areObjectsEquivalent h (S n) (VBigFloat prec x) v newComparator
  = let* text := numericToString h (S n) v in
    Done (String.eqb (bigFloatToString prec x) text, newComparator).
Proof.
  intros Hc Hv. rewrite areObjectsEquivalent_unfold.
  rewrite (drillDown_concrete h _ _ (VBigFloat prec x) eq_refl). cbn [bind].
  rewrite (drillDown_concrete h _ _ v Hc). cbn [bind orb]. cbv zeta.
  rewrite Hv. cbn [aFinder bFinder newComparator Value.IsValid negb orb Value.Kind].
  unfold areStructsEquivalent, isEquivalentToBigFloat.
  destruct (numericToString h (S n) v); reflexivity.
Qed.

(** X13: a big number on the left is never found equivalent to a value
    that is not a number. When [fmt] prints the value the answer is
    [false]: the value is rendered with a label in front that the
    rendering of no number begins with. While the printing of the value
    has not returned, neither has the comparison. *)
Theorem big_number_against_non_number (n : nat) (h : heap) (v : value) :
  concrete v = true → Value.IsValid v = true → ¬ noncomplex_numeric v →
  (∀ s, Sprint_v h (S n) v = Done s →
     (∀ z, IsEquivalent (S n) h (VBigInt z) v = Some false)
     ∧ (∀ prec x, IsEquivalent (S n) h (VBigFloat prec x) v = Some false))
  ∧ (Sprint_v h (S n) v = Timeout →
     (∀ z, IsEquivalent (S n) h (VBigInt z) v = None)
     ∧ (∀ prec x, IsEquivalent (S n) h (VBigFloat prec x) v = None))
  ∧ (∀ z, IsEquivalent (S n) h (VBigInt z) v ≠ Some true)
  ∧ (∀ prec x, IsEquivalent (S n) h (VBigFloat prec x) v ≠ Some true).
Proof.
  intros Hc Hv Hn. split; [|split; [|split]]; cycle 2.
  - intros z. unfold IsEquivalent. cbn [Value.IsValid negb andb].
    rewrite (bigint_run n h z v Hc Hv), (numericToString_label h (S n) v Hn).
    destruct (Sprint_v h (S n) v) as [s| | |]; cbn [bind]; try discriminate.
    rewrite (plain_not_label _ s (FormatInt_plain z)). discriminate.
  - intros prec x. unfold IsEquivalent. cbn [Value.IsValid negb andb].
    rewrite (bigfloat_run n h prec x v Hc Hv), (numericToString_label h (S n) v Hn).
    destruct (Sprint_v h (S n) v) as [s| | |]; cbn [bind]; try discriminate.
    rewrite (plain_not_label _ s (bigFloatToString_plain prec x)). discriminate.
  - intros s Hs. split.
    + intros z. unfold IsEquivalent. cbn [Value.IsValid negb andb].
      rewrite (bigint_run n h z v Hc Hv), (numericToString_label h (S n) v Hn), Hs.
      cbn [bind]. rewrite (plain_not_label _ s (FormatInt_plain z)). reflexivity.
    + intros prec x. unfold IsEquivalent. cbn [Value.IsValid negb andb].
      rewrite (bigfloat_run n h prec x v Hc Hv), (numericToString_label h (S n) v Hn), Hs.
      cbn [bind]. rewrite (plain_not_label _ s (bigFloatToString_plain prec x)). reflexivity.
  - intros Hs. split.
    + intros z. unfold IsEquivalent. cbn [Value.IsValid negb andb].
      rewrite (bigint_run n h z v Hc Hv), (numericToString_label h (S n) v Hn), Hs.
      reflexivity.
    + intros prec x. unfold IsEquivalent. cbn [Value.IsValid negb andb].
      rewrite (bigfloat_run n h prec x v Hc Hv), (numericToString_label h (S n) v Hn), Hs.
      reflexivity.
Qed.

(** [big.NewInt(1)] against the string "1", and against the sequence
    that holds itself. *)
Lemma big_number_against_non_number_witness :
  IsEquivalent 1 ∅ (VBigInt 1) (VString (TNamed "string") "1") = Some false
  ∧ IsEquivalent 3 big_self_heap (VBigInt 1) self_b = None.
Proof.
  split.
  - apply (proj1 (proj1 (big_number_against_non_number 0 ∅ (VString (TNamed "string") "1")
                           eq_refl eq_refl (fun H => H)) "1"%string eq_refl)).
  - apply (proj1 (proj1 (proj2 (big_number_against_non_number 2 big_self_heap self_b
                                  eq_refl eq_refl (fun H => H))) eq_refl)).
Defined.

(** ** The older comparator *)

(** X14: the conversions of the older comparator between signed and
    unsigned integers succeed exactly on the numbers that both kinds
    hold, leave the number as it is, and so undo each other. *)
Theorem asInt_asUint_round_trip (k : int_kind) (k' : uint_kind) (z : Z) :
  (0 <= z < 2 ^ 64 →
   Legacy.asInt (VUint k' z) = if z <=? Int.MaxInt64 then (z, true) else (0, false))
  ∧ (Int.MinInt64 <= z <= Int.MaxInt64 →
     Legacy.asUint (VInt k z) = if 0 <=? z then (z, true) else (0, false))
  ∧ (0 <= z <= Int.MaxInt64 →
     Legacy.asInt (VUint k' z) = (z, true) ∧ Legacy.asUint (VInt k z) = (z, true)).
Proof.
  assert (H1 : 0 <= z < 2 ^ 64 →
               Legacy.asInt (VUint k' z)
               = if z <=? Int.MaxInt64 then (z, true) else (0, false)).
  { intros Hz. cbn [Legacy.asInt].
    destruct (z <=? Int.MaxInt64) eqn:Hle; [|reflexivity].
    apply Z.leb_le in Hle. rewrite int64_small; [reflexivity|].
    unfold Int.MinInt64, Int.MaxInt64 in *. lia. }
  assert (H2 : Int.MinInt64 <= z <= Int.MaxInt64 →
               Legacy.asUint (VInt k z) = if 0 <=? z then (z, true) else (0, false)).
  { intros Hz. cbn [Legacy.asUint].
    destruct (0 <=? z) eqn:Hle; [|reflexivity].
    apply Z.leb_le in Hle. rewrite uint64_small; [reflexivity|].
    unfold Int.MinInt64, Int.MaxInt64 in *. lia. }
  split; [exact H1|]. split; [exact H2|].
  intros Hz. unfold Int.MinInt64, Int.MaxInt64 in *.
  rewrite H1, H2 by (unfold Int.MinInt64, Int.MaxInt64; lia).
  rewrite (proj2 (Z.leb_le z _)), (proj2 (Z.leb_le 0 z)) by (unfold Int.MaxInt64; lia).
  split; reflexivity.
Qed.

Lemma asInt_asUint_round_trip_witness :
  Legacy.asInt (VUint KUint8 200) = (200, true)
  ∧ Legacy.asUint (VInt KInt64 200) = (200, true).
Proof.
  apply (proj2 (proj2 (asInt_asUint_round_trip KInt64 KUint8 200))).
  unfold Int.MaxInt64. lia.
Defined.

Lemma Legacy_drillDown_concrete (h : heap) (n : nat) (v : value) :
  concrete v = true → Legacy.drillDown (S n) h v = Done v.
Proof. destruct v as [| |[]|[]| |[]|[]| | | | | | | | | | | |]; simpl; congruence. Qed.

Lemma Legacy_IsEquivalent_concrete (h : heap) (n : nat) (a b : value) :
  concrete a = true → concrete b = true → Value.IsValid a = true →
  Legacy.IsEquivalent (S n) h a b =
    match Legacy.areObjectsEquivalent (S n) h a b with
    | Done r => Some r
    | Fault => Some false
    | Stuck | Timeout => None
    end.
Proof.
  intros Ha Hb Hv. unfold Legacy.IsEquivalent. rewrite Hv. cbn [negb andb].
  rewrite !Legacy_drillDown_concrete by assumption. reflexivity.
Qed.

(** X15: in the older comparator two native integers are equivalent
    exactly when they hold the same number, whatever their widths and
    their signedness, and in either order. *)
Theorem older_comparator_integers_by_value (n : nat) (h : heap)
    (k : int_kind) (k' : uint_kind) (a b : Z) :
  (∀ k2, Legacy.IsEquivalent (S n) h (VInt k a) (VInt k2 b) = Some (a =? b))
  ∧ (∀ k2, Legacy.IsEquivalent (S n) h (VUint k' a) (VUint k2 b) = Some (a =? b))
  ∧ (Int.MinInt64 <= a <= Int.MaxInt64 → 0 <= b < 2 ^ 64 →
     Legacy.IsEquivalent (S n) h (VInt k a) (VUint k' b) = Some (a =? b)
     ∧ Legacy.IsEquivalent (S n) h (VUint k' b) (VInt k a) = Some (a =? b)).
Proof.
  split; [|split].
  - intros k2. rewrite Legacy_IsEquivalent_concrete by reflexivity.
    destruct k; reflexivity.
  - intros k2. rewrite Legacy_IsEquivalent_concrete by reflexivity.
    destruct k'; reflexivity.
  - intros Ha Hb.
    destruct (asInt_asUint_round_trip k k' b) as (Hint & _ & _).
    destruct (asInt_asUint_round_trip k k' a) as (_ & Huint & _).
    specialize (Hint Hb). specialize (Huint Ha).
    rewrite !Legacy_IsEquivalent_concrete by reflexivity. split.
    + assert (Hrun : Legacy.areObjectsEquivalent (S n) h (VInt k a) (VUint k' b)
                     = let (bValue, ok) := Legacy.asInt (VUint k' b) in
                       if ok then Done (a =? bValue) else Done false)
        by (destruct k; reflexivity).
      rewrite Hrun, Hint. destruct (b <=? Int.MaxInt64) eqn:Hle; [reflexivity|].
      apply Z.leb_gt in Hle. rewrite (proj2 (Z.eqb_neq a b)) by lia. reflexivity.
    + assert (Hrun : Legacy.areObjectsEquivalent (S n) h (VUint k' b) (VInt k a)
                     = let (bValue, ok) := Legacy.asUint (VInt k a) in
                       if ok then Done (b =? bValue) else Done false)
        by (destruct k'; reflexivity).
      rewrite Hrun, Huint. destruct (0 <=? a) eqn:Hle; [rewrite Z.eqb_sym; reflexivity|].
      apply Z.leb_gt in Hle. rewrite (proj2 (Z.eqb_neq a b)) by lia. reflexivity.
Qed.

(** [int64(2^60)] against [uint64(2^60)], the pair that the comparator
    with the finders rejects. *)
Lemma older_comparator_integers_by_value_witness :
  Legacy.IsEquivalent 1 ∅ (VInt KInt64 (2 ^ 60)) (VUint KUint64 (2 ^ 60)) = Some true
  ∧ Legacy.IsEquivalent 1 ∅ (VUint KUint64 (2 ^ 60)) (VInt KInt64 (2 ^ 60)) = Some true.
Proof.
  apply (proj2 (proj2 (older_comparator_integers_by_value 0 ∅ KInt64 KUint64 (2 ^ 60) (2 ^ 60)))).
  - unfold Int.MinInt64, Int.MaxInt64. lia.
  - lia.
Defined.

(** X16: the older comparator has no guard against cycles: on two
    slices that each hold themselves as their one element it never
    returns, whatever the fuel; the comparator with the finders answers
    [true] on the same operands. *)
Theorem older_comparator_runs_forever_on_cycles (h : heap) (t t' : rtype) (p q : Z) :
  p ≠ 0 → q ≠ 0 →
  h !! p = Some (CArr [VInterface (VSlice t p)]) →
  h !! q = Some (CArr [VInterface (VSlice t' q)]) →
  (∀ n, Legacy.areObjectsEquivalent n h (VSlice t p) (VSlice t' q) = Timeout)
  ∧ (∀ n, Legacy.IsEquivalent n h (VSlice t p) (VSlice t' q) = None)
  ∧ (∀ n, IsEquivalent (3 + n) h (VSlice t p) (VSlice t' q) = Some true).
Proof.
  intros Hp0 Hq0 Hp Hq.
  assert (Hbp : Value.backing h p = Done [VInterface (VSlice t p)]).
  { unfold Value.backing. rewrite (proj2 (Z.eqb_neq p 0)) by exact Hp0. rewrite Hp. reflexivity. }
  assert (Hbq : Value.backing h q = Done [VInterface (VSlice t' q)]).
  { unfold Value.backing. rewrite (proj2 (Z.eqb_neq q 0)) by exact Hq0. rewrite Hq. reflexivity. }
  assert (Hloop : ∀ n, Legacy.areObjectsEquivalent n h (VSlice t p) (VSlice t' q) = Timeout
                       ∧ Legacy.areObjectsEquivalent n h (VInterface (VSlice t p))
                           (VInterface (VSlice t' q)) = Timeout).
  { induction n as [|n [IH1 IH2]]; [split; reflexivity|]. split.
    - cbn [Legacy.areObjectsEquivalent Value.IsValid negb andb Value.Kind].
      unfold Legacy.areArraysOrSlicesEquivalent. cbn [Value.Len Value.Index].
      rewrite Hbp, Hbq. cbn [bind length].
      change (seqZ 0 (Z.of_nat 1)) with [0]. change (Z.of_nat 1 =? Z.of_nat 1) with true.
      cbn [negb Legacy.forEach]. change (Value.at_index [VInterface (VSlice t p)] 0) with (Done (VInterface (VSlice t p))).
      change (Value.at_index [VInterface (VSlice t' q)] 0) with (Done (VInterface (VSlice t' q))).
      cbn [bind]. rewrite IH2. reflexivity.
    - cbn [Legacy.areObjectsEquivalent Value.IsValid negb andb Value.Kind Value.Elem bind].
      exact IH1. }
  split; [intros n; apply Hloop|]. split.
  - intros n. destruct n as [|n]; [reflexivity|].
    rewrite Legacy_IsEquivalent_concrete by reflexivity.
    rewrite (proj1 (Hloop (S n))). reflexivity.
  - intros n. apply (IsEquivalent_more_fuel 3); [|lia].
    unfold IsEquivalent. cbn [Value.IsValid negb andb].
    rewrite areObjectsEquivalent_unfold.
    rewrite !(drillDown_concrete h _ _ (VSlice _ _)) by reflexivity.
    cbn [bind orb Value.IsValid negb Value.Kind aFinder bFinder newComparator]. cbv zeta.
    unfold RegisterPointer. cbn [Value.Pointer bind].
    rewrite bool_decide_eq_false_2 by set_solver. cbv zeta.
    unfold areArraysOrSlicesEquivalent. cbn [Value.Len Value.Index].
    rewrite Hbp, Hbq. cbn [bind length].
    change (seqZ 0 (Z.of_nat 1)) with [0]. change (Z.of_nat 1 =? Z.of_nat 1) with true.
    cbn [negb forEach]. change (Value.at_index [VInterface (VSlice t p)] 0) with (Done (VInterface (VSlice t p))).
    change (Value.at_index [VInterface (VSlice t' q)] 0) with (Done (VInterface (VSlice t' q))).
    cbn [bind]. rewrite areObjectsEquivalent_unfold.
    rewrite !drillDown_interface.
    rewrite !(drillDown_concrete h _ _ (VSlice _ _)) by reflexivity.
    cbn [bind orb Value.IsValid negb Value.Kind aFinder bFinder]. cbv zeta.
    unfold RegisterPointer. cbn [Value.Pointer bind].
    rewrite bool_decide_eq_true_2 by set_solver. reflexivity.
Qed.

Lemma older_comparator_runs_forever_on_cycles_witness :
  Legacy.IsEquivalent 1000 self_heap self_a self_b = None
  ∧ IsEquivalent 3 self_heap self_a self_b = Some true.
Proof.
  assert (H1 : (1 : Z) ≠ 0) by lia. assert (H2 : (2 : Z) ≠ 0) by lia.
  pose proof (older_comparator_runs_forever_on_cycles self_heap (TSlice TInterface)
                (TSlice TInterface) 1 2 H1 H2 eq_refl eq_refl) as H.
  exact (conj (proj1 (proj2 H) 1000%nat) (proj2 (proj2 H) 0%nat)).
Defined.

(** ** The walk and the finders *)

Lemma drillDown_flagged (h : heap) (n : nat) :
  ∀ finder v v' finder',
    drillDown h n finder v = Done (v', true, finder') →
    ∃ t p, v' = VPtr t p ∧ p ∈ finder'.
Proof.
  induction n as [|n IH]; intros finder v v' finder' Hd; [discriminate|].
  destruct (concrete v) eqn:Hc.
  - rewrite drillDown_concrete in Hd by exact Hc. discriminate.
  - destruct v; try discriminate.
    + rewrite drillDown_pointer in Hd. destruct (bool_decide (ref ∈ finder)) eqn:Hin.
      * injection Hd as <- <-. exists t, ref. split; [reflexivity|set_solver].
      * destruct (Value.Elem h (VPtr t ref)) as [x| | |]; try discriminate.
        cbn [bind] in Hd. eapply IH. exact Hd.
    + rewrite drillDown_interface in Hd. eapply IH. exact Hd.
Qed.

(** X17: the walk through pointers and interface slots never faults.
    When it returns with the flag down, what it returns is neither a
    pointer nor an interface slot; with the flag up it returns a pointer
    whose address is registered. The finder only grows. *)
Theorem drillDown_postcondition (h : heap) (n : nat) (finder : gset Z) (v : value) :
  drillDown h n finder v ≠ Fault
  ∧ (∀ v' dup finder',
       drillDown h n finder v = Done (v', dup, finder') →
       finder ⊆ finder'
       ∧ (dup = false → concrete v' = true)
       ∧ (dup = true → ∃ t p, v' = VPtr t p ∧ p ∈ finder')).
Proof.
  split; [apply drillDown_no_fault|].
  intros v' dup finder' Hd.
  split; [exact (proj1 (drillDown_bounds h n v finder v' dup finder' Hd))|].
  split.
  - intros ->. exact (drillDown_result h n finder v v' false finder' Hd).
  - intros ->. exact (drillDown_flagged h n finder v v' finder' Hd).
Qed.

Lemma drillDown_postcondition_witness :
  let h : heap := <[1 := CVal (VPtr (TPtr (TNamed "int")) 2)]> (<[2 := CVal (VInt KInt 5)]> ∅) in
  drillDown h 3 ∅ (VPtr (TPtr (TPtr (TNamed "int"))) 1) = Done (VInt KInt 5, false, {[2; 1]})
  ∧ concrete (VInt KInt 5) = true.
Proof.
  cbv zeta.
  assert (Hd : drillDown (<[1 := CVal (VPtr (TPtr (TNamed "int")) 2)]>
                            (<[2 := CVal (VInt KInt 5)]> ∅)) 3 ∅
                 (VPtr (TPtr (TPtr (TNamed "int"))) 1) = Done (VInt KInt 5, false, {[2; 1]}))
    by (vm_compute; reflexivity).
  split; [exact Hd|].
  exact (proj1 (proj2 (proj2 (drillDown_postcondition _ _ _ _) _ _ _ Hd)) eq_refl).
Defined.

Lemma grown_refl (c : comparator) : grown c c.
Proof. split; reflexivity. Qed.

Lemma grown_trans (c1 c2 c3 : comparator) : grown c1 c2 → grown c2 c3 → grown c1 c3.
Proof. intros [H1 H2] [H3 H4]. split; etrans; eassumption. Qed.

Lemma forEach_grown {X} (body : X → comparator → outcome (bool * comparator)) (xs : list X) :
  (∀ x c r c', body x c = Done (r, c') → grown c c') →
  ∀ c r c', forEach body xs c = Done (r, c') → grown c c'.
Proof.
  intros Hbody c r c' Hfe.
  apply (forEach_invariant (fun c1 => grown c c1) body xs) with (c := c) (r := r);
    [|apply grown_refl|exact Hfe].
  intros x c1 r1 c1' _ Hc1 Hx. eapply grown_trans; [exact Hc1|]. eapply Hbody; exact Hx.
Qed.

Lemma areObjectsEquivalent_grown (h : heap) (n : nat) :
  ∀ a b c r c', areObjectsEquivalent h n a b c = Done (r, c') → grown c c'.
Proof.
  induction n as [|n IH]; intros a b c r c' Hrun; [discriminate|].
  rewrite areObjectsEquivalent_unfold in Hrun.
  apply bind_Done in Hrun as ([[a' da] fa] & Ha & Hrun).
  apply bind_Done in Hrun as ([[b' db] fb] & Hb & Hrun).
  cbv zeta in Hrun.
  destruct (drillDown_bounds h (S n) _ _ _ _ _ Ha) as (Hfa & _ & _).
  destruct (drillDown_bounds h (S n) _ _ _ _ _ Hb) as (Hfb & _ & _).
  assert (Hdrill : grown c {| aFinder := fa; bFinder := fb |}) by (split; assumption).
  assert (Harr : ∀ c0 r0 c0',
             areArraysOrSlicesEquivalent h (areObjectsEquivalent h n) a' b' c0 = Done (r0, c0') →
             grown c0 c0').
  { intros c0 r0 c0' Hr. unfold areArraysOrSlicesEquivalent in Hr.
    apply bind_Done in Hr as (la & _ & Hr). apply bind_Done in Hr as (lb & _ & Hr).
    destruct (negb (la =? lb)); [injection Hr as <- <-; apply grown_refl|].
    eapply forEach_grown; [|exact Hr]. intros i c1 r1 c1' Hi.
    apply bind_Done in Hi as (ai & _ & Hi). apply bind_Done in Hi as (bi & _ & Hi).
    eapply IH; exact Hi. }
  assert (Hmap : ∀ c0 r0 c0',
             areMapsEquivalent h (areObjectsEquivalent h n) a' b' c0 = Done (r0, c0') →
             grown c0 c0').
  { intros c0 r0 c0' Hr. unfold areMapsEquivalent in Hr.
    apply bind_Done in Hr as (la & _ & Hr). apply bind_Done in Hr as (lb & _ & Hr).
    destruct (negb (la =? lb)); [injection Hr as <- <-; apply grown_refl|].
    apply bind_Done in Hr as (iter & _ & Hr).
    eapply forEach_grown; [|exact Hr]. intros kv c1 r1 c1' Hi. cbv zeta in Hi.
    apply bind_Done in Hi as (bv & _ & Hi).
    eapply IH; exact Hi. }
  assert (Hstr : ∀ c0 r0 c0',
             areStructsEquivalent h (S n) (areObjectsEquivalent h n) a' b' c0 = Done (r0, c0') →
             grown c0 c0').
  { intros c0 r0 c0' Hr. unfold areStructsEquivalent in Hr.
    assert (Hgen : (let* na := Value.NumField a' in
                    let* nb := Value.NumField b' in
                    if negb (na =? nb) then Done (false, c0) else
                    forEach (fun i c =>
                      let* ai := Value.Field a' i in
                      let* bi := Value.Field b' i in
                      areObjectsEquivalent h n ai bi c) (seqZ 0 na) c0) = Done (r0, c0') →
                   grown c0 c0').
    { intros Hg. apply bind_Done in Hg as (la & _ & Hg). apply bind_Done in Hg as (lb & _ & Hg).
      destruct (negb (la =? lb)); [injection Hg as <- <-; apply grown_refl|].
      eapply forEach_grown; [|exact Hg]. intros i c1 r1 c1' Hi.
      apply bind_Done in Hi as (ai & _ & Hi). apply bind_Done in Hi as (bi & _ & Hi).
      eapply IH; exact Hi. }
    destruct a'; try (apply Hgen; exact Hr);
      apply bind_Done in Hr as (r1 & _ & Hr); injection Hr as <- <-; apply grown_refl. }
  assert (Hreg : ∀ p, grown c {| aFinder := {[p]} ∪ fa; bFinder := fb |}).
  { intros p. destruct Hdrill as [H1 H2]. split; cbn [aFinder bFinder] in *; set_solver. }
  destruct (da || db); [injection Hrun as <- <-; exact Hdrill|].
  destruct (negb (Value.IsValid a') || negb (Value.IsValid b'));
    [injection Hrun as <- <-; exact Hdrill|].
  destruct (Value.Kind a').
  all: try (injection Hrun as <- <-; exact Hdrill).
  all: try (apply Harr in Hrun; exact (grown_trans _ _ _ Hdrill Hrun)).
  all: try (apply Hstr in Hrun; exact (grown_trans _ _ _ Hdrill Hrun)).
  all: try (apply bind_Done in Hrun as (x & _ & Hrun); injection Hrun as <- <-; exact Hdrill).
  all: try (apply bind_Done in Hrun as (x & _ & Hrun);
            apply bind_Done in Hrun as (y & _ & Hrun); injection Hrun as <- <-; exact Hdrill).
  - apply bind_Done in Hrun as (ta & _ & Hrun). apply bind_Done in Hrun as (tb & _ & Hrun).
    destruct (bool_decide (ta = tb)); [|injection Hrun as <- <-; exact Hdrill].
    apply bind_Done in Hrun as (ea & _ & Hrun). apply bind_Done in Hrun as (eb & _ & Hrun).
    destruct (bool_decide (ea = eb)); [|injection Hrun as <- <-; exact Hdrill].
    apply bind_Done in Hrun as (x & _ & Hrun). apply bind_Done in Hrun as (y & _ & Hrun).
    injection Hrun as <- <-; exact Hdrill.
  - apply bind_Done in Hrun as ([dup fa0] & Hreg' & Hrun).
    unfold RegisterPointer in Hreg'. apply bind_Done in Hreg' as (p & _ & Hreg').
    injection Hreg' as <- <-. cbn [aFinder bFinder] in Hrun.
    destruct (bool_decide _).
    + injection Hrun as <- <-. apply Hreg.
    + apply Hmap in Hrun. exact (grown_trans _ _ _ (Hreg p) Hrun).
  - apply bind_Done in Hrun as ([dup fa0] & Hreg' & Hrun).
    unfold RegisterPointer in Hreg'. apply bind_Done in Hreg' as (p & _ & Hreg').
    injection Hreg' as <- <-. cbn [aFinder bFinder] in Hrun.
    destruct (bool_decide _).
    + injection Hrun as <- <-. apply Hreg.
    + apply Harr in Hrun. exact (grown_trans _ _ _ (Hreg p) Hrun).
Qed.

(** X18: an identity that a finder has registered stays registered to
    the end of the call: a comparison that returns leaves each of the two
    finders holding at least what it held before. *)
Theorem finders_only_grow (h : heap) (n : nat) (a b : value) (c c' : comparator) (r : bool) :
  areObjectsEquivalent h n a b c = Done (r, c') →
  aFinder c ⊆ aFinder c' ∧ bFinder c ⊆ bFinder c'.
Proof. intros Hrun. exact (areObjectsEquivalent_grown h n a b c r c' Hrun). Qed.

Lemma finders_only_grow_witness :
  areObjectsEquivalent shared_heap 3 shared_a shared_b newComparator
  = Done (false, {| aFinder := {[12; 11; 10]}; bFinder := ∅ |})
  ∧ aFinder newComparator ⊆ aFinder {| aFinder := {[12; 11; 10]}; bFinder := ∅ |}
  ∧ bFinder newComparator ⊆ bFinder {| aFinder := {[12; 11; 10]}; bFinder := ∅ |}.
Proof.
  assert (Hrun : areObjectsEquivalent shared_heap 3 shared_a shared_b newComparator
                 = Done (false, {| aFinder := {[12; 11; 10]}; bFinder := ∅ |}))
    by (vm_compute; reflexivity).
  split; [exact Hrun|]. exact (finders_only_grow _ _ _ _ _ _ _ Hrun).
Defined.

(** ** The digits of a big float *)

Lemma bitsToDecimalDigits_split (q r : Z) :
  0 <= q → 0 <= r < 10 →
  bitsToDecimalDigits (10 * q + r)
  = q * 3 + default 0 (bitsToDecimalDigitsTable !! Z.to_nat r).
Proof.
  intros Hq Hr. unfold bitsToDecimalDigits.
  rewrite Z.quot_div_nonneg, Z.rem_mod_nonneg by lia.
  replace ((10 * q + r) `div` 10) with q by (apply (Z.div_unique _ 10 q r); lia).
  replace ((10 * q + r) `mod` 10) with r by (apply (Z.mod_unique _ 10 q r); lia).
  reflexivity.
Qed.

Lemma bitsToDecimalDigitsTable_closed (r : Z) :
  0 <= r < 10 → default 0 (bitsToDecimalDigitsTable !! Z.to_nat r) = (3 * r + 7) / 10.
Proof.
  intros Hr.
  assert (Hcases : r = 0 ∨ r = 1 ∨ r = 2 ∨ r = 3 ∨ r = 4 ∨ r = 5 ∨ r = 6 ∨ r = 7 ∨ r = 8
                   ∨ r = 9) by lia.
  destruct Hcases as [->|[->|[->|[->|[->|[->|[->|[->|[->| ->]]]]]]]]]; reflexivity.
Qed.

(** X19: the number of decimal digits kept for a big float of [n]
    bits is [(3n + 7) / 10] rounded down: within one digit of [3n/10],
    and growing with [n] by one digit at most per bit. *)
Theorem bitsToDecimalDigits_closed_form (n : Z) :
  0 <= n →
  bitsToDecimalDigits n = (3 * n + 7) / 10
  ∧ 3 * n - 2 <= 10 * bitsToDecimalDigits n <= 3 * n + 7
  ∧ bitsToDecimalDigits n <= bitsToDecimalDigits (n + 1) <= bitsToDecimalDigits n + 1.
Proof.
  intros Hn.
  assert (Hclosed : ∀ m, 0 <= m → bitsToDecimalDigits m = (3 * m + 7) / 10).
  { intros m Hm.
    pose proof (Z.div_mod m 10 ltac:(lia)) as Hdm.
    pose proof (Z.mod_pos_bound m 10 ltac:(lia)) as Hr.
    pose proof (Z.div_pos m 10 Hm ltac:(lia)) as Hq.
    rewrite Hdm at 1. rewrite bitsToDecimalDigits_split by lia.
    rewrite bitsToDecimalDigitsTable_closed by lia.
    Z.div_mod_to_equations. lia. }
  rewrite (Hclosed (n + 1)) by lia. rewrite (Hclosed n Hn).
  split; [reflexivity|]. Z.div_mod_to_equations. lia.
Qed.

Lemma bitsToDecimalDigits_closed_form_witness :
  bitsToDecimalDigits 53 = (3 * 53 + 7) / 10
  ∧ 3 * 53 - 2 <= 10 * bitsToDecimalDigits 53 <= 3 * 53 + 7
  ∧ bitsToDecimalDigits 53 <= bitsToDecimalDigits (53 + 1) <= bitsToDecimalDigits 53 + 1.
Proof. apply bitsToDecimalDigits_closed_form. lia. Defined.

(** ** Scalars behind references *)

(** The comparison of a scalar on the left does not read the finders. *)
Lemma scalar_left_run (h : heap) (n : nat) (x y : value) (c c0 : comparator) :
  scalar x = true → concrete y = true →
  areObjectsEquivalent h (S n) x y c
  = with_comparator c (areObjectsEquivalent h (S n) x y c0).
Proof.
  intros Hx Hy.
  rewrite !areObjectsEquivalent_unfold.
  rewrite !(drillDown_concrete _ _ _ x (scalar_concrete x Hx)). cbn [bind].
  rewrite !(drillDown_concrete _ _ _ y Hy). cbn [bind orb]. cbv zeta.
  rewrite (scalar_valid x Hx). cbn [negb orb andb].
  rewrite !comparator_eta.
  destruct (Value.IsValid y); cbn [negb]; [|reflexivity].
  destruct x as [|b0|k x|k x|x|k x|k re im|t s|t xs|t p|t p|t p|d|t fs|z|prec z|t p q|t p|p];
    try discriminate.
  - cbn. destruct (Value.Bool y); reflexivity.
  - destruct k; reflexivity.
  - destruct k; reflexivity.
  - destruct k; reflexivity.
  - destruct k; cbn; destruct (Value.Complex y); reflexivity.
  - cbn. destruct (Value.TypeOf y); reflexivity.
  - cbn [Value.Kind]. unfold areStructsEquivalent, isEquivalentToBigInt.
    destruct (numericToString h (S n) y); reflexivity.
  - cbn [Value.Kind]. unfold areStructsEquivalent, isEquivalentToBigFloat.
    destruct (numericToString h (S n) y); reflexivity.
Qed.

(** X21: the operands are compared as what they lead to: when the
    left operand reaches a scalar through pointers and interface slots,
    the answer is the one for that scalar and for what the right operand
    reaches. *)
Theorem scalars_reached_through_references (n : nat) (h : heap) (a b a' b' : value) :
  drills_to h (S n) a a' → drills_to h (S n) b b' → scalar a' = true →
  IsEquivalent (S n) h a b = IsEquivalent (S n) h a' b'.
Proof.
  intros Hda Hdb Hs.
  assert (Hva : Value.IsValid a = true)
    by (apply (drills_to_valid h (S n) a a' Hda), scalar_valid, Hs).
  destruct Hda as [fa Hda], Hdb as [fb Hdb].
  assert (Hcb : concrete b' = true) by exact (drillDown_result _ _ _ _ _ _ _ Hdb).
  unfold IsEquivalent. rewrite Hva, (scalar_valid a' Hs). cbn [negb andb].
  rewrite (areObjectsEquivalent_drilled h n a b a' b' newComparator fa fb Hda Hdb).
  rewrite (scalar_left_run h n a' b' {| aFinder := fa; bFinder := fb |} newComparator Hs Hcb).
  destruct (areObjectsEquivalent h (S n) a' b' newComparator) as [[r c]| | |]; reflexivity.
Qed.

(** A pointer to the integer 5 against the float 5. *)
Lemma scalars_reached_through_references_witness :
  IsEquivalent 2 (<[1 := CVal (VInt KInt 5)]> ∅) (VPtr (TPtr (TNamed "int")) 1)
    (VFloat KFloat64 (Float.of_Z 5))
  = IsEquivalent 2 (<[1 := CVal (VInt KInt 5)]> ∅) (VInt KInt 5) (VFloat KFloat64 (Float.of_Z 5)).
Proof.
  apply scalars_reached_through_references.
  - exists ({[1]} ∪ ∅). vm_compute. reflexivity.
  - apply drills_to_concrete. reflexivity.
  - reflexivity.
Defined.

(** ** Floats against unsigned integers *)

Lemma not_negative_ltb (g : spec_float) :
  not_negative g → Float.ltb g (Float.of_Z 0) = false.
Proof. destruct g as [s|s| |s m e]; simpl; intros Hs; subst; reflexivity. Qed.

Lemma to_uint64_zero (s : bool) : Float.to_uint64 (S754_zero s) = 0.
Proof. destruct s; vm_compute; reflexivity. Qed.

Lemma to_uint64_nan : Float.to_uint64 S754_nan = 2 ^ 63.
Proof. vm_compute. reflexivity. Qed.

Lemma of_Z_two63_finite : Float.of_Z (2 ^ 63) = S754_finite false 4503599627370496 11.
Proof. vm_compute. reflexivity. Qed.

(** What [fb >= 0 && a == uint64(fb) && float64(a) == fb] amounts to. *)
Lemma unsigned_float_agree (u : Z) (f : spec_float) :
  0 <= u →
  ((if Float.ltb f (Float.of_Z 0) then false
    else (u =? Float.to_uint64 f) && Float.eqb (Float.of_Z u) f) = true ↔
   (f = Float.of_Z u ∨ (u = 0 ∧ f = S754_zero true)) ∧ Float.to_uint64 (Float.of_Z u) = u).
Proof.
  intros Hu. split.
  - destruct (Float.ltb f (Float.of_Z 0)); [discriminate|].
    intros H. apply andb_true_iff in H as [Hi He]. apply Z.eqb_eq in Hi.
    apply eqb_true in He as [[He _]|(s & s' & Hz & Hf)].
    + subst f. split; [left; reflexivity|]. symmetry. exact Hi.
    + subst f. rewrite to_uint64_zero in Hi. subst u.
      split; [|reflexivity]. destruct s'; [right; split; reflexivity|left; reflexivity].
  - intros [[Hf|[Hi Hf]] Hr].
    + subst f. rewrite (not_negative_ltb _ (of_Z_sign u Hu)).
      rewrite Hr, Z.eqb_refl. cbn [andb]. apply eqb_refl.
      intros Hnan. rewrite Hnan, to_uint64_nan in Hr. subst u.
      rewrite of_Z_two63_finite in Hnan. discriminate.
    + subst u f. reflexivity.
Qed.

(** X22: an unsigned integer and a float are equivalent, in either
    order, exactly when the float is the conversion of the integer (or
    the negative zero, for 0) and the conversion back gives the integer
    again. *)
Theorem unsigned_equivalent_to_its_float_only (n : nat) (h : heap)
    (k : uint_kind) (kf : float_kind) (u : Z) (f : spec_float) :
  0 <= u →
  (IsEquivalent (S n) h (VUint k u) (VFloat kf f) = Some true ↔
   (f = Float.of_Z u ∨ (u = 0 ∧ f = S754_zero true)) ∧ Float.to_uint64 (Float.of_Z u) = u)
  ∧ (IsEquivalent (S n) h (VFloat kf f) (VUint k u) = Some true ↔
     (f = Float.of_Z u ∨ (u = 0 ∧ f = S754_zero true)) ∧ Float.to_uint64 (Float.of_Z u) = u).
Proof.
  intros Hu.
  assert (Hrun : IsEquivalent (S n) h (VUint k u) (VFloat kf f)
                 = Some (if Float.ltb f (Float.of_Z 0) then false
                         else (u =? Float.to_uint64 f) && Float.eqb (Float.of_Z u) f)).
  { rewrite IsEquivalent_unsigned by reflexivity. reflexivity. }
  assert (Hback : IsEquivalent (S n) h (VFloat kf f) (VUint k u)
                  = Some (if Float.ltb f (Float.of_Z 0) then false
                          else (u =? Float.to_uint64 f) && Float.eqb (Float.of_Z u) f)).
  { rewrite IsEquivalent_float by reflexivity.
    rewrite <- (isEquivalentToUint_float_sym u kf k f Hu). reflexivity. }
  rewrite Hrun, Hback.
  assert (Hiff : Some (if Float.ltb f (Float.of_Z 0) then false
                       else (u =? Float.to_uint64 f) && Float.eqb (Float.of_Z u) f) = Some true ↔
                 (f = Float.of_Z u ∨ (u = 0 ∧ f = S754_zero true))
                 ∧ Float.to_uint64 (Float.of_Z u) = u).
  { rewrite <- (unsigned_float_agree u f Hu).
    split; [intros [= H]; exact H|intros H; f_equal; exact H]. }
  split; exact Hiff.
Qed.

(** [uint64(3)] against [float32(3)]. *)
Lemma unsigned_equivalent_to_its_float_only_witness :
  IsEquivalent 1 ∅ (VUint KUint64 3) (VFloat KFloat32 (Float.of_Z 3)) = Some true.
Proof.
  apply (proj1 (unsigned_equivalent_to_its_float_only 0 ∅ KUint64 KFloat32 3 (Float.of_Z 3)
                  ltac:(lia))).
  split; [left; reflexivity|vm_compute; reflexivity].
Defined.

(** ** Reflexivity on object graphs *)

Lemma sound_heap_cell (h : heap) (p : Z) (c : cell) :
  sound_heap h = true → h !! p = Some c → sound_cell h c = true.
Proof.
  unfold sound_heap. intros Hh Hp. eapply forallb_elem; [exact Hh|].
  apply list_elem_of_fmap. exists (p, c). split; [reflexivity|].
  apply elem_of_map_to_list. exact Hp.
Qed.

Lemma sound_value_array h t xs : sound_value h (VArray t xs) = forallb (sound_value h) xs.
Proof. induction xs as [|x xs IH]; [reflexivity|]. simpl in *. rewrite IH. reflexivity. Qed.

Lemma sound_value_struct h t xs :
  sound_value h (VStruct t xs) = true → forallb (sound_value h) xs = true.
Proof.
  cbn [sound_value]. intros [_ H]%andb_true_iff. revert H.
  induction xs as [|x xs IH]; [reflexivity|]. simpl.
  intros [Hx Hxs]%andb_true_iff. rewrite Hx. exact (IH Hxs).
Qed.

Lemma holds_or_runs_bind {A} (m : outcome A) (k : A → outcome (bool * comparator)) :
  (m = Timeout ∨ ∃ x, m = Done x ∧ holds_or_runs (k x)) → holds_or_runs (bind m k).
Proof. intros [->|(x & -> & Hk)]; [left; reflexivity|exact Hk]. Qed.

Lemma forEach_holds {X} (body : X → comparator → outcome (bool * comparator)) (xs : list X) :
  (∀ x c, x ∈ xs → holds_or_runs (body x c)) → ∀ c, holds_or_runs (forEach body xs c).
Proof.
  induction xs as [|x xs IH]; intros Hb c; [right; eexists; reflexivity|].
  simpl. destruct (Hb x c ltac:(left)) as [->|[c' ->]]; [left; reflexivity|].
  cbn [bind]. apply IH. intros y c0 Hy. apply Hb. right. exact Hy.
Qed.

Section Sound.

Variable h : heap.
Hypothesis Hheap : sound_heap h = true.

(** The walk over a sound value gives a sound value, or runs out of fuel. *)
Lemma drillDown_sound (n : nat) :
  ∀ finder v, sound_value h v = true →
    drillDown h n finder v = Timeout
    ∨ ∃ v' dup finder', drillDown h n finder v = Done (v', dup, finder')
                        ∧ sound_value h v' = true.
Proof.
  induction n as [|n IH]; intros finder v Hs; [left; reflexivity|].
  destruct (concrete v) eqn:Hc.
  - right. rewrite drillDown_concrete by exact Hc. eauto.
  - destruct v; try discriminate.
    + rewrite drillDown_pointer. destruct (bool_decide (ref ∈ finder)); [right; eauto|].
      cbn [sound_value] in Hs. unfold Value.Elem.
      destruct (ref =? 0) eqn:Hz.
      * cbn [bind]. apply IH. reflexivity.
      * cbn [orb] in Hs. destruct (h !! ref) as [[x|xs|es]|] eqn:Hp; try discriminate.
        cbn [bind]. apply IH. exact (sound_heap_cell h ref _ Hheap Hp).
    + rewrite drillDown_interface. apply IH. exact Hs.
Qed.

(** Two walks over one value that both end with the flag down end on
    the same value. *)
Lemma drillDown_same (n : nat) :
  ∀ v f f' x y f1 f2,
    drillDown h n f v = Done (x, false, f1) → drillDown h n f' v = Done (y, false, f2) → x = y.
Proof.
  induction n as [|n IH]; intros v f f' x y f1 f2 Hx Hy; [discriminate|].
  destruct (concrete v) eqn:Hc.
  - rewrite drillDown_concrete in Hx, Hy by exact Hc. congruence.
  - destruct v; try discriminate.
    + rewrite drillDown_pointer in Hx, Hy.
      destruct (bool_decide (ref ∈ f)); [discriminate|].
      destruct (bool_decide (ref ∈ f')); [discriminate|].
      destruct (Value.Elem h (VPtr t ref)) as [e| | |]; try discriminate.
      cbn [bind] in Hx, Hy. eapply IH; eassumption.
    + rewrite drillDown_interface in Hx, Hy. eapply IH; eassumption.
Qed.

Lemma lookup_own_key (kt : rtype) (es : list (value * value)) (k v : value) :
  keys_ok kt es = true → (k, v) ∈ es →
  Value.lookup_key (Value.unbox k) es = v ∧ Value.IsValid v = true ∧ key_ok kt k = true.
Proof.
  induction es as [|[k0 v0] es IH]; intros Hok Hin; [inversion Hin|].
  cbn [keys_ok] in Hok.
  apply andb_true_iff in Hok as [Hok Hrest]. apply andb_true_iff in Hok as [Hok Hdist].
  apply andb_true_iff in Hok as [Hk0 Hv0].
  apply elem_of_cons in Hin as [[= -> ->]|Hin].
  - split; [|split; [exact Hv0|exact Hk0]].
    simpl. unfold key_ok in Hk0.
    apply andb_true_iff in Hk0 as [Hk0 _]. apply andb_true_iff in Hk0 as [Heq _].
    rewrite Heq. reflexivity.
  - simpl.
    assert (Hne : Value.key_eqb (Value.unbox k0) (Value.unbox k) = false).
    { apply negb_true_iff. exact (forallb_elem _ es (k, v) Hdist Hin). }
    rewrite Hne. apply IH; assumption.
Qed.

(** On a map as Go builds it, the lookup of one of its own keys finds
    the value stored under that key at the first try. *)
Lemma getMapValue_own_key (kt et : rtype) (p : Z) (es : list (value * value)) (k v : value) :
  Value.entries h p = Done es → keys_ok kt es = true → (k, v) ∈ es →
  getMapValue h (VMap (TMap kt et) p) k = Done v.
Proof.
  intros Hes Hok Hin.
  destruct (lookup_own_key kt es k v Hok Hin) as (Hl & Hv & Hk).
  unfold key_ok in Hk. apply andb_true_iff in Hk as [Hk Ht].
  apply andb_true_iff in Hk as [_ Hh].
  unfold getMapValue.
  assert (Hkey : match Value.Kind k with
                 | reflect.Interface => Value.Elem h k
                 | _ => Done k
                 end = Done (Value.unbox k)).
  { destruct k as [| |[]|[]| |[]|[]| | | | | | | | | | | |]; reflexivity. }
  rewrite Hkey. cbn [bind]. unfold Value.MapIndex.
  destruct (Value.TypeOf (Value.unbox k)) as [t| | |]; try discriminate.
  rewrite Ht, Hh, Hes. cbn [bind]. rewrite Hl, Hv. reflexivity.
Qed.

Lemma sound_backing (t : rtype) (p : Z) :
  sound_value h (VSlice t p) = true →
  ∃ xs, Value.backing h p = Done xs ∧ forallb (sound_value h) xs = true.
Proof.
  cbn [sound_value]. unfold Value.backing. destruct (p =? 0); [exists []; auto|].
  cbn [orb]. destruct (h !! p) as [[x|xs|es]|] eqn:Hp; try discriminate. intros _.
  exists xs. split; [reflexivity|]. exact (sound_heap_cell h p _ Hheap Hp).
Qed.

Lemma sound_entries (kt et : rtype) (p : Z) :
  sound_value h (VMap (TMap kt et) p) = true →
  ∃ es, Value.entries h p = Done es ∧ keys_ok kt es = true
        ∧ forallb (fun kv : value * value => sound_value h kv.2) es = true.
Proof.
  cbn [sound_value]. unfold Value.entries. destruct (p =? 0); [exists []; auto|].
  cbn [orb]. destruct (h !! p) as [[x|xs|es]|] eqn:Hp; try discriminate. intros Hok.
  exists es. split; [reflexivity|]. split; [exact Hok|].
  exact (sound_heap_cell h p _ Hheap Hp).
Qed.

Lemma sound_reflexive_run (n : nat) :
  ∀ v c, sound_value h v = true → holds_or_runs (areObjectsEquivalent h n v v c).
Proof.
  induction n as [|n IH]; intros v c Hs; [left; reflexivity|].
  rewrite areObjectsEquivalent_unfold.
  destruct (drillDown_sound (S n) (aFinder c) v Hs) as [->|(a' & da & fa & Ha & Hsa)];
    [left; reflexivity|].
  rewrite Ha. cbn [bind].
  destruct (drillDown_sound (S n) (bFinder c) v Hs) as [->|(b' & db & fb & Hb & Hsb)];
    [left; reflexivity|].
  rewrite Hb. cbn [bind]. cbv zeta.
  destruct da; [right; eexists; reflexivity|].
  destruct db; [right; eexists; reflexivity|]. cbn [orb].
  assert (b' = a') as -> by (symmetry; eapply drillDown_same; eassumption).
  pose proof (drillDown_result _ _ _ _ _ _ _ Ha) as Hca. cbn in Hca.
  destruct (Value.IsValid a') eqn:Hv; [|right; eexists; reflexivity]. cbn [negb orb].
  set (c1 := {| aFinder := fa; bFinder := fb |}).
  assert (Harr : ∀ xs c0, Value.Len h a' = Done (Z.of_nat (length xs)) →
            (∀ i, Value.Index h a' i = Value.at_index xs i) →
            forallb (sound_value h) xs = true →
            holds_or_runs (areArraysOrSlicesEquivalent h (areObjectsEquivalent h n) a' a' c0)).
  { intros xs c0 Hlen Hidx Hxs. unfold areArraysOrSlicesEquivalent.
    rewrite Hlen. cbn [bind]. rewrite Z.eqb_refl. cbn [negb].
    apply forEach_holds. intros i c2 Hi. apply elem_of_seqZ_0 in Hi.
    destruct (at_index_inside xs i Hi) as (x & Hx & Hl).
    rewrite Hidx, Hx. cbn [bind]. apply IH.
    eapply forallb_elem; [exact Hxs|]. eapply list_elem_of_lookup_2. exact Hl. }
  destruct a' as [|b0|k x|k x|x|k x|k re im|t s|t xs|t p|t p|t p|d|t fs|z|prec z|t p q|t p|p];
    try discriminate.
  - right. exists c1. destruct b0; reflexivity.
  - right. exists c1. destruct k; cbn; rewrite Z.eqb_refl; reflexivity.
  - right. exists c1. destruct k; cbn; rewrite Z.eqb_refl; reflexivity.
  - right. exists c1.
    destruct k; cbn; destruct (Float.IsNaN x) eqn:Hnan; cbn; try reflexivity;
      rewrite eqb_refl by (intros ->; discriminate); reflexivity.
  - right. exists c1. cbn [sound_value] in Hsa. apply andb_true_iff in Hsa as [Hre Him].
    destruct k; cbn; rewrite !eqb_refl by (intros ->; discriminate); reflexivity.
  - right. exists c1. cbn.
    rewrite bool_decide_eq_true_2 by reflexivity. rewrite String.eqb_refl. reflexivity.
  - cbn [Value.Kind]. apply (Harr xs c1); [reflexivity|reflexivity|].
    rewrite <- sound_value_array with (t := t). exact Hsa.
  - cbn [Value.Kind]. unfold RegisterPointer. cbn [Value.Pointer bind]. cbv zeta.
    destruct (bool_decide _); [right; eexists; reflexivity|].
    destruct (sound_backing t p Hsa) as (xs & Hxs & Hall).
    apply (Harr xs).
    + cbn [Value.Len]. rewrite Hxs. reflexivity.
    + intros i. cbn [Value.Index]. rewrite Hxs. reflexivity.
    + exact Hall.
  - cbn [Value.Kind]. unfold RegisterPointer. cbn [Value.Pointer bind]. cbv zeta.
    destruct (bool_decide _); [right; eexists; reflexivity|].
    destruct t as [| | | | |kt et| |]; try discriminate.
    destruct (sound_entries kt et p Hsa) as (es & Hes & Hok & Hall).
    unfold areMapsEquivalent. cbn [Value.Len Value.mapRange]. rewrite Hes. cbn [bind].
    rewrite Z.eqb_refl. cbn [negb].
    apply forEach_holds. intros [key val] c2 Hin. cbn [fst snd]. cbv zeta.
    rewrite (getMapValue_own_key kt et p es key val Hes Hok Hin). cbn [bind].
    apply IH. exact (forallb_elem _ es (key, val) Hall Hin).
  - cbn [Value.Kind]. unfold areStructsEquivalent. cbn [Value.NumField bind].
    rewrite Z.eqb_refl. cbn [negb].
    apply forEach_holds. intros i c2 Hi. apply elem_of_seqZ_0 in Hi.
    destruct (at_index_inside fs i Hi) as (x & Hx & Hl).
    cbn [Value.Field]. rewrite Hx. cbn [bind]. apply IH.
    eapply forallb_elem; [exact (sound_value_struct h t fs Hsa)|].
    eapply list_elem_of_lookup_2. exact Hl.
  - right. exists c1. destruct t; try discriminate. cbn.
    repeat (rewrite bool_decide_eq_true_2 by reflexivity; cbn). reflexivity.
  - right. exists c1. cbn. rewrite bool_decide_eq_true_2 by reflexivity. reflexivity.
Qed.

End Sound.

(** A graph covered in full holds no big number. *)
Lemma sound_big_free (h : heap) (v : value) : sound_value h v = true → big_free v = true.
Proof.
  remember (size_of v) as m eqn:Hm. revert v Hm.
  induction m as [m IH] using lt_wf_ind. intros v ->.
  destruct v as [|b0|k x|k x|x|k x|k re im|t s|t xs|t p|t p|t p|d|t fs|z|prec z|t p q|t p|p];
    try reflexivity; try discriminate.
  - rewrite sound_value_array, big_free_array. intros Hxs.
    apply forallb_forall. intros x Hx%list_elem_of_In.
    pose proof (sizes_elem x xs Hx) as Hsz. rewrite size_of_array in IH.
    apply (IH (size_of x)); [lia|reflexivity|exact (forallb_elem _ xs x Hxs Hx)].
  - cbn [sound_value big_free]. intros Hd.
    apply (IH (size_of d)); [cbn [size_of]; lia|reflexivity|exact Hd].
  - intros Hfs%sound_value_struct. rewrite big_free_struct.
    apply forallb_forall. intros x Hx%list_elem_of_In.
    pose proof (sizes_elem x fs Hx) as Hsz. rewrite size_of_struct in IH.
    apply (IH (size_of x)); [lia|reflexivity|exact (forallb_elem _ fs x Hfs Hx)].
Qed.

Lemma sound_big_free_heap (h : heap) : sound_heap h = true → big_free_heap h = true.
Proof.
  unfold sound_heap, big_free_heap. intros Hh.
  apply forallb_forall. intros c Hc%list_elem_of_In.
  pose proof (forallb_elem _ _ c Hh Hc) as Hcell.
  apply forallb_forall. intros x Hx%list_elem_of_In.
  apply (sound_big_free h).
  destruct c as [v|xs|es]; cbn [cell_values sound_cell] in *.
  - apply list_elem_of_singleton in Hx as ->. exact Hcell.
  - exact (forallb_elem _ xs x Hcell Hx).
  - apply list_elem_of_fmap in Hx as ([k v] & -> & Hin).
    exact (forallb_elem _ es (k, v) Hcell Hin).
Qed.

(** X23: an object graph that the embedding covers in full is
    equivalent to itself, cycles and shared parts included: references
    that are nil or lead to a cell, maps as Go builds them, and no
    [uintptr], no [unsafe.Pointer], no complex number with a NaN part
    and no big number anywhere in the graph. *)
Theorem sound_graph_reflexive (h : heap) (n : nat) (v : value) :
  sound_heap h = true → sound_value h v = true → (enough_fuel h v v ≤ n)%nat →
  IsEquivalent n h v v = Some true.
Proof.
  intros Hh Hv Hn.
  destruct (sound_reflexive_run h Hh n v newComparator Hv) as [Hout|[c Hrun]].
  - exfalso.
    refine (areObjectsEquivalent_terminates h 0 v v n _ _ Hout); [|lia].
    left. split; [exact (sound_big_free_heap h Hh)|exact (sound_big_free h v Hv)].
  - eapply IsEquivalent_returns. exact Hrun.
Qed.

(** The self-referential slice of [TestRecursive], compared with
    itself. *)
Lemma sound_graph_reflexive_witness :
  IsEquivalent 17 self_heap self_a self_a = Some true.
Proof.
  apply sound_graph_reflexive.
  - vm_compute. reflexivity.
  - vm_compute. reflexivity.
  - vm_compute. lia.
Defined.

(** ** The lookup of an integer key returns an entry of that number *)

Lemma eqb_trans (a b c : spec_float) :
  Float.eqb a b = true → Float.eqb b c = true → Float.eqb a c = true.
Proof.
  intros Hab Hbc.
  apply eqb_true in Hab as [[-> Ha]|(s1 & s2 & -> & ->)].
  - exact Hbc.
  - apply eqb_true in Hbc as [[<- _]|(s3 & s4 & _ & ->)]; destruct s1; reflexivity.
Qed.

Lemma key_eqb_float (key : value) (kf : float_kind) (f : spec_float) :
  Value.key_eqb key (VFloat kf f) = true → ∃ f', key = VFloat kf f' ∧ Float.eqb f' f = true.
Proof.
  destruct key; try discriminate. simpl.
  intros [Hk He]%andb_true_iff. apply bool_decide_eq_true in Hk as ->. eauto.
Qed.

Lemma float_probes_sound (n : Z) (key q : value) :
  q ∈ float_probes (Float.of_Z n) → Value.key_eqb key q = true →
  ∃ kf f, key = VFloat kf f ∧ Float.eqb f (Float.of_Z n) = true.
Proof.
  unfold float_probes. rewrite elem_of_app, elem_of_only_if, list_elem_of_singleton.
  intros [->|[Hc ->]] Hk; apply key_eqb_float in Hk as (f' & -> & He).
  - eauto.
  - exists KFloat32, f'. split; [reflexivity|]. eapply eqb_trans; eassumption.
Qed.

(** X24: the lookup of an integer key in a map keyed by [interface{}]
    returns only what is stored under a key of that number, an integer
    holding it or a float equal to its conversion; where the map has no
    such key the lookup reports not-found. *)
Theorem getMapValue_integer_key_sound (h : heap) (et : rtype) (p : Z)
    (es : list (value * value)) (k : value) (n : Z) :
  Value.entries h p = Done es →
  native_integer (Value.unbox k) → int_of (Value.unbox k) = Some n →
  (∀ v, getMapValue h (VMap (TMap TInterface et) p) k = Done v → Value.IsValid v = true →
        ∃ key, (key, v) ∈ es ∧ key_of_number n key)
  ∧ ((∀ key v, (key, v) ∈ es → ¬ key_of_number n key) →
     getMapValue h (VMap (TMap TInterface et) p) k = Done VInvalid).
Proof.
  intros Hes Hw Hn.
  set (k0 := Value.unbox k) in *.
  assert (Hty : ∃ t, Value.TypeOf k0 = Done t ∧ Value.hashable k0 = true).
  { destruct k0 as [| |[]|[]| | | | | | | | | | | | | | |]; try discriminate; eauto. }
  destruct Hty as (t & Ht & Hh).
  pose proof (getMapValue_probes h et p es Hes k t Ht Hh) as Hrun. fold k0 in Hrun.
  pose proof (native_integer_range k0 n Hw Hn) as Hr.
  assert (Hsound : ∀ v, first_hit es (k0 :: probes k0) = v → Value.IsValid v = true →
                        ∃ key, (key, v) ∈ es ∧ key_of_number n key).
  { intros v <- Hv.
    destruct (first_hit_from es _ Hv) as (q & Hq & Heq).
    rewrite Heq in Hv |- *.
    destruct (lookup_key_entry es q Hv) as (key & Hin & Hk).
    exists key. split; [exact Hin|].
    rewrite (probes_integer k0 n Hn) in Hq.
    apply elem_of_cons in Hq as [->|Hq].
    - left. exact (key_eqb_integer (Value.unbox key) k0 n Hn Hk).
    - apply elem_of_app in Hq as [Hq|Hq].
      + left. apply (key_eqb_integer (Value.unbox key) q n); [|exact Hk].
        exact (integer_probes_sound k0 q n Hn Hr Hq).
      + right. exact (float_probes_sound n (Value.unbox key) q Hq Hk). }
  split.
  - intros v Hv Hvalid. rewrite Hrun in Hv. injection Hv as Hv. exact (Hsound v Hv Hvalid).
  - intros Hnone. rewrite Hrun. f_equal.
    destruct (Value.IsValid (first_hit es (k0 :: probes k0))) eqn:Hv.
    + destruct (Hsound _ eq_refl Hv) as (key & Hin & Hkey).
      exfalso. exact (Hnone _ _ Hin Hkey).
    + apply invalid_is_VInvalid. exact Hv.
Qed.

(** The key [int(2)] in a map that holds [int64(1)] and [uint64(1)]. *)
Lemma getMapValue_integer_key_sound_witness :
  getMapValue two_ones_heap two_ones_map (VInt KInt 2) = Done VInvalid.
Proof.
  apply (proj2 (getMapValue_integer_key_sound two_ones_heap TInterface 1 two_ones
                  (VInt KInt 2) 2 eq_refl ltac:(vm_compute; reflexivity) eq_refl)).
  intros key v Hin Hkey. unfold two_ones in Hin.
  apply elem_of_cons in Hin as [[= -> ->]|Hin];
    [|apply list_elem_of_singleton in Hin; injection Hin as -> ->];
    destruct Hkey as [Hk|(kf & f & Hk & _)]; discriminate.
Defined.

(** ** The tolerance of the older comparator is one-sided *)

(** X26: in the older comparator the relative tolerance applies to a
    float on the left against an integer on the right, and not the other
    way round: a float that differs from [float64(i)] by no more than the
    tolerance is equivalent to the integer [i], and [i] is not equivalent
    to it. *)
Theorem older_comparator_tolerance_one_sided (n : nat) (h : heap)
    (k : int_kind) (kf : float_kind) (i : Z) (f : spec_float) :
  Float.to_int64 (Float.of_Z i) = i →
  Float.eqb f (Float.of_Z i) = false →
  Float.leb (Float.Abs (Float.sub f (Float.of_Z i)))
            (Float.Abs (Float.mul f Legacy.floatToleranceFactor)) = true →
  Legacy.IsEquivalent (S n) h (VFloat kf f) (VInt k i) = Some true
  ∧ Legacy.IsEquivalent (S n) h (VInt k i) (VFloat kf f) = Some false.
Proof.
  intros Hrt Hne Htol.
  rewrite !Legacy_IsEquivalent_concrete by reflexivity. split.
  - assert (Hrun : Legacy.areObjectsEquivalent (S n) h (VFloat kf f) (VInt k i) = Done true).
    { destruct kf; cbn; rewrite Hrt, Z.eqb_refl; cbn; rewrite Hne, Htol;
        destruct (Float.IsNaN f && Float.IsNaN (Float.of_Z i)); reflexivity. }
    rewrite Hrun. reflexivity.
  - assert (Hrun : Legacy.areObjectsEquivalent (S n) h (VInt k i) (VFloat kf f) = Done false).
    { assert (Hcase : Legacy.areObjectsEquivalent (S n) h (VInt k i) (VFloat kf f)
                      = if Float.eqb (Float.of_Z (Float.to_int64 f)) f
                        then Done (i =? Float.to_int64 f) else Done false)
        by (destruct k; cbn; destruct (Float.eqb (Float.of_Z (Float.to_int64 f)) f); reflexivity).
      rewrite Hcase.
      destruct (Float.eqb (Float.of_Z (Float.to_int64 f)) f) eqn:He; [|reflexivity].
      f_equal. apply Z.eqb_neq. intros ->.
      rewrite eqb_sym in He. congruence. }
    rewrite Hrun. reflexivity.
Qed.

(** The float 1 + 2^-52 against the integer 1. *)
Lemma older_comparator_tolerance_one_sided_witness :
  Legacy.IsEquivalent 1 ∅ (VFloat KFloat64 one_plus_ulp) (VInt KInt 1) = Some true
  ∧ Legacy.IsEquivalent 1 ∅ (VInt KInt 1) (VFloat KFloat64 one_plus_ulp) = Some false.
Proof.
  apply (older_comparator_tolerance_one_sided 0 ∅ KInt KFloat64 1 one_plus_ulp);
    vm_compute; reflexivity.
Defined.
